(** * A shallow embedding of [advanced-vector/vector.h]

    [RawMemory<T>] owns a block of uninitialised slots, [Vector<T>] owns one
    [RawMemory<T>] and a count of constructed elements.  The embedding keeps
    the slot-level view of the source: a block is a list of slots, a slot is
    either raw storage or a live object, and every member function is a
    function on that state.

    The element type [T] is a template parameter in the source.  It is
    embedded as a type class that supplies the special member functions of
    [T]; each of them may fail (throw) and may read and update an ambient
    state of the element type (for instance a construction counter of an
    instrumented test type).

    The standard algorithms the header calls ([std::uninitialized_copy_n],
    [std::uninitialized_move_n], [std::uninitialized_value_construct_n],
    [std::copy], [std::move], [std::move_backward]) are embedded after the
    C++ standard: the [uninitialized_*] family destroys what it constructed
    when a constructor throws and rethrows. *)

From stdpp Require Import base numbers option list gmap.

Set Default Proof Using "Type".

Local Open Scope N_scope.

(** ** [size_t] *)

(** [size_t] is taken as a 64 bit unsigned integer: values are [N], and the
    arithmetic the source performs on sizes wraps modulo [2^64]. *)
Definition size_t_modulus : N := 2 ^ 64.

Definition wrap (n : N) : N := n mod size_t_modulus.

(** [a - b] on [size_t]. *)
Definition wsub (a b : N) : N := wrap (a + size_t_modulus - wrap b).

(** ** The element type *)

Inductive CtorKind := ByArgs | ByCopy | ByMove | ByDefault.

Inductive AssignKind := CopyAssign | MoveAssign.

(** The special member functions of [T].  A constructor returns [None] when
    it throws.  A move hands back the state the source object is left in; an
    assignment returns whether it completed and the state of its left-hand
    side.  The two flags are the type traits the header inspects with
    [if constexpr]; [sizeof_T] is [sizeof(T)], which is at least 1. *)
Class Element (T : Type) := {
  Args : Type;
  Env : Type;
  sizeof_T : positive;
  is_nothrow_move_constructible : bool;
  is_copy_constructible : bool;
  ctor_args : Args → Env → option T * Env;
  ctor_copy : T → Env → option T * Env;
  ctor_move : T → Env → option T * T * Env;
  ctor_default : Env → option T * Env;
  assign_copy : T → T → Env → bool * T * Env;
  assign_move : T → T → Env → bool * T * T * Env;
  dtor : T → Env → Env
}.

(** Value semantics of an element type: a constructor or an assignment that
    completes yields the value it was given. *)
Class ValueSemantics (T : Type) `{Element T} := {
  ctor_copy_value v e x e' : ctor_copy v e = (Some x, e') → x = v;
  ctor_move_value v e x r e' : ctor_move v e = (Some x, r, e') → x = v;
  assign_copy_value d s e d' e' : assign_copy d s e = (true, d', e') → d' = s;
  assign_move_value d s e d' r e' :
    assign_move d s e = (true, d', r, e') → d' = s
}.

(** An element type none of whose operations throws. *)
Class NoThrow (T : Type) `{Element T} := {
  ctor_args_nothrow a e : is_Some (ctor_args a e).1;
  ctor_copy_nothrow v e : is_Some (ctor_copy v e).1;
  ctor_move_nothrow v e : is_Some (ctor_move v e).1.1;
  ctor_default_nothrow e : is_Some (ctor_default e).1;
  assign_copy_nothrow d s e : (assign_copy d s e).1.1 = true;
  assign_move_nothrow d s e : (assign_move d s e).1.1.1 = true
}.

(** An element type whose move assignment does not throw. *)
Class NoThrowMoveAssign (T : Type) `{Element T} :=
  move_assign_completes d s e : (assign_move d s e).1.1.1 = true.

Inductive Event (T : Type) :=
  | EvConstruct (k : CtorKind) (v : T)
  | EvAssign (k : AssignKind) (v : T)
  | EvDestroy (v : T).
Arguments EvConstruct {T} k v.
Arguments EvAssign {T} k v.
Arguments EvDestroy {T} v.

Inductive Exn := bad_alloc | element_exception.

Inductive Fault := undefined_behaviour | terminate.

Section Embedding.
Context {T : Type} `{!Element T}.

(** ** The world outside the vector *)

(** [env] is the ambient state of the element type.  [trace] records each
    constructor, assignment and destructor call on an element, in order.
    [leaked] collects the objects whose storage was given up without a
    destructor call.  [heap_limit] is the largest number of bytes
    [operator new] grants in one block; a larger request throws
    [std::bad_alloc]. *)
Record World := mkWorld {
  env : Env;
  trace : list (Event T);
  leaked : list T;
  heap_limit : N
}.

(** [sizeof(T)] as a [size_t]. *)
Definition sizeof : N := N.pos sizeof_T.

(** The largest number of objects of [T] whose storage [operator new]
    grants in one block: their bytes are within [heap_limit] and within the
    range of [size_t]. *)
Definition alloc_limit (w : World) : N :=
  N.min (heap_limit w) (size_t_modulus - 1) / sizeof.

Definition set_env (e : Env) (w : World) : World :=
  mkWorld e (trace w) (leaked w) (heap_limit w).

Definition log (ev : Event T) (w : World) : World :=
  mkWorld (env w) (trace w ++ [ev]) (leaked w) (heap_limit w).

Definition leak (l : list T) (w : World) : World :=
  mkWorld (env w) (trace w) (leaked w ++ l) (heap_limit w).

(** The result of a call: it returns [a], it throws [x] leaving the state
    [b] behind, or it has no defined result. *)
Inductive Outcome (A B : Type) :=
  | Done (a : A) (w : World)
  | Thrown (x : Exn) (b : B) (w : World)
  | Abort (f : Fault).
Arguments Done {A B} a w.
Arguments Thrown {A B} x b w.
Arguments Abort {A B} f.

(** A function declared [noexcept]: an exception that reaches its boundary
    calls [std::terminate]. *)
Definition noexcept {A B} (o : Outcome A B) : Outcome A B :=
  match o with
  | Thrown _ _ _ => Abort terminate
  | _ => o
  end.

(** ** Calls of the special member functions of [T] *)

(** What a new element is constructed from: [T(value)], [T(std::move(value))]
    or [T(std::forward<Args>(args)...)]. *)
Inductive Init := ICopy (v : T) | IMove (v : T) | IArgs (a : Args).

Definition init_kind (i : Init) : CtorKind :=
  match i with ICopy _ => ByCopy | IMove _ => ByMove | IArgs _ => ByArgs end.

Definition call_ctor_copy (v : T) (w : World) : Outcome T unit :=
  match ctor_copy v (env w) with
  | (Some x, e) => Done x (log (EvConstruct ByCopy x) (set_env e w))
  | (None, e) => Thrown element_exception () (set_env e w)
  end.

(** Returns the new object and the moved-from source.  When the move
    constructor is declared non-throwing, an exception inside it
    terminates. *)
Definition call_ctor_move (v : T) (w : World) : Outcome (T * T) T :=
  match ctor_move v (env w) with
  | (Some x, r, e) => Done (x, r) (log (EvConstruct ByMove x) (set_env e w))
  | (None, r, e) =>
      if is_nothrow_move_constructible then Abort terminate
      else Thrown element_exception r (set_env e w)
  end.

Definition call_ctor_args (a : Args) (w : World) : Outcome T unit :=
  match ctor_args a (env w) with
  | (Some x, e) => Done x (log (EvConstruct ByArgs x) (set_env e w))
  | (None, e) => Thrown element_exception () (set_env e w)
  end.

Definition call_ctor_default (w : World) : Outcome T unit :=
  match ctor_default (env w) with
  | (Some x, e) => Done x (log (EvConstruct ByDefault x) (set_env e w))
  | (None, e) => Thrown element_exception () (set_env e w)
  end.

(** The source object of [IMove] belongs to the caller; what the move leaves
    in it is not part of the vector. *)
Definition call_ctor (i : Init) (w : World) : Outcome T unit :=
  match i with
  | ICopy v => call_ctor_copy v w
  | IMove v =>
      match call_ctor_move v w with
      | Done (x, _) w' => Done x w'
      | Thrown x _ w' => Thrown x () w'
      | Abort f => Abort f
      end
  | IArgs a => call_ctor_args a w
  end.

Definition call_assign_copy (d s : T) (w : World) : Outcome T T :=
  match assign_copy d s (env w) with
  | (true, d', e) => Done d' (log (EvAssign CopyAssign d') (set_env e w))
  | (false, d', e) => Thrown element_exception d' (set_env e w)
  end.

Definition call_assign_move (d s : T) (w : World) : Outcome (T * T) (T * T) :=
  match assign_move d s (env w) with
  | (true, d', r, e) => Done (d', r) (log (EvAssign MoveAssign d') (set_env e w))
  | (false, d', r, e) => Thrown element_exception (d', r) (set_env e w)
  end.

Definition call_dtor (v : T) (w : World) : World :=
  log (EvDestroy v) (set_env (dtor v (env w)) w).

(** ** Blocks of slots *)

(** A slot is raw storage ([None]) or holds a live object. *)
Local Abbreviation Slot := (option T).
Local Abbreviation Block := (list (option T)).

(** [buf + i], for a block [buf]: [None] when the address is outside the
    block. *)
Definition slot_at (b : Block) (i : N) : option Slot := b !! N.to_nat i.

Definition store_at (b : Block) (i : N) (s : Slot) : Block :=
  <[N.to_nat i := s]> b.

(** The objects alive in a block. *)
Definition live (b : Block) : list T := omap id b.

(** [new (buf + i) T(init)].  Constructing over a live object gives up that
    object without destroying it. *)
Definition construct_at (b : Block) (i : N) (init : Init) (w : World)
  : Outcome Block Block :=
  match slot_at b i with
  | None => Abort undefined_behaviour
  | Some s =>
      match call_ctor init w with
      | Done x w' => Done (store_at b i (Some x)) (leak (option_list s) w')
      | Thrown x _ w' => Thrown x b w'
      | Abort f => Abort f
      end
  end.

(** [new (dst + j) T(std::move(src[i]))] between two blocks. *)
Definition move_construct_at (src : Block) (i : N) (dst : Block) (j : N)
  (w : World) : Outcome (Block * Block) (Block * Block) :=
  match slot_at src i, slot_at dst j with
  | Some (Some v), Some s =>
      match call_ctor_move v w with
      | Done (x, r) w' =>
          Done (store_at src i (Some r), store_at dst j (Some x))
               (leak (option_list s) w')
      | Thrown x r w' => Thrown x (store_at src i (Some r), dst) w'
      | Abort f => Abort f
      end
  | _, _ => Abort undefined_behaviour
  end.

(** [new (b + j) T(std::move(b[i]))] inside one block. *)
Definition move_construct_within (b : Block) (i j : N) (w : World)
  : Outcome Block Block :=
  match slot_at b i, slot_at b j with
  | Some (Some v), Some s =>
      match call_ctor_move v w with
      | Done (x, r) w' =>
          Done (store_at (store_at b i (Some r)) j (Some x))
               (leak (option_list s) w')
      | Thrown x r w' => Thrown x (store_at b i (Some r)) w'
      | Abort f => Abort f
      end
  | _, _ => Abort undefined_behaviour
  end.

(** [new (buf + i) T()]. *)
Definition value_construct_at (b : Block) (i : N) (w : World)
  : Outcome Block Block :=
  match slot_at b i with
  | None => Abort undefined_behaviour
  | Some s =>
      match call_ctor_default w with
      | Done x w' => Done (store_at b i (Some x)) (leak (option_list s) w')
      | Thrown x _ w' => Thrown x b w'
      | Abort f => Abort f
      end
  end.

(** [dst[j] = src[i]] between two blocks. *)
Definition copy_assign_at (src : Block) (i : N) (dst : Block) (j : N)
  (w : World) : Outcome Block Block :=
  match slot_at src i, slot_at dst j with
  | Some (Some s), Some (Some d) =>
      match call_assign_copy d s w with
      | Done d' w' => Done (store_at dst j (Some d')) w'
      | Thrown x d' w' => Thrown x (store_at dst j (Some d')) w'
      | Abort f => Abort f
      end
  | _, _ => Abort undefined_behaviour
  end.

(** [b[j] = std::move(b[i])] inside one block. *)
Definition move_assign_within (b : Block) (i j : N) (w : World)
  : Outcome Block Block :=
  match slot_at b i, slot_at b j with
  | Some (Some s), Some (Some d) =>
      match call_assign_move d s w with
      | Done (d', r) w' =>
          Done (store_at (store_at b i (Some r)) j (Some d')) w'
      | Thrown x (d', r) w' =>
          Thrown x (store_at (store_at b i (Some r)) j (Some d')) w'
      | Abort f => Abort f
      end
  | _, _ => Abort undefined_behaviour
  end.

(** [b[j] = std::move(value)] for a local object [value]; returns the block
    and the moved-from local. *)
Definition move_assign_from (b : Block) (j : N) (value : T) (w : World)
  : Outcome (Block * T) (Block * T) :=
  match slot_at b j with
  | Some (Some d) =>
      match call_assign_move d value w with
      | Done (d', r) w' => Done (store_at b j (Some d'), r) w'
      | Thrown x (d', r) w' => Thrown x (store_at b j (Some d'), r) w'
      | Abort f => Abort f
      end
  | _ => Abort undefined_behaviour
  end.

(** [Vector::Destroy]: [buf->~T()].  Declared [noexcept]; it has no defined
    result on a slot that holds no object. *)
Definition Destroy (b : Block) (i : N) (w : World) : option (Block * World) :=
  match slot_at b i with
  | Some (Some v) => Some (store_at b i None, call_dtor v w)
  | _ => None
  end.

(** [Vector::DestroyN]: [for (i = 0; i != n; ++i) Destroy(buf + i)], with
    [buf] the slot [first] of the block. *)
Fixpoint DestroyN_loop (b : Block) (first : N) (n : nat) (w : World)
  : option (Block * World) :=
  match n with
  | O => Some (b, w)
  | S n' =>
      match Destroy b first w with
      | Some (b', w') => DestroyN_loop b' (first + 1) n' w'
      | None => None
      end
  end.

Definition DestroyN (b : Block) (first n : N) (w : World)
  : option (Block * World) :=
  DestroyN_loop b first (N.to_nat n) w.

(** ** The standard algorithms the header calls *)

(** [std::uninitialized_copy_n(src + first, n, dst + d_first)]: copy
    constructs [n] objects; when a constructor throws, the objects already
    constructed are destroyed and the exception is rethrown. *)
Fixpoint uninitialized_copy_loop (src : Block) (first : N) (n : nat)
  (dst : Block) (cur : N) (w : World) : Outcome Block (Block * N) :=
  match n with
  | O => Done dst w
  | S n' =>
      match slot_at src first with
      | Some (Some v) =>
          match construct_at dst cur (ICopy v) w with
          | Done dst' w' =>
              uninitialized_copy_loop src (first + 1) n' dst' (cur + 1) w'
          | Thrown x dst' w' => Thrown x (dst', cur) w'
          | Abort f => Abort f
          end
      | _ => Abort undefined_behaviour
      end
  end.

Definition uninitialized_copy_n (src : Block) (first n : N) (dst : Block)
  (d_first : N) (w : World) : Outcome Block Block :=
  match uninitialized_copy_loop src first (N.to_nat n) dst d_first w with
  | Done dst' w' => Done dst' w'
  | Thrown x (dst', cur) w' =>
      match DestroyN dst' d_first (cur - d_first) w' with
      | Some (dst'', w'') => Thrown x dst'' w''
      | None => Abort undefined_behaviour
      end
  | Abort f => Abort f
  end.

(** [std::uninitialized_move_n(src + first, n, dst + d_first)]: as above with
    move construction; the sources already moved from stay moved from. *)
Fixpoint uninitialized_move_loop (src : Block) (first : N) (n : nat)
  (dst : Block) (cur : N) (w : World)
  : Outcome (Block * Block) (Block * Block * N) :=
  match n with
  | O => Done (src, dst) w
  | S n' =>
      match move_construct_at src first dst cur w with
      | Done (src', dst') w' =>
          uninitialized_move_loop src' (first + 1) n' dst' (cur + 1) w'
      | Thrown x (src', dst') w' => Thrown x (src', dst', cur) w'
      | Abort f => Abort f
      end
  end.

Definition uninitialized_move_n (src : Block) (first n : N) (dst : Block)
  (d_first : N) (w : World) : Outcome (Block * Block) (Block * Block) :=
  match uninitialized_move_loop src first (N.to_nat n) dst d_first w with
  | Done r w' => Done r w'
  | Thrown x (src', dst', cur) w' =>
      match DestroyN dst' d_first (cur - d_first) w' with
      | Some (dst'', w'') => Thrown x (src', dst'') w''
      | None => Abort undefined_behaviour
      end
  | Abort f => Abort f
  end.

(** [std::uninitialized_value_construct_n(b + first, n)]. *)
Fixpoint uninitialized_value_construct_loop (b : Block) (cur : N) (n : nat)
  (w : World) : Outcome Block (Block * N) :=
  match n with
  | O => Done b w
  | S n' =>
      match value_construct_at b cur w with
      | Done b' w' => uninitialized_value_construct_loop b' (cur + 1) n' w'
      | Thrown x b' w' => Thrown x (b', cur) w'
      | Abort f => Abort f
      end
  end.

Definition uninitialized_value_construct_n (b : Block) (first n : N)
  (w : World) : Outcome Block Block :=
  match uninitialized_value_construct_loop b first (N.to_nat n) w with
  | Done b' w' => Done b' w'
  | Thrown x (b', cur) w' =>
      match DestroyN b' first (cur - first) w' with
      | Some (b'', w'') => Thrown x b'' w''
      | None => Abort undefined_behaviour
      end
  | Abort f => Abort f
  end.

(** [std::copy(src + first, src + last, dst + d_first)]: copy assignment,
    front to back. *)
Fixpoint copy_loop (src : Block) (first : N) (n : nat) (dst : Block)
  (d_first : N) (w : World) : Outcome Block Block :=
  match n with
  | O => Done dst w
  | S n' =>
      match copy_assign_at src first dst d_first w with
      | Done dst' w' => copy_loop src (first + 1) n' dst' (d_first + 1) w'
      | other => other
      end
  end.

Definition std_copy (src : Block) (first last : N) (dst : Block)
  (d_first : N) (w : World) : Outcome Block Block :=
  if last <? first then Abort undefined_behaviour
  else copy_loop src first (N.to_nat (last - first)) dst d_first w.

(** [std::move(b + first, b + last, b + d_first)]: move assignment, front to
    back, inside one block. *)
Fixpoint move_loop (b : Block) (first : N) (n : nat) (d_first : N)
  (w : World) : Outcome Block Block :=
  match n with
  | O => Done b w
  | S n' =>
      match move_assign_within b first d_first w with
      | Done b' w' => move_loop b' (first + 1) n' (d_first + 1) w'
      | other => other
      end
  end.

Definition std_move (b : Block) (first last d_first : N) (w : World)
  : Outcome Block Block :=
  if last <? first then Abort undefined_behaviour
  else move_loop b first (N.to_nat (last - first)) d_first w.

(** [std::move_backward(b + first, b + last, b + d_last)]:
    move assignment, back to front: each step decrements [last] and
    [d_last] and assigns through them. *)
Fixpoint move_backward_loop (b : Block) (n : nat) (last d_last : N)
  (w : World) : Outcome Block Block :=
  match n with
  | O => Done b w
  | S n' =>
      if (last =? 0) || (d_last =? 0) then Abort undefined_behaviour
      else
        match move_assign_within b (last - 1) (d_last - 1) w with
        | Done b' w' => move_backward_loop b' n' (last - 1) (d_last - 1) w'
        | other => other
        end
  end.

Definition std_move_backward (b : Block) (first last d_last : N) (w : World)
  : Outcome Block Block :=
  if last <? first then Abort undefined_behaviour
  else move_backward_loop b (N.to_nat (last - first)) last d_last w.

(** ** [RawMemory<T>] *)

(** [buffer_] is the block the pointer designates ([[]] for [nullptr]). *)
Record RawMemory := mkRawMemory {
  buffer_ : Block;
  capacity_ : N
}.

(** The number of objects of [T] the block of [operator new(n * sizeof(T))]
    has room for.  The byte count is a product of two [size_t] and wraps:
    the block has room for [n] objects when the product is in the range of
    [size_t], and for fewer when it is not. *)
Definition granted (n : N) : N := wrap (n * sizeof) / sizeof.

(** [RawMemory::Allocate]: [n != 0 ? operator new(n * sizeof(T)) : nullptr].
    [operator new] is asked for the wrapped byte count and grants it when it
    is within [heap_limit]; the slots of the block are raw. *)
Definition Allocate (n : N) (w : World) : Outcome Block unit :=
  if n =? 0 then Done [] w
  else if wrap (n * sizeof) <=? heap_limit w
  then Done (replicate (N.to_nat (granted n)) None) w
  else Thrown bad_alloc () w.

(** [RawMemory::Deallocate]: the storage is given up; no destructor runs, so
    the objects still alive in it are lost. *)
Definition Deallocate (b : Block) (w : World) : World := leak (live b) w.

(** [RawMemory() = default]. *)
Definition RawMemory_default : RawMemory := mkRawMemory [] 0.

(** [explicit RawMemory(size_t capacity)]. *)
Definition RawMemory_new (capacity : N) (w : World) : Outcome RawMemory unit :=
  match Allocate capacity w with
  | Done b w' => Done (mkRawMemory b capacity) w'
  | Thrown x u w' => Thrown x u w'
  | Abort f => Abort f
  end.

(** [RawMemory(RawMemory&& other) noexcept]: returns the new object and
    [other]. *)
Definition RawMemory_move (other : RawMemory) : RawMemory * RawMemory :=
  (mkRawMemory (buffer_ other) (capacity_ other), mkRawMemory [] 0).

(** [~RawMemory()]. *)
Definition RawMemory_dtor (m : RawMemory) (w : World) : World :=
  Deallocate (buffer_ m) w.

(** [RawMemory::Swap]. *)
Definition RawMemory_Swap (a b : RawMemory) : RawMemory * RawMemory :=
  (mkRawMemory (buffer_ b) (capacity_ b), mkRawMemory (buffer_ a) (capacity_ a)).

Definition RawMemory_Capacity (m : RawMemory) : N := capacity_ m.

(** [RawMemory::operator[]]: [assert(index < capacity_); return
    buffer_[index];].  [None] when the assertion fails; otherwise the slot
    the reference designates. *)
Definition RawMemory_at (m : RawMemory) (index : N) : option Slot :=
  if index <? capacity_ m then slot_at (buffer_ m) index else None.

(** ** [Vector<T>] *)

Record Vector := mkVector {
  data_ : RawMemory;
  size_ : N
}.

Definition Size (v : Vector) : N := size_ v.

Definition Capacity (v : Vector) : N := RawMemory_Capacity (data_ v).

(** The block behind [data_.GetAddress()]. *)
Definition block (v : Vector) : Block := buffer_ (data_ v).

(** The same vector with the contents of its block replaced. *)
Definition with_block (b : Block) (v : Vector) : Vector :=
  mkVector (mkRawMemory b (capacity_ (data_ v))) (size_ v).

(** [begin()] and [end()] as offsets from [data_.GetAddress()]; an iterator
    of a vector is embedded as such an offset. *)
Definition begin_ (v : Vector) : N := 0.
Definition end_ (v : Vector) : N := size_ v.

(** The transfer of existing elements into new storage:
[[
  if constexpr (std::is_nothrow_move_constructible_v<T>
                || !std::is_copy_constructible_v<T>)
      std::uninitialized_move_n(...);
  else
      std::uninitialized_copy_n(...);
]] *)
Definition relocate_n (src : Block) (first n : N) (dst : Block) (d_first : N)
  (w : World) : Outcome (Block * Block) (Block * Block) :=
  if is_nothrow_move_constructible || negb is_copy_constructible
  then uninitialized_move_n src first n dst d_first w
  else
    match uninitialized_copy_n src first n dst d_first w with
    | Done dst' w' => Done (src, dst') w'
    | Thrown x dst' w' => Thrown x (src, dst') w'
    | Abort f => Abort f
    end.

(** [Vector() = default]. *)
Definition Vector_default : Vector := mkVector RawMemory_default 0.

(** [explicit Vector(size_t size)].  When it throws no object exists. *)
Definition Vector_sized (size : N) (w : World) : Outcome Vector unit :=
  match RawMemory_new size w with
  | Thrown x u w1 => Thrown x u w1
  | Abort f => Abort f
  | Done data w1 =>
      match uninitialized_value_construct_n (buffer_ data) 0 size w1 with
      | Done b w2 => Done (mkVector (mkRawMemory b (capacity_ data)) size) w2
      | Thrown x b w2 => Thrown x () (Deallocate b w2)
      | Abort f => Abort f
      end
  end.

(** [Vector(const Vector& other)]. *)
Definition Vector_copy (other : Vector) (w : World) : Outcome Vector unit :=
  match RawMemory_new (size_ other) w with
  | Thrown x u w1 => Thrown x u w1
  | Abort f => Abort f
  | Done data w1 =>
      match uninitialized_copy_n (block other) 0 (size_ other)
              (buffer_ data) 0 w1 with
      | Done b w2 =>
          Done (mkVector (mkRawMemory b (capacity_ data)) (size_ other)) w2
      | Thrown x b w2 => Thrown x () (Deallocate b w2)
      | Abort f => Abort f
      end
  end.

(** [Vector::Swap]: returns [*this] and [other]. *)
Definition Swap (this other : Vector) : Vector * Vector :=
  let '(d1, d2) := RawMemory_Swap (data_ this) (data_ other) in
  (mkVector d1 (size_ other), mkVector d2 (size_ this)).

(** [Vector(Vector&& other) noexcept]: the members are default initialised,
    then [Swap(other)].  Returns the new object and [other]. *)
Definition Vector_move (other : Vector) : Vector * Vector :=
  Swap Vector_default other.

(** [~Vector()]: [DestroyN(data_.GetAddress(), size_)], then the member
    [data_] is destroyed. *)
Definition Vector_dtor (v : Vector) (w : World) : Outcome unit unit :=
  noexcept
    match DestroyN (block v) 0 (size_ v) w with
    | Some (b, w') => Done () (Deallocate b w')
    | None => Abort undefined_behaviour
    end.

(** [Vector& operator=(const Vector& rhs)] for [this != &rhs]. *)
Definition copy_assign (this rhs : Vector) (w : World)
  : Outcome Vector Vector :=
  if Capacity this <? size_ rhs then
    (* Vector rhs_copy(rhs); Swap(rhs_copy); and rhs_copy goes out of scope *)
    match Vector_copy rhs w with
    | Thrown x _ w1 => Thrown x this w1
    | Abort f => Abort f
    | Done rhs_copy w1 =>
        let '(this', rhs_copy') := Swap this rhs_copy in
        match Vector_dtor rhs_copy' w1 with
        | Done _ w2 => Done this' w2
        | Thrown x _ w2 => Thrown x this' w2
        | Abort f => Abort f
        end
    end
  else if size_ rhs <? size_ this then
    match DestroyN (block this) 0 (wsub (size_ this) (size_ rhs)) w with
    | None => Abort undefined_behaviour
    | Some (b, w1) =>
        let size := size_ rhs in
        match std_copy (block rhs) 0 size b 0 w1 with
        | Done b' w2 =>
            Done (mkVector (mkRawMemory b' (capacity_ (data_ this))) size) w2
        | Thrown x b' w2 =>
            Thrown x (mkVector (mkRawMemory b' (capacity_ (data_ this))) size) w2
        | Abort f => Abort f
        end
    end
  else if size_ this <? size_ rhs then
    match std_copy (block rhs) 0 (size_ this) (block this) 0 w with
    | Thrown x b w1 => Thrown x (with_block b this) w1
    | Abort f => Abort f
    | Done b w1 =>
        match uninitialized_copy_n (block rhs) (size_ this)
                (wsub (size_ rhs) (size_ this)) b (size_ this) w1 with
        | Done b' w2 =>
            Done (mkVector (mkRawMemory b' (capacity_ (data_ this)))
                    (size_ rhs)) w2
        | Thrown x b' w2 => Thrown x (with_block b' this) w2
        | Abort f => Abort f
        end
    end
  else
    match std_copy (block rhs) 0 (size_ this) (block this) 0 w with
    | Done b w1 =>
        Done (mkVector (mkRawMemory b (capacity_ (data_ this))) (size_ rhs)) w1
    | Thrown x b w1 => Thrown x (with_block b this) w1
    | Abort f => Abort f
    end.

(** [Vector& operator=(Vector&& rhs) noexcept]: [Swap(rhs)].  Returns
    [*this] and [rhs]. *)
Definition move_assign (this rhs : Vector) : Vector * Vector :=
  Swap this rhs.

(** [Vector::Reserve]. *)
Definition Reserve (new_capacity : N) (v : Vector) (w : World)
  : Outcome Vector Vector :=
  if new_capacity <=? Capacity v then Done v w
  else
    match RawMemory_new new_capacity w with
    | Thrown x _ w1 => Thrown x v w1
    | Abort f => Abort f
    | Done new_data w1 =>
        match relocate_n (block v) 0 (size_ v) (buffer_ new_data) 0 w1 with
        | Thrown x (old, nb) w2 =>
            Thrown x (with_block old v) (Deallocate nb w2)
        | Abort f => Abort f
        | Done (old, nb) w2 =>
            match DestroyN old 0 (size_ v) w2 with
            | None => Abort undefined_behaviour
            | Some (old', w3) =>
                (* data_.Swap(new_data); new_data goes out of scope *)
                Done (mkVector (mkRawMemory nb (capacity_ new_data)) (size_ v))
                     (Deallocate old' w3)
            end
        end
    end.

(** [Vector::PopBack]. *)
Definition PopBack (v : Vector) (w : World) : Outcome Vector Vector :=
  noexcept
    (if 0 <? size_ v then
       match Destroy (block v) (wsub (size_ v) 1) w with
       | Some (b, w') =>
           Done (mkVector (mkRawMemory b (capacity_ (data_ v)))
                   (wsub (size_ v) 1)) w'
       | None => Abort undefined_behaviour
       end
     else Done v w).

(** [for (size_t i = 0; i < count_to_delete; i++) PopBack();] *)
Fixpoint PopBack_times (n : nat) (v : Vector) (w : World)
  : Outcome Vector Vector :=
  match n with
  | O => Done v w
  | S n' =>
      match PopBack v w with
      | Done v' w' => PopBack_times n' v' w'
      | other => other
      end
  end.

(** [Vector::Resize]. *)
Definition Resize (new_size : N) (v : Vector) (w : World)
  : Outcome Vector Vector :=
  if new_size =? size_ v then Done v w
  else if new_size <? size_ v then
    let count_to_delete := wsub (size_ v) new_size in
    PopBack_times (N.to_nat count_to_delete) v w
  else
    let pos_to_end := size_ v in
    match Reserve new_size v w with
    | Done v1 w1 =>
        match uninitialized_value_construct_n (block v1) pos_to_end
                (wsub new_size pos_to_end) w1 with
        | Done b w2 =>
            Done (mkVector (mkRawMemory b (capacity_ (data_ v1))) new_size) w2
        | Thrown x b w2 => Thrown x (with_block b v1) w2
        | Abort f => Abort f
        end
    | other => other
    end.

(** The capacity a reallocating push or insert asks for:
    [size_ == 0 ? 1 : size_ * 2]. *)
Definition grown_size (v : Vector) : N :=
  if size_ v =? 0 then 1 else wrap (size_ v * 2).

(** The body shared, word for word up to the constructor expression, by
    [PushBack(const T&)], [PushBack(T&&)] and [EmplaceBack]. *)
Definition push_back_body (init : Init) (v : Vector) (w : World)
  : Outcome Vector Vector :=
  if size_ v <? Capacity v then
    match construct_at (block v) (size_ v) init w with
    | Done b w1 =>
        Done (mkVector (mkRawMemory b (capacity_ (data_ v)))
                (wrap (size_ v + 1))) w1
    | Thrown x b w1 => Thrown x (with_block b v) w1
    | Abort f => Abort f
    end
  else
    let new_size := grown_size v in
    match RawMemory_new new_size w with
    | Thrown x _ w1 => Thrown x v w1
    | Abort f => Abort f
    | Done new_data w1 =>
        match construct_at (buffer_ new_data) (size_ v) init w1 with
        | Thrown x nb w2 => Thrown x v (Deallocate nb w2)
        | Abort f => Abort f
        | Done nb w2 =>
            match relocate_n (block v) 0 (size_ v) nb 0 w2 with
            | Thrown x (old, nb') w3 =>
                Thrown x (with_block old v) (Deallocate nb' w3)
            | Abort f => Abort f
            | Done (old, nb') w3 =>
                match DestroyN old 0 (size_ v) w3 with
                | None => Abort undefined_behaviour
                | Some (old', w4) =>
                    Done (mkVector (mkRawMemory nb' (capacity_ new_data))
                            (wrap (size_ v + 1)))
                         (Deallocate old' w4)
                end
            end
        end
    end.

(** [void PushBack(const T& value)]. *)
Definition PushBack (value : T) : Vector → World → Outcome Vector Vector :=
  push_back_body (ICopy value).

(** [void PushBack(T&& value)]. *)
Definition PushBack_rvalue (value : T)
  : Vector → World → Outcome Vector Vector :=
  push_back_body (IMove value).

(** [T& EmplaceBack(Args&&... args)]: returns the vector and the offset of
    the element the returned reference designates. *)
Definition EmplaceBack (init : Init) (v : Vector) (w : World)
  : Outcome (Vector * N) Vector :=
  match push_back_body init v w with
  | Done v' w' => Done (v', wsub (size_ v') 1) w'
  | Thrown x v' w' => Thrown x v' w'
  | Abort f => Abort f
  end.

(** [iterator Emplace(const_iterator pos, Args&&... args)], with [pos]
    given as [num_pos = pos - begin()]. *)
Definition Emplace (num_pos : N) (init : Init) (v : Vector) (w : World)
  : Outcome (Vector * N) Vector :=
  if size_ v <? Capacity v then
    if num_pos =? end_ v then
      match construct_at (block v) (end_ v) init w with
      | Done b w1 =>
          Done (mkVector (mkRawMemory b (capacity_ (data_ v)))
                  (wrap (size_ v + 1)), begin_ v + num_pos) w1
      | Thrown x b w1 => Thrown x (with_block b v) w1
      | Abort f => Abort f
      end
    else
      match call_ctor init w with
      | Thrown x _ w1 => Thrown x v w1
      | Abort f => Abort f
      | Done value w1 =>
          (* end() - 1 of an empty vector is no address of the block *)
          if end_ v =? 0 then Abort undefined_behaviour
          else
            match move_construct_within (block v) (end_ v - 1) (end_ v) w1 with
            | Thrown x b w2 => Thrown x (with_block b v) (call_dtor value w2)
            | Abort f => Abort f
            | Done b w2 =>
                match std_move_backward b (begin_ v + num_pos) (end_ v - 1)
                        (end_ v) w2 with
                | Thrown x b' w3 =>
                    Thrown x (with_block b' v) (call_dtor value w3)
                | Abort f => Abort f
                | Done b' w3 =>
                    match move_assign_from b' (begin_ v + num_pos) value w3 with
                    | Thrown x (b'', r) w4 =>
                        Thrown x (with_block b'' v) (call_dtor r w4)
                    | Abort f => Abort f
                    | Done (b'', r) w4 =>
                        Done (mkVector (mkRawMemory b'' (capacity_ (data_ v)))
                                (wrap (size_ v + 1)), begin_ v + num_pos)
                             (call_dtor r w4)
                    end
                end
            end
      end
  else
    let new_size := grown_size v in
    match RawMemory_new new_size w with
    | Thrown x _ w1 => Thrown x v w1
    | Abort f => Abort f
    | Done new_data w1 =>
        match construct_at (buffer_ new_data) num_pos init w1 with
        | Thrown x nb w2 => Thrown x v (Deallocate nb w2)
        | Abort f => Abort f
        | Done nb w2 =>
            match relocate_n (block v) 0 num_pos nb 0 w2 with
            | Thrown x (old, nb1) w3 =>
                (* catch (...) { Destroy(new_data.GetAddress() + num_pos); throw; } *)
                match Destroy nb1 num_pos w3 with
                | None => Abort undefined_behaviour
                | Some (nb2, w4) =>
                    Thrown x (with_block old v) (Deallocate nb2 w4)
                end
            | Abort f => Abort f
            | Done (old, nb1) w3 =>
                match relocate_n old (begin_ v + num_pos)
                        (wsub (size_ v) num_pos) nb1 (wrap (num_pos + 1)) w3 with
                | Thrown x (old', nb2) w4 =>
                    (* catch (...) { DestroyN(new_data.GetAddress() + num_pos,
                                              size_ - num_pos + 1); throw; } *)
                    match DestroyN nb2 num_pos
                            (wrap (wsub (size_ v) num_pos + 1)) w4 with
                    | None => Abort undefined_behaviour
                    | Some (nb3, w5) =>
                        Thrown x (with_block old' v) (Deallocate nb3 w5)
                    end
                | Abort f => Abort f
                | Done (old', nb2) w4 =>
                    match DestroyN old' 0 (size_ v) w4 with
                    | None => Abort undefined_behaviour
                    | Some (old'', w5) =>
                        Done (mkVector (mkRawMemory nb2 (capacity_ new_data))
                                (wrap (size_ v + 1)), begin_ v + num_pos)
                             (Deallocate old'' w5)
                    end
                end
            end
        end
    end.

(** [iterator Insert(const_iterator pos, const T& value)]. *)
Definition Insert (num_pos : N) (value : T)
  : Vector → World → Outcome (Vector * N) Vector :=
  Emplace num_pos (ICopy value).

(** [iterator Insert(const_iterator pos, T&& value)]. *)
Definition Insert_rvalue (num_pos : N) (value : T)
  : Vector → World → Outcome (Vector * N) Vector :=
  Emplace num_pos (IMove value).

(** [iterator Erase(const_iterator pos)], with [pos] given as
    [num_pos = pos - begin()].  It is not declared [noexcept]. *)
Definition Erase (num_pos : N) (v : Vector) (w : World)
  : Outcome (Vector * N) Vector :=
  if 0 <? size_ v then
    match std_move (block v) (begin_ v + num_pos + 1) (end_ v)
            (begin_ v + num_pos) w with
    | Thrown x b w1 => Thrown x (with_block b v) w1
    | Abort f => Abort f
    | Done b w1 =>
        let size := wsub (size_ v) 1 in
        match Destroy b (begin_ v + size) w1 with
        | None => Abort undefined_behaviour
        | Some (b', w2) =>
            let v' := mkVector (mkRawMemory b' (capacity_ (data_ v))) size in
            Done (v', if wrap (size_ v' + 1) =? 1 then end_ v'
                      else begin_ v' + num_pos) w2
        end
    end
  else
    Done (v, if wrap (size_ v + 1) =? 1 then end_ v else begin_ v + num_pos) w.

(** [operator[]]: the element a valid index designates. *)
Definition at_index (index : N) (v : Vector) : option T :=
  if index <? size_ v then
    match slot_at (block v) index with
    | Some (Some x) => Some x
    | _ => None
    end
  else None.

(** [Vector::operator[]] as the source composes it:
    [assert(index < size_); return data_[index];], with the assertion of
    [RawMemory::operator[]] behind it.  [None] when an assertion fails or
    the slot holds no object. *)
Definition Vector_at (index : N) (v : Vector) : option T :=
  if index <? size_ v then
    match RawMemory_at (data_ v) index with
    | Some (Some x) => Some x
    | _ => None
    end
  else None.

(** The constructed elements, slots [[0, size_)] of the block, in order:
    what iterating from [begin()] to [end()] visits.  [None] when one of
    these slots holds no object. *)
Definition elements (v : Vector) : option (list T) :=
  let slots := take (N.to_nat (size_ v)) (block v) in
  if decide (length slots = N.to_nat (size_ v))
  then mapM id slots else None.

End Embedding.

Arguments Done {T _ A B} a w.
Arguments Thrown {T _ A B} x b w.
Arguments Abort {T _ A B} f.
Arguments World T {_}.
Arguments Outcome T {_} A B.
Arguments Init T {_}.
Abbreviation Slot T := (option T) (only parsing).
Abbreviation Block T := (list (option T)) (only parsing).
Arguments RawMemory T : clear implicits.
Arguments Vector T : clear implicits.

(** ** Element types used in examples *)

(** An element type like [int]: nothing throws, a move is a copy. *)
#[export] Instance nat_element : Element nat := {|
  Args := nat;
  Env := unit;
  sizeof_T := 4;
  is_nothrow_move_constructible := true;
  is_copy_constructible := true;
  ctor_args a e := (Some a, e);
  ctor_copy v e := (Some v, e);
  ctor_move v e := (Some v, v, e);
  ctor_default e := (Some 0%nat, e);
  assign_copy d s e := (true, s, e);
  assign_move d s e := (true, s, s, e);
  dtor v e := e
|}.

(** An instrumented element type: the ambient state counts how many more
    constructions and assignments succeed; the next one throws.  It is
    copyable and its move constructor is not declared non-throwing. *)
Record Counted := mkCounted { tag : nat }.

Definition spend {A} (budget : nat) (x : A) : option A * nat :=
  match budget with
  | O => (None, O)
  | S k => (Some x, k)
  end.

#[export] Instance counted_element : Element Counted := {|
  Args := nat;
  Env := nat;
  sizeof_T := 4;
  is_nothrow_move_constructible := false;
  is_copy_constructible := true;
  ctor_args a e := spend e (mkCounted a);
  ctor_copy v e := spend e v;
  ctor_move v e := let '(r, e') := spend e v in (r, v, e');
  ctor_default e := spend e (mkCounted 0);
  assign_copy d s e :=
    match e with O => (false, d, O) | S k => (true, s, k) end;
  assign_move d s e :=
    match e with O => (false, d, s, O) | S k => (true, s, s, k) end;
  dtor v e := e
|}.

(** A move-only element type like a unique handle: no copy constructor, and
    a move constructor that may throw and empties its source. *)
Record Handle := mkHandle { held : option nat }.

#[export] Instance handle_element : Element Handle := {|
  Args := nat;
  Env := nat;
  sizeof_T := 8;
  is_nothrow_move_constructible := false;
  is_copy_constructible := false;
  ctor_args a e := spend e (mkHandle (Some a));
  ctor_copy v e := (None, e);
  ctor_move v e :=
    match e with
    | O => (None, v, O)
    | S k => (Some v, mkHandle None, k)
    end;
  ctor_default e := spend e (mkHandle None);
  assign_copy d s e := (false, d, e);
  assign_move d s e :=
    match e with
    | O => (false, d, s, O)
    | S k => (true, s, mkHandle None, k)
    end;
  dtor v e := e
|}.

(** ** Objects and calls *)

Section Objects.
Context {T : Type} `{!Element T}.

(** The [Vector<T>] objects alive, by address.  Two references alias when
    their addresses are equal. *)
Local Abbreviation Store := (gmap nat (Vector T)).

(** A call of a public member function, on the object at address [a] (or
    [this]); an iterator argument is given as its offset from [begin()]. *)
Inductive Call :=
  | CDefault (a : nat)
  | CSized (a : nat) (size : N)
  | CCopy (a other : nat)
  | CMove (a other : nat)
  | CCopyAssign (this rhs : nat)
  | CMoveAssign (this rhs : nat)
  | CDtor (a : nat)
  | CBegin (a : nat)
  | CEnd (a : nat)
  | CSize (a : nat)
  | CCapacity (a : nat)
  | CIndex (a : nat) (index : N)
  | CReserve (a : nat) (new_capacity : N)
  | CResize (a : nat) (new_size : N)
  | CPushBack (a : nat) (value : T)
  | CPushBackRvalue (a : nat) (value : T)
  | CEmplaceBack (a : nat) (init : Init T)
  | CInsert (a : nat) (num_pos : N) (value : T)
  | CInsertRvalue (a : nat) (num_pos : N) (value : T)
  | CEmplace (a : nat) (num_pos : N) (init : Init T)
  | CErase (a : nat) (num_pos : N)
  | CPopBack (a : nat)
  | CSwap (a other : nat).

(** The [size_t] arguments of a call are in the range of [size_t]. *)
Definition well_typed (c : Call) : Prop :=
  match c with
  | CSized _ n | CIndex _ n | CReserve _ n | CResize _ n
  | CInsert _ n _ | CInsertRvalue _ n _ | CEmplace _ n _ | CErase _ n =>
      n < size_t_modulus
  | _ => True
  end.


(** A constructor call: the new object is placed at the unused address
    [a]. *)
Definition construct_object {B} (a : nat) (st : Store)
  (o : Outcome T (Vector T) B) : Outcome T Store Store :=
  match st !! a with
  | Some _ => Abort undefined_behaviour
  | None =>
      match o with
      | Done v w => Done (<[a:=v]> st) w
      | Thrown x _ w => Thrown x st w
      | Abort f => Abort f
      end
  end.

(** A member function call that changes the object at [a]. *)
Definition update_object {A} (a : nat) (st : Store)
  (f : Vector T → Outcome T A (Vector T)) (get : A → Vector T)
  : Outcome T Store Store :=
  match st !! a with
  | None => Abort undefined_behaviour
  | Some v =>
      match f v with
      | Done r w => Done (<[a:=get r]> st) w
      | Thrown x v' w => Thrown x (<[a:=v']> st) w
      | Abort f => Abort f
      end
  end.

(** A [const] or otherwise state preserving member function call. *)
Definition observe_object (a : nat) (st : Store) (w : World T)
  : Outcome T Store Store :=
  match st !! a with
  | None => Abort undefined_behaviour
  | Some _ => Done st w
  end.

(** [a.Swap(other)] on the objects at two addresses: [other] is written
    last, so swapping an object with itself leaves it as it was. *)
Definition swap_objects (a other : nat) (st : Store) (w : World T)
  : Outcome T Store Store :=
  match st !! a, st !! other with
  | Some v, Some o =>
      let '(v', o') := Swap v o in
      Done (<[other:=o']> (<[a:=v']> st)) w
  | _, _ => Abort undefined_behaviour
  end.

Definition exec (c : Call) (st : Store) (w : World T)
  : Outcome T Store Store :=
  match c with
  | CDefault a =>
      construct_object a st (Done Vector_default w : Outcome T _ unit)
  | CSized a size => construct_object a st (Vector_sized size w)
  | CCopy a other =>
      match st !! other with
      | Some o => construct_object a st (Vector_copy o w)
      | None => Abort undefined_behaviour
      end
  | CMove a other =>
      match st !! a, st !! other with
      | None, Some o =>
          let '(v, o') := Vector_move o in
          Done (<[a:=v]> (<[other:=o']> st)) w
      | _, _ => Abort undefined_behaviour
      end
  | CCopyAssign this rhs =>
      (* if (this != &rhs) *)
      if decide (this = rhs) then observe_object this st w
      else
        match st !! rhs with
        | Some r => update_object this st (λ v, copy_assign v r w) id
        | None => Abort undefined_behaviour
        end
  | CMoveAssign this rhs => swap_objects this rhs st w
  | CDtor a =>
      match st !! a with
      | Some v =>
          match Vector_dtor v w with
          | Done _ w' => Done (delete a st) w'
          | Thrown x _ w' => Thrown x (delete a st) w'
          | Abort f => Abort f
          end
      | None => Abort undefined_behaviour
      end
  | CBegin a | CEnd a | CSize a | CCapacity a => observe_object a st w
  | CIndex a index =>
      match st !! a with
      | Some v =>
          if is_Some_dec (at_index index v) then Done st w
          else Abort undefined_behaviour
      | None => Abort undefined_behaviour
      end
  | CReserve a n => update_object a st (λ v, Reserve n v w) id
  | CResize a n => update_object a st (λ v, Resize n v w) id
  | CPushBack a value => update_object a st (λ v, PushBack value v w) id
  | CPushBackRvalue a value =>
      update_object a st (λ v, PushBack_rvalue value v w) id
  | CEmplaceBack a init => update_object a st (λ v, EmplaceBack init v w) fst
  | CInsert a pos value => update_object a st (λ v, Insert pos value v w) fst
  | CInsertRvalue a pos value =>
      update_object a st (λ v, Insert_rvalue pos value v w) fst
  | CEmplace a pos init => update_object a st (λ v, Emplace pos init v w) fst
  | CErase a pos => update_object a st (λ v, Erase pos v w) fst
  | CPopBack a => update_object a st (λ v, PopBack v w) id
  | CSwap a other => swap_objects a other st w
  end.

(** The states a program can reach from no objects by calls of public
    member functions that return or throw. *)
Inductive reachable : Store → World T → Prop :=
  | reachable_start w : reachable ∅ w
  | reachable_return c st w st' w' :
      reachable st w → well_typed c → exec c st w = Done st' w' →
      reachable st' w'
  | reachable_throw c st w x st' w' :
      reachable st w → well_typed c → exec c st w = Thrown x st' w' →
      reachable st' w'.


End Objects.

(** ** Vocabulary of the statements *)

Section Vocabulary.
Context {T : Type} `{!Element T}.

Implicit Types (b src dst : Block T) (w : World T) (v : Vector T).
Implicit Types (l vs xs : list T) (evs : list (Event T)).

(** [delta w w' evs lk]: from [w] to [w'] the calls [evs] were made on
    elements and the objects [lk] were lost. *)
Definition delta w w' evs (lk : list T) : Prop :=
  trace w' = trace w ++ evs ∧ leaked w' = leaked w ++ lk
  ∧ alloc_limit w' = alloc_limit w.

(** [x] is a value a completed copy construction from [v] can yield. *)
Definition copied (v x : T) : Prop :=
  ∃ e e', ctor_copy v e = (Some x, e').

(** [x] is a value a completed move construction from [v] can yield. *)
Definition moved (v x : T) : Prop :=
  ∃ e r e', ctor_move v e = (Some x, r, e').

(** [d'] is a value a completed move assignment from [s] can yield. *)
Definition move_assigned (s d' : T) : Prop :=
  ∃ d e r e', assign_move d s e = (true, d', r, e').

(** Some move assignment of the element type throws. *)
Definition move_assign_can_throw : Prop :=
  ∃ (d s : T) e, (assign_move d s e).1.1.1 = false.

(** [x] is a value the construction [init] can yield. *)
Definition initialises (init : Init T) (x : T) : Prop :=
  match init with
  | ICopy v => copied v x
  | IMove v => moved v x
  | IArgs a => ∃ e e', ctor_args a e = (Some x, e')
  end.

(** [dst] with the slots from [d] on holding the objects [xs]. *)
Definition fill dst (d : nat) xs : Block T :=
  take d dst ++ (Some <$> xs) ++ drop (d + length xs) dst.

(** [dst] with the [k] slots from [d] on raw. *)
Definition clear dst (d k : nat) : Block T :=
  take d dst ++ replicate k None ++ drop (d + k) dst.

(** The constructor the header relocates existing elements with. *)
Definition relocation_kind : CtorKind :=
  if is_nothrow_move_constructible || negb is_copy_constructible
  then ByMove else ByCopy.

(** [x] is a value a completed relocation of [u] can yield. *)
Definition relocated (u x : T) : Prop :=
  if is_nothrow_move_constructible || negb is_copy_constructible
  then moved u x else copied u x.

(** The kinds of the constructor calls in a trace. *)
Definition constructions evs : list CtorKind :=
  omap (λ ev, match ev with EvConstruct k _ => Some k | _ => None end) evs.

(** The objects destroyed in a trace. *)
Definition destructions evs : list T :=
  omap (λ ev, match ev with EvDestroy x => Some x | _ => None end) evs.

(** A well formed vector: the block has [capacity_] slots, the fields are
    in the range of [size_t], [size_ <= capacity_] and the slots
    [[0, size_)] hold objects. *)
Definition wf v : Prop :=
  length (block v) = N.to_nat (Capacity v)
  ∧ Capacity v < size_t_modulus
  ∧ size_ v ≤ Capacity v
  ∧ is_Some (elements v).

(** The fields of a vector are in the range of [size_t] and
    [size_ <= capacity_]. *)
Definition bounded v : Prop :=
  size_ v ≤ Capacity v ∧ Capacity v < size_t_modulus.

(** [P] holds of the vector a call leaves behind, whether it returns or
    throws. *)
Definition ensures {A} (get : A → Vector T) (P : Vector T → Prop)
  (o : Outcome T A (Vector T)) : Prop :=
  match o with
  | Done a _ => P (get a)
  | Thrown _ v' _ => P v'
  | Abort _ => True
  end.

(** Every object alive satisfies [bounded]. *)
Definition store_bounded (st : gmap nat (Vector T)) : Prop :=
  map_Forall (λ _ v, bounded v) st.

(** [P] holds of the objects a call leaves behind, whether it returns or
    throws. *)
Definition store_ensures (P : gmap nat (Vector T) → Prop)
  (o : Outcome T (gmap nat (Vector T)) (gmap nat (Vector T))) : Prop :=
  match o with
  | Done st _ | Thrown _ st _ => P st
  | Abort _ => True
  end.

(** [d'] is a value a completed copy assignment from [s] can yield. *)
Definition copy_assigned (s d' : T) : Prop :=
  ∃ d e e', assign_copy d s e = (true, d', e').

(** Some copy construction of the element type throws. *)
Definition copy_ctor_can_throw : Prop :=
  ∃ (u : T) e, (ctor_copy u e).1 = None.

(** Some copy assignment of the element type throws. *)
Definition copy_assign_can_throw : Prop :=
  ∃ (d s : T) e, (assign_copy d s e).1.1 = false.


(** [b'] has the slots of [b], and an object wherever [b] has one. *)
Definition covers b b' : Prop :=
  length b' = length b
  ∧ ∀ i x, b !! i = Some (Some x) → ∃ y, b' !! i = Some (Some y).






(** [pushed v w xs v' w']: the calls [PushBack(x)] for the values [x] of
    [xs], in order, all return, and take the vector [v] in the world [w] to
    [v'] in [w']. *)
Inductive pushed : Vector T → World T → list T → Vector T → World T → Prop :=
  | pushed_nil v w : pushed v w [] v w
  | pushed_cons v w x v1 w1 xs v2 w2 :
      PushBack x v w = Done v1 w1 → pushed v1 w1 xs v2 w2 →
      pushed v w (x :: xs) v2 w2.

(** The smallest power of two that is at least [k], and 0 for [k = 0]: the
    capacity [k] pushes onto an empty vector lead to. *)
Definition doubled_capacity (k : N) : N :=
  if k =? 0 then 0 else 2 ^ N.log2_up k.

End Vocabulary.

#[export] Instance nat_value_semantics : ValueSemantics nat.
Proof. split; simpl; intros; by simplify_eq. Qed.

#[export] Instance counted_value_semantics : ValueSemantics Counted.
Proof.
  split; simpl; unfold spend; intros; repeat case_match; by simplify_eq.
Qed.

#[export] Instance handle_value_semantics : ValueSemantics Handle.
Proof.
  split; simpl; unfold spend; intros; repeat case_match; by simplify_eq.
Qed.

#[export] Instance nat_nothrow : NoThrow nat.
Proof. split; simpl; intros; by eauto. Qed.

(** ** Worlds and vectors used in examples *)

(** A world for the examples over [nat] elements: no call made yet, and an
    allocator that grants up to 64 bytes in one block. *)
Definition nat_world : World nat := @mkWorld nat nat_element () [] [] 64.

(** A world for the examples over [Counted] and [Handle] elements, in which
    the next [budget] constructions and assignments succeed. *)
Definition counted_world (budget : nat) : World Counted :=
  @mkWorld Counted counted_element budget [] [] 64.

Definition handle_world (budget : nat) : World Handle :=
  @mkWorld Handle handle_element budget [] [] 64.

(** The vector with the elements [l] and no spare capacity. *)
Definition full_vector {T} (l : list T) : Vector T :=
  mkVector (mkRawMemory (Some <$> l) (N.of_nat (length l)))
    (N.of_nat (length l)).

(** The vector with the elements [1; 2; 3] in a block of four slots, as
    three pushes onto an empty vector leave it. *)
Definition vector_123 : Vector nat :=
  mkVector (mkRawMemory [Some 1%nat; Some 2%nat; Some 3%nat; None] 4) 3.

(** * Proofs *)

(** ** Arithmetic on [size_t] *)

Lemma wrap_small n : n < size_t_modulus → wrap n = n.
Proof. intros. unfold wrap. by apply N.mod_small. Qed.

Lemma wrap_lt n : wrap n < size_t_modulus.
Proof. unfold wrap. by apply N.mod_lt. Qed.

Lemma wrap_le n : wrap n ≤ n.
Proof. unfold wrap. by apply N.Div0.mod_le. Qed.

Lemma wrap_add_modulus n : wrap (n + size_t_modulus) = wrap n.
Proof.
  unfold wrap. rewrite <-(N.mul_1_l size_t_modulus) at 1.
  by rewrite N.Div0.mod_add.
Qed.

Lemma wsub_le a b : b ≤ a → a < size_t_modulus → wsub a b = a - b.
Proof.
  intros Hb Ha. unfold wsub.
  rewrite (wrap_small b) by lia.
  replace (a + size_t_modulus - b) with (a - b + size_t_modulus) by lia.
  rewrite wrap_add_modulus. apply wrap_small. lia.
Qed.

Lemma wsub_gt a b :
  a < b → b < size_t_modulus → wsub a b = a + size_t_modulus - b.
Proof.
  intros Hb Ha. unfold wsub.
  rewrite (wrap_small b) by lia. apply wrap_small. lia.
Qed.

Lemma wsub_1_le a : 0 < a → wsub a 1 ≤ a - 1.
Proof.
  intros Ha. unfold wsub. rewrite (wrap_small 1) by done.
  replace (a + size_t_modulus - 1) with (a - 1 + size_t_modulus) by lia.
  rewrite wrap_add_modulus. apply wrap_le.
Qed.

Lemma wrap_double_gt n :
  n < size_t_modulus → n < wrap (n * 2) → wrap (n * 2) = n * 2.
Proof.
  intros Hn Hlt. destruct (decide (n * 2 < size_t_modulus)) as [|Hge].
  { by apply wrap_small. }
  exfalso. assert (wrap (n * 2) = n * 2 - size_t_modulus) as Hw; [|lia].
  unfold wrap. symmetry. apply (N.mod_unique _ _ 1); lia.
Qed.

Section Proofs.
Context {T : Type} `{!Element T}.

Implicit Types (b src dst : Block T) (w : World T) (v : Vector T).
Implicit Types (l vs xs : list T) (evs : list (Event T)).

(** ** How a call changes the world *)

Lemma delta_refl w : delta w w [] [].
Proof. unfold delta. by rewrite !app_nil_r. Qed.

Lemma delta_trans w1 w2 w3 evs1 evs2 lk1 lk2 :
  delta w1 w2 evs1 lk1 → delta w2 w3 evs2 lk2 →
  delta w1 w3 (evs1 ++ evs2) (lk1 ++ lk2).
Proof.
  intros (Ht1 & Hl1 & Ha1) (Ht2 & Hl2 & Ha2). unfold delta.
  rewrite Ht2, Ht1, Hl2, Hl1, Ha2, Ha1, !app_assoc. done.
Qed.

Lemma delta_cons w1 w2 w3 ev evs lk :
  delta w1 w2 [ev] [] → delta w2 w3 evs lk → delta w1 w3 (ev :: evs) lk.
Proof. intros H1 H2. apply (delta_trans _ _ _ [ev] evs [] lk H1 H2). Qed.

Lemma delta_set_env e w : delta w (set_env e w) [] [].
Proof. unfold delta. simpl. by rewrite !app_nil_r. Qed.

Lemma delta_log ev w w' evs lk :
  delta w w' evs lk → delta w (log ev w') (evs ++ [ev]) lk.
Proof.
  intros (Ht & Hl & Ha).
  split_and!; [simpl; by rewrite Ht, app_assoc|done|exact Ha].
Qed.

Lemma delta_leak l w w' evs lk :
  delta w w' evs lk → delta w (leak l w') evs (lk ++ l).
Proof.
  intros (Ht & Hl & Ha).
  split_and!; [done|simpl; by rewrite Hl, app_assoc|exact Ha].
Qed.

Lemma delta_dtor x w : delta w (call_dtor x w) [EvDestroy x] [].
Proof. unfold call_dtor. apply (delta_log _ _ _ []), delta_set_env. Qed.

Lemma delta_Deallocate b w : delta w (Deallocate b w) [] (live b).
Proof. apply (delta_leak _ _ _ _ []), delta_refl. Qed.

(** ** Calls of the special member functions *)

Lemma call_ctor_copy_Done u x w w' :
  call_ctor_copy u w = Done x w' →
  copied u x ∧ delta w w' [EvConstruct ByCopy x] [].
Proof.
  unfold call_ctor_copy. destruct (ctor_copy u (env w)) as [[y|] e] eqn:Hc;
    intros; simplify_eq.
  split; [by eexists _, _|]. apply (delta_log _ _ _ []), delta_set_env.
Qed.

Lemma call_ctor_copy_Thrown u ex s w w' :
  call_ctor_copy u w = Thrown ex s w' → delta w w' [] [].
Proof.
  unfold call_ctor_copy. destruct (ctor_copy u (env w)) as [[y|] e];
    intros; simplify_eq. apply delta_set_env.
Qed.

Lemma call_ctor_move_Done u x r w w' :
  call_ctor_move u w = Done (x, r) w' →
  moved u x ∧ delta w w' [EvConstruct ByMove x] [].
Proof.
  unfold call_ctor_move.
  destruct (ctor_move u (env w)) as [[[y|] r'] e] eqn:Hc;
    [|destruct is_nothrow_move_constructible]; intros; simplify_eq.
  split; [by eexists _, _, _|]. apply (delta_log _ _ _ []), delta_set_env.
Qed.

Lemma call_ctor_move_Thrown u ex r w w' :
  call_ctor_move u w = Thrown ex r w' →
  is_nothrow_move_constructible = false ∧ delta w w' [] [].
Proof.
  unfold call_ctor_move.
  destruct (ctor_move u (env w)) as [[[y|] r'] e] eqn:Hc;
    [|destruct is_nothrow_move_constructible]; intros; simplify_eq.
  split; [done|]. apply delta_set_env.
Qed.

Lemma call_ctor_default_Done x w w' :
  call_ctor_default w = Done x w' → delta w w' [EvConstruct ByDefault x] [].
Proof.
  unfold call_ctor_default. destruct (ctor_default (env w)) as [[y|] e];
    intros; simplify_eq. apply (delta_log _ _ _ []), delta_set_env.
Qed.

Lemma call_ctor_default_Thrown ex s w w' :
  call_ctor_default w = Thrown ex s w' → delta w w' [] [].
Proof.
  unfold call_ctor_default. destruct (ctor_default (env w)) as [[y|] e];
    intros; simplify_eq. apply delta_set_env.
Qed.

Lemma call_ctor_Done init x w w' :
  call_ctor init w = Done x w' →
  initialises init x ∧ delta w w' [EvConstruct (init_kind init) x] [].
Proof.
  destruct init as [u|u|a]; simpl.
  - apply call_ctor_copy_Done.
  - destruct (call_ctor_move u w) as [[y r] w1|?|] eqn:Hm; intros; simplify_eq.
    by apply call_ctor_move_Done in Hm.
  - unfold call_ctor_args. destruct (ctor_args a (env w)) as [[y|] e] eqn:Hc;
      intros; simplify_eq.
    split; [by eexists _, _|]. apply (delta_log _ _ _ []), delta_set_env.
Qed.

Lemma call_ctor_Thrown init ex s w w' :
  call_ctor init w = Thrown ex s w' → delta w w' [] [].
Proof.
  destruct init as [u|u|a]; simpl.
  - apply call_ctor_copy_Thrown.
  - destruct (call_ctor_move u w) as [[y r] w1|?|] eqn:Hm; intros; simplify_eq.
    by apply call_ctor_move_Thrown in Hm as [_ ?].
  - unfold call_ctor_args. destruct (ctor_args a (env w)) as [[y|] e];
      intros; simplify_eq. apply delta_set_env.
Qed.

(** ** Blocks *)

Lemma fill_nil dst d : fill dst d [] = dst.
Proof. unfold fill. simpl. by rewrite Nat.add_0_r, take_drop. Qed.

Lemma fill_cons dst d x xs :
  (d < length dst)%nat →
  fill (<[d:=Some x]> dst) (S d) xs = fill dst d (x :: xs).
Proof.
  intros Hd. unfold fill.
  assert (<[d:=Some x]> dst !! d = Some (Some x)) as Hl
    by by apply list_lookup_insert_eq.
  rewrite (take_S_r _ _ _ Hl), take_insert_ge by lia.
  rewrite drop_insert_lt by lia. simpl.
  rewrite <-app_assoc. simpl. by rewrite Nat.add_succ_r.
Qed.

Lemma fill_snoc dst d x xs :
  (d + length xs < length dst)%nat →
  <[(d + length xs)%nat:=Some x]> (fill dst d xs) = fill dst d (xs ++ [x]).
Proof.
  intros Hd. unfold fill.
  rewrite insert_app_r_alt by (rewrite length_take; lia).
  rewrite length_take_le by lia.
  rewrite insert_app_r_alt by (rewrite length_fmap; lia).
  rewrite length_fmap.
  replace (d + length xs - d - length xs)%nat with 0%nat by lia.
  destruct (drop (d + length xs) dst) as [|s rest] eqn:Hdrop.
  { apply (f_equal length) in Hdrop. rewrite length_drop in Hdrop.
    simpl in Hdrop. lia. }
  simpl. rewrite fmap_app, <-app_assoc, length_app. simpl.
  do 3 f_equal.
  replace (d + (length xs + 1))%nat with (d + length xs + 1)%nat by lia.
  by rewrite <-drop_drop, Hdrop.
Qed.

Lemma length_fill dst d xs :
  (d + length xs ≤ length dst)%nat → length (fill dst d xs) = length dst.
Proof.
  intros. unfold fill.
  rewrite !length_app, length_take, length_fmap, length_drop. lia.
Qed.

Lemma clear_0 dst d : clear dst d 0 = dst.
Proof. unfold clear. simpl. by rewrite Nat.add_0_r, take_drop. Qed.

Lemma clear_S dst d k :
  (d < length dst)%nat →
  clear (<[d:=None]> dst) (S d) k = clear dst d (S k).
Proof.
  intros Hd. unfold clear.
  assert (<[d:=None]> dst !! d = Some None) as Hl
    by by apply list_lookup_insert_eq.
  rewrite (take_S_r _ _ _ Hl), take_insert_ge by lia.
  rewrite drop_insert_lt by lia. simpl.
  rewrite <-app_assoc. simpl. by rewrite Nat.add_succ_r.
Qed.

Lemma clear_fill dst d xs :
  (d ≤ length dst)%nat →
  clear (fill dst d xs) d (length xs) = clear dst d (length xs).
Proof.
  intros Hd. unfold clear, fill.
  rewrite take_app_length' by (rewrite length_take; lia).
  do 2 f_equal.
  rewrite drop_app_ge by (rewrite length_take; lia).
  rewrite length_take_le by lia.
  rewrite drop_app_ge by (rewrite length_fmap; lia).
  rewrite length_fmap, drop_drop. f_equal. lia.
Qed.

Lemma clear_raw dst d k :
  take k (drop d dst) = replicate k None → clear dst d k = dst.
Proof.
  intros Hraw. unfold clear. rewrite <-Hraw.
  rewrite <-(drop_drop dst k d), take_drop. apply take_drop.
Qed.

Lemma live_replicate_None k : live (replicate k (None : Slot T)) = [].
Proof. induction k; simpl; auto. Qed.

Lemma live_fmap_Some xs : live (Some <$> xs) = xs.
Proof. induction xs; simpl; f_equal; auto. Qed.

Lemma live_app b1 b2 : live (b1 ++ b2) = live b1 ++ live b2.
Proof. apply omap_app. Qed.

Lemma take_drop_cons {A} (l : list A) f n x rest :
  take (S n) (drop f l) = x :: rest →
  l !! f = Some x ∧ take n (drop (S f) l) = rest.
Proof.
  destruct (l !! f) as [y|] eqn:Hl.
  - rewrite (drop_S _ _ _ Hl). simpl. by intros [= -> ->].
  - apply lookup_ge_None in Hl. by rewrite drop_ge.
Qed.

Lemma take_drop_S {A} (l : list A) f n x :
  l !! f = Some x → take (S n) (drop f l) = x :: take n (drop (S f) l).
Proof. intros Hl. by rewrite (drop_S _ _ _ Hl). Qed.

Lemma take_drop_fill dst d xs :
  (d ≤ length dst)%nat →
  take (length xs) (drop d (fill dst d xs)) = Some <$> xs.
Proof.
  intros. unfold fill.
  rewrite drop_app_length' by (rewrite length_take; lia).
  by rewrite take_app_length' by by rewrite length_fmap.
Qed.

(** ** Steps on a slot *)

Lemma construct_at_Done b i init w b' w' :
  construct_at b i init w = Done b' w' →
  ∃ s x, b !! N.to_nat i = Some s ∧ b' = <[N.to_nat i:=Some x]> b
    ∧ initialises init x
    ∧ delta w w' [EvConstruct (init_kind init) x] (option_list s).
Proof.
  unfold construct_at, slot_at, store_at.
  destruct (b !! N.to_nat i) as [s|]; [|done].
  destruct (call_ctor init w) as [x w1|?|] eqn:Hc; intros; simplify_eq.
  apply call_ctor_Done in Hc as [Hi Hd]. exists s, x.
  split_and!; [done..|]. by apply (delta_leak _ _ _ _ []).
Qed.

Lemma construct_at_Thrown b i init w ex b' w' :
  construct_at b i init w = Thrown ex b' w' →
  b' = b ∧ (N.to_nat i < length b)%nat ∧ delta w w' [] [].
Proof.
  unfold construct_at, slot_at.
  destruct (b !! N.to_nat i) as [s|] eqn:Hs; [|done].
  destruct (call_ctor init w) as [x w1|?|] eqn:Hc; intros; simplify_eq.
  split_and!; [done|by eapply lookup_lt_Some|by eapply call_ctor_Thrown].
Qed.

Lemma value_construct_at_Done b i w b' w' :
  value_construct_at b i w = Done b' w' →
  ∃ s x, b !! N.to_nat i = Some s ∧ b' = <[N.to_nat i:=Some x]> b
    ∧ delta w w' [EvConstruct ByDefault x] (option_list s).
Proof.
  unfold value_construct_at, slot_at, store_at.
  destruct (b !! N.to_nat i) as [s|]; [|done].
  destruct (call_ctor_default w) as [x w1|?|] eqn:Hc; intros; simplify_eq.
  apply call_ctor_default_Done in Hc. exists s, x.
  split_and!; [done..|]. by apply (delta_leak _ _ _ _ []).
Qed.

Lemma value_construct_at_Thrown b i w ex b' w' :
  value_construct_at b i w = Thrown ex b' w' →
  b' = b ∧ (N.to_nat i < length b)%nat ∧ delta w w' [] [].
Proof.
  unfold value_construct_at, slot_at.
  destruct (b !! N.to_nat i) as [s|] eqn:Hs; [|done].
  destruct (call_ctor_default w) as [x w1|?|] eqn:Hc; intros; simplify_eq.
  split_and!; [done|by eapply lookup_lt_Some|by eapply call_ctor_default_Thrown].
Qed.

Lemma move_construct_at_Done src i dst j w src' dst' w' :
  move_construct_at src i dst j w = Done (src', dst') w' →
  ∃ u r s x, src !! N.to_nat i = Some (Some u) ∧ dst !! N.to_nat j = Some s
    ∧ src' = <[N.to_nat i:=Some r]> src ∧ dst' = <[N.to_nat j:=Some x]> dst
    ∧ moved u x ∧ delta w w' [EvConstruct ByMove x] (option_list s).
Proof.
  unfold move_construct_at, slot_at, store_at.
  destruct (src !! N.to_nat i) as [[u|]|]; [|done..].
  destruct (dst !! N.to_nat j) as [s|]; [|done].
  destruct (call_ctor_move u w) as [[x r] w1|?|] eqn:Hc; intros; simplify_eq.
  apply call_ctor_move_Done in Hc as [Hm Hd]. exists u, r, s, x.
  split_and!; [done..|]. by apply (delta_leak _ _ _ _ []).
Qed.

Lemma move_construct_at_Thrown src i dst j w ex src' dst' w' :
  move_construct_at src i dst j w = Thrown ex (src', dst') w' →
  is_nothrow_move_constructible = false ∧ dst' = dst
  ∧ (N.to_nat j < length dst)%nat ∧ length src' = length src
  ∧ delta w w' [] [].
Proof.
  unfold move_construct_at, slot_at, store_at.
  destruct (src !! N.to_nat i) as [[u|]|]; [|done..].
  destruct (dst !! N.to_nat j) as [s|] eqn:Hs; [|done].
  destruct (call_ctor_move u w) as [[x r] w1|?|] eqn:Hc; intros; simplify_eq.
  apply call_ctor_move_Thrown in Hc as [? ?].
  split_and!; [done..|by eapply lookup_lt_Some|by rewrite length_insert|done].
Qed.

Lemma Destroy_Some b i w b' w' :
  Destroy b i w = Some (b', w') →
  ∃ x, b !! N.to_nat i = Some (Some x) ∧ b' = <[N.to_nat i:=None]> b
    ∧ delta w w' [EvDestroy x] [].
Proof.
  unfold Destroy, slot_at, store_at.
  destruct (b !! N.to_nat i) as [[x|]|]; intros; simplify_eq.
  exists x. split_and!; [done..|]. apply delta_dtor.
Qed.

Lemma Destroy_live b i x w :
  b !! N.to_nat i = Some (Some x) →
  Destroy b i w = Some (<[N.to_nat i:=None]> b, call_dtor x w).
Proof. unfold Destroy, slot_at, store_at. by intros ->. Qed.

(** ** [DestroyN] *)

Lemma DestroyN_loop_live n : ∀ b first w vs,
  take n (drop (N.to_nat first) b) = Some <$> vs → length vs = n →
  ∃ w', DestroyN_loop b first n w = Some (clear b (N.to_nat first) n, w')
    ∧ delta w w' (EvDestroy <$> vs) [].
Proof.
  induction n as [|n IH]; intros b first w vs Htake Hlen.
  { destruct vs; [|done]. exists w. simpl. rewrite clear_0.
    split; [done|apply delta_refl]. }
  destruct vs as [|x vs]; [done|]. simpl in Htake, Hlen.
  apply take_drop_cons in Htake as [Hx Htake].
  simpl. rewrite (Destroy_live _ _ _ _ Hx).
  destruct (IH (<[N.to_nat first:=None]> b) (first + 1) (call_dtor x w) vs)
    as (w' & Hloop & Hd).
  { replace (N.to_nat (first + 1)) with (S (N.to_nat first)) by lia.
    by rewrite drop_insert_lt by lia. }
  { lia. }
  exists w'. rewrite Hloop. split.
  - replace (N.to_nat (first + 1)) with (S (N.to_nat first)) by lia.
    rewrite clear_S; [done|]. by eapply lookup_lt_Some.
  - simpl. eapply delta_cons; [apply delta_dtor|done].
Qed.

Lemma DestroyN_loop_Some n : ∀ b first w b' w',
  DestroyN_loop b first n w = Some (b', w') →
  ∃ vs, take n (drop (N.to_nat first) b) = Some <$> vs ∧ length vs = n
    ∧ b' = clear b (N.to_nat first) n ∧ delta w w' (EvDestroy <$> vs) [].
Proof.
  induction n as [|n IH]; intros b first w b' w' Hloop.
  { simpl in Hloop. simplify_eq. exists []. rewrite clear_0.
    split_and!; [done..|apply delta_refl]. }
  simpl in Hloop. destruct (Destroy b first w) as [[b1 w1]|] eqn:HD; [|done].
  apply Destroy_Some in HD as (x & Hx & -> & Hd1).
  apply IH in Hloop as (vs & Htake & Hlen & -> & Hd2).
  replace (N.to_nat (first + 1)) with (S (N.to_nat first)) in * by lia.
  rewrite drop_insert_lt in Htake by lia.
  exists (x :: vs). split_and!.
  - rewrite (take_drop_S _ _ _ _ Hx). simpl. by f_equal.
  - simpl. lia.
  - apply clear_S. by eapply lookup_lt_Some.
  - simpl. by eapply delta_cons.
Qed.

Lemma DestroyN_Some b first n w b' w' :
  DestroyN b first n w = Some (b', w') →
  ∃ vs, take (N.to_nat n) (drop (N.to_nat first) b) = Some <$> vs
    ∧ length vs = N.to_nat n
    ∧ b' = clear b (N.to_nat first) (N.to_nat n)
    ∧ delta w w' (EvDestroy <$> vs) [].
Proof. apply DestroyN_loop_Some. Qed.

Lemma DestroyN_live b first n w vs :
  take (N.to_nat n) (drop (N.to_nat first) b) = Some <$> vs →
  length vs = N.to_nat n →
  ∃ w', DestroyN b first n w
        = Some (clear b (N.to_nat first) (N.to_nat n), w')
    ∧ delta w w' (EvDestroy <$> vs) [].
Proof. apply DestroyN_loop_live. Qed.

(** ** The [uninitialized_*] algorithms *)

Lemma live_cons (s : Slot T) b : live (s :: b) = option_list s ++ live b.
Proof. by destruct s. Qed.

Lemma live_take_drop_S b d n s :
  b !! d = Some s →
  live (take (S n) (drop d b)) = option_list s ++ live (take n (drop (S d) b)).
Proof. intros Hs. by rewrite (take_drop_S _ _ _ _ Hs), live_cons. Qed.

Lemma to_nat_succ (i : N) : N.to_nat (i + 1) = S (N.to_nat i).
Proof. lia. Qed.

Lemma uninitialized_copy_loop_Done n : ∀ src first dst cur w dst' w',
  uninitialized_copy_loop src first n dst cur w = Done dst' w' →
  ∃ vs xs, take n (drop (N.to_nat first) src) = Some <$> vs
    ∧ length vs = n ∧ Forall2 copied vs xs
    ∧ (0 < n → N.to_nat cur + n ≤ length dst)%nat
    ∧ dst' = fill dst (N.to_nat cur) xs
    ∧ delta w w' (EvConstruct ByCopy <$> xs)
        (live (take n (drop (N.to_nat cur) dst))).
Proof.
  induction n as [|n IH]; intros src first dst cur w dst' w' Hloop;
    simpl in Hloop.
  { simplify_eq. exists [], []. rewrite fill_nil.
    split_and!; try done; [lia|apply delta_refl]. }
  unfold slot_at in Hloop.
  destruct (src !! N.to_nat first) as [[u|]|] eqn:Hu; [|done..].
  destruct (construct_at dst cur (ICopy u) w) as [d1 w1|? ? ?|] eqn:Hc;
    [|done..].
  apply construct_at_Done in Hc as (s & x & Hs & -> & Hi & Hd1).
  apply IH in Hloop as (vs & xs & Htake & Hlen & Hcp & Hle & -> & Hd2).
  rewrite length_insert in Hle. rewrite !to_nat_succ in *.
  apply lookup_lt_Some in Hs as Hlt.
  rewrite drop_insert_lt in Hd2 by lia.
  exists (u :: vs), (x :: xs). split_and!.
  - rewrite (take_drop_S _ _ _ _ Hu). simpl. by f_equal.
  - simpl. lia.
  - by constructor.
  - lia.
  - by apply fill_cons.
  - rewrite (live_take_drop_S _ _ _ _ Hs). simpl.
    by apply (delta_trans _ _ _ [_] _ _ _ Hd1).
Qed.

Lemma uninitialized_copy_loop_Thrown n : ∀ src first dst cur w ex dk c w',
  uninitialized_copy_loop src first n dst cur w = Thrown ex (dk, c) w' →
  ∃ xs, (length xs < n)%nat ∧ c = cur + N.of_nat (length xs)
    ∧ (N.to_nat c < length dst)%nat
    ∧ dk = fill dst (N.to_nat cur) xs
    ∧ delta w w' (EvConstruct ByCopy <$> xs)
        (live (take (length xs) (drop (N.to_nat cur) dst))).
Proof.
  induction n as [|n IH]; intros src first dst cur w ex dk c w' Hloop;
    simpl in Hloop; [done|].
  unfold slot_at in Hloop.
  destruct (src !! N.to_nat first) as [[u|]|] eqn:Hu; [|done..].
  destruct (construct_at dst cur (ICopy u) w) as [d1 w1|ex1 d1 w1|] eqn:Hc;
    [| |done].
  - apply construct_at_Done in Hc as (s & x & Hs & -> & Hi & Hd1).
    apply IH in Hloop as (xs & Hlen & -> & Hlt & -> & Hd2).
    rewrite length_insert in Hlt. rewrite !to_nat_succ in *.
    apply lookup_lt_Some in Hs as Hlt'.
    rewrite drop_insert_lt in Hd2 by lia.
    exists (x :: xs). simpl. split_and!; [lia|lia|lia|by apply fill_cons|].
    rewrite (live_take_drop_S _ _ _ _ Hs).
    by apply (delta_trans _ _ _ [_] _ _ _ Hd1).
  - simplify_eq. apply construct_at_Thrown in Hc as (-> & Hlt & Hd).
    exists []. simpl. rewrite fill_nil, N.add_0_r.
    split_and!; [lia|done|done|done|done].
Qed.

Lemma uninitialized_copy_n_Done src first n dst d_first w dst' w' :
  uninitialized_copy_n src first n dst d_first w = Done dst' w' →
  ∃ vs xs, take (N.to_nat n) (drop (N.to_nat first) src) = Some <$> vs
    ∧ length vs = N.to_nat n ∧ Forall2 copied vs xs
    ∧ (0 < N.to_nat n → N.to_nat d_first + N.to_nat n ≤ length dst)%nat
    ∧ dst' = fill dst (N.to_nat d_first) xs
    ∧ delta w w' (EvConstruct ByCopy <$> xs)
        (live (take (N.to_nat n) (drop (N.to_nat d_first) dst))).
Proof.
  unfold uninitialized_copy_n.
  destruct (uninitialized_copy_loop _ _ _ _ _ _) as [d1 w1|ex [dk c] w1|]
    eqn:Hloop; [|destruct (DestroyN _ _ _ _) as [[]|]; done|done].
  intros; simplify_eq. by apply uninitialized_copy_loop_Done.
Qed.

(** When a copy throws, the objects constructed so far are destroyed again:
    the block ends with its touched slots raw. *)
Lemma uninitialized_copy_n_Thrown src first n dst d_first w ex dst' w' :
  uninitialized_copy_n src first n dst d_first w = Thrown ex dst' w' →
  ∃ xs, (length xs < N.to_nat n)%nat
    ∧ (N.to_nat d_first + length xs < length dst)%nat
    ∧ dst' = clear dst (N.to_nat d_first) (length xs)
    ∧ delta w w' ((EvConstruct ByCopy <$> xs) ++ (EvDestroy <$> xs))
        (live (take (length xs) (drop (N.to_nat d_first) dst))).
Proof.
  unfold uninitialized_copy_n.
  destruct (uninitialized_copy_loop _ _ _ _ _ _) as [d1 w1|ex1 [dk c] w1|]
    eqn:Hloop; [done| |done].
  apply uninitialized_copy_loop_Thrown in Hloop
    as (xs & Hlen & -> & Hlt & -> & Hd1).
  destruct (DestroyN _ _ _ _) as [[d2 w2]|] eqn:HD; [|done].
  intros; simplify_eq.
  apply DestroyN_Some in HD as (vs & Htake & Hvs & -> & Hd2).
  replace (N.to_nat (d_first + N.of_nat (length xs) - d_first))
    with (length xs) in * by lia.
  rewrite take_drop_fill in Htake by lia.
  apply (inj (fmap Some)) in Htake as <-.
  exists xs. split_and!; [done|lia|apply clear_fill; lia|].
  rewrite <-(app_nil_r (live _)). by eapply delta_trans.
Qed.

Lemma uninitialized_move_loop_Done n : ∀ src first dst cur w src' dst' w',
  uninitialized_move_loop src first n dst cur w = Done (src', dst') w' →
  ∃ vs rs xs, take n (drop (N.to_nat first) src) = Some <$> vs
    ∧ length vs = n ∧ Forall2 moved vs xs
    ∧ length rs = n ∧ src' = fill src (N.to_nat first) rs
    ∧ (0 < n → N.to_nat cur + n ≤ length dst)%nat
    ∧ dst' = fill dst (N.to_nat cur) xs
    ∧ delta w w' (EvConstruct ByMove <$> xs)
        (live (take n (drop (N.to_nat cur) dst))).
Proof.
  induction n as [|n IH]; intros src first dst cur w src' dst' w' Hloop;
    simpl in Hloop.
  { simplify_eq. exists [], [], []. rewrite !fill_nil.
    split_and!; try done; [lia|apply delta_refl]. }
  destruct (move_construct_at src first dst cur w)
    as [[s1 d1] w1|? [? ?]|] eqn:Hc; [|done..].
  apply move_construct_at_Done in Hc
    as (u & r & s & x & Hu & Hs & -> & -> & Hm & Hd1).
  apply IH in Hloop
    as (vs & rs & xs & Htake & Hlen & Hmv & Hrs & -> & Hle & -> & Hd2).
  rewrite length_insert in Hle. rewrite !to_nat_succ in *.
  apply lookup_lt_Some in Hs as Hlt. apply lookup_lt_Some in Hu as Hlt'.
  rewrite drop_insert_lt in Hd2 by lia.
  rewrite drop_insert_lt in Htake by lia.
  exists (u :: vs), (r :: rs), (x :: xs). split_and!.
  - rewrite (take_drop_S _ _ _ _ Hu). simpl. by f_equal.
  - simpl. lia.
  - by constructor.
  - simpl. lia.
  - by apply fill_cons.
  - lia.
  - by apply fill_cons.
  - rewrite (live_take_drop_S _ _ _ _ Hs). simpl.
    by apply (delta_trans _ _ _ [_] _ _ _ Hd1).
Qed.

Lemma uninitialized_move_loop_Thrown n :
  ∀ src first dst cur w ex sk dk c w',
  uninitialized_move_loop src first n dst cur w = Thrown ex (sk, dk, c) w' →
  ∃ xs, (length xs < n)%nat ∧ c = cur + N.of_nat (length xs)
    ∧ (N.to_nat c < length dst)%nat
    ∧ dk = fill dst (N.to_nat cur) xs
    ∧ length sk = length src
    ∧ is_nothrow_move_constructible = false
    ∧ delta w w' (EvConstruct ByMove <$> xs)
        (live (take (length xs) (drop (N.to_nat cur) dst))).
Proof.
  induction n as [|n IH]; intros src first dst cur w ex sk dk c w' Hloop;
    simpl in Hloop; [done|].
  destruct (move_construct_at src first dst cur w)
    as [[s1 d1] w1|ex1 [s1 d1] w1|] eqn:Hc; [| |done].
  - apply move_construct_at_Done in Hc
      as (u & r & s & x & Hu & Hs & -> & -> & Hm & Hd1).
    apply IH in Hloop as (xs & Hlen & -> & Hlt & -> & Hsk & Hnt & Hd2).
    rewrite !length_insert in *. rewrite !to_nat_succ in *.
    apply lookup_lt_Some in Hs as Hlt'.
    rewrite drop_insert_lt in Hd2 by lia.
    exists (x :: xs). simpl.
    split_and!; [lia|lia|lia|by apply fill_cons|done|done|].
    rewrite (live_take_drop_S _ _ _ _ Hs).
    by apply (delta_trans _ _ _ [_] _ _ _ Hd1).
  - simplify_eq.
    apply move_construct_at_Thrown in Hc as (Hnt & -> & Hlt & Hsk & Hd).
    exists []. simpl. rewrite fill_nil, N.add_0_r.
    split_and!; [lia|done|done|done|done|done|done].
Qed.

Lemma uninitialized_move_n_Done src first n dst d_first w src' dst' w' :
  uninitialized_move_n src first n dst d_first w = Done (src', dst') w' →
  ∃ vs rs xs, take (N.to_nat n) (drop (N.to_nat first) src) = Some <$> vs
    ∧ length vs = N.to_nat n ∧ Forall2 moved vs xs
    ∧ length rs = N.to_nat n ∧ src' = fill src (N.to_nat first) rs
    ∧ (0 < N.to_nat n → N.to_nat d_first + N.to_nat n ≤ length dst)%nat
    ∧ dst' = fill dst (N.to_nat d_first) xs
    ∧ delta w w' (EvConstruct ByMove <$> xs)
        (live (take (N.to_nat n) (drop (N.to_nat d_first) dst))).
Proof.
  unfold uninitialized_move_n.
  destruct (uninitialized_move_loop _ _ _ _ _ _)
    as [[s1 d1] w1|ex [[sk dk] c] w1|] eqn:Hloop;
    [|destruct (DestroyN _ _ _ _) as [[]|]; done|done].
  intros; simplify_eq. by apply uninitialized_move_loop_Done.
Qed.

Lemma uninitialized_move_n_Thrown src first n dst d_first w ex src' dst' w' :
  uninitialized_move_n src first n dst d_first w = Thrown ex (src', dst') w' →
  ∃ xs, (length xs < N.to_nat n)%nat
    ∧ (N.to_nat d_first + length xs < length dst)%nat
    ∧ dst' = clear dst (N.to_nat d_first) (length xs)
    ∧ length src' = length src
    ∧ is_nothrow_move_constructible = false
    ∧ delta w w' ((EvConstruct ByMove <$> xs) ++ (EvDestroy <$> xs))
        (live (take (length xs) (drop (N.to_nat d_first) dst))).
Proof.
  unfold uninitialized_move_n.
  destruct (uninitialized_move_loop _ _ _ _ _ _)
    as [[s1 d1] w1|ex1 [[sk dk] c] w1|] eqn:Hloop; [done| |done].
  apply uninitialized_move_loop_Thrown in Hloop
    as (xs & Hlen & -> & Hlt & -> & Hsk & Hnt & Hd1).
  destruct (DestroyN _ _ _ _) as [[d2 w2]|] eqn:HD; [|done].
  intros; simplify_eq.
  apply DestroyN_Some in HD as (vs & Htake & Hvs & -> & Hd2).
  replace (N.to_nat (d_first + N.of_nat (length xs) - d_first))
    with (length xs) in * by lia.
  rewrite take_drop_fill in Htake by lia.
  apply (inj (fmap Some)) in Htake as <-.
  exists xs. split_and!; [done|lia|apply clear_fill; lia|done|done|].
  rewrite <-(app_nil_r (live _)). by eapply delta_trans.
Qed.

Lemma uninitialized_value_construct_loop_Done n : ∀ b cur w b' w',
  uninitialized_value_construct_loop b cur n w = Done b' w' →
  ∃ xs, length xs = n ∧ (0 < n → N.to_nat cur + n ≤ length b)%nat
    ∧ b' = fill b (N.to_nat cur) xs
    ∧ delta w w' (EvConstruct ByDefault <$> xs)
        (live (take n (drop (N.to_nat cur) b))).
Proof.
  induction n as [|n IH]; intros b cur w b' w' Hloop; simpl in Hloop.
  { simplify_eq. exists []. rewrite fill_nil.
    split_and!; try done; [lia|apply delta_refl]. }
  destruct (value_construct_at b cur w) as [b1 w1|? ? ?|] eqn:Hc; [|done..].
  apply value_construct_at_Done in Hc as (s & x & Hs & -> & Hd1).
  apply IH in Hloop as (xs & Hlen & Hle & -> & Hd2).
  rewrite length_insert in Hle. rewrite !to_nat_succ in *.
  apply lookup_lt_Some in Hs as Hlt.
  rewrite drop_insert_lt in Hd2 by lia.
  exists (x :: xs). split_and!; [simpl; lia|lia|by apply fill_cons|].
  rewrite (live_take_drop_S _ _ _ _ Hs). simpl.
  by apply (delta_trans _ _ _ [_] _ _ _ Hd1).
Qed.

Lemma uninitialized_value_construct_loop_Thrown n : ∀ b cur w ex bk c w',
  uninitialized_value_construct_loop b cur n w = Thrown ex (bk, c) w' →
  ∃ xs, (length xs < n)%nat ∧ c = cur + N.of_nat (length xs)
    ∧ (N.to_nat c < length b)%nat
    ∧ bk = fill b (N.to_nat cur) xs
    ∧ delta w w' (EvConstruct ByDefault <$> xs)
        (live (take (length xs) (drop (N.to_nat cur) b))).
Proof.
  induction n as [|n IH]; intros b cur w ex bk c w' Hloop;
    simpl in Hloop; [done|].
  destruct (value_construct_at b cur w) as [b1 w1|ex1 b1 w1|] eqn:Hc;
    [| |done].
  - apply value_construct_at_Done in Hc as (s & x & Hs & -> & Hd1).
    apply IH in Hloop as (xs & Hlen & -> & Hlt & -> & Hd2).
    rewrite length_insert in Hlt. rewrite !to_nat_succ in *.
    apply lookup_lt_Some in Hs as Hlt'.
    rewrite drop_insert_lt in Hd2 by lia.
    exists (x :: xs). simpl. split_and!; [lia|lia|lia|by apply fill_cons|].
    rewrite (live_take_drop_S _ _ _ _ Hs).
    by apply (delta_trans _ _ _ [_] _ _ _ Hd1).
  - simplify_eq. apply value_construct_at_Thrown in Hc as (-> & Hlt & Hd).
    exists []. simpl. rewrite fill_nil, N.add_0_r.
    split_and!; [lia|done|done|done|done].
Qed.

Lemma uninitialized_value_construct_n_Done b first n w b' w' :
  uninitialized_value_construct_n b first n w = Done b' w' →
  ∃ xs, length xs = N.to_nat n
    ∧ (0 < N.to_nat n → N.to_nat first + N.to_nat n ≤ length b)%nat
    ∧ b' = fill b (N.to_nat first) xs
    ∧ delta w w' (EvConstruct ByDefault <$> xs)
        (live (take (N.to_nat n) (drop (N.to_nat first) b))).
Proof.
  unfold uninitialized_value_construct_n.
  destruct (uninitialized_value_construct_loop _ _ _ _)
    as [b1 w1|ex [bk c] w1|] eqn:Hloop;
    [|destruct (DestroyN _ _ _ _) as [[]|]; done|done].
  intros; simplify_eq. by apply uninitialized_value_construct_loop_Done.
Qed.

Lemma uninitialized_value_construct_n_Thrown b first n w ex b' w' :
  uninitialized_value_construct_n b first n w = Thrown ex b' w' →
  ∃ xs, (length xs < N.to_nat n)%nat
    ∧ (N.to_nat first + length xs < length b)%nat
    ∧ b' = clear b (N.to_nat first) (length xs)
    ∧ delta w w' ((EvConstruct ByDefault <$> xs) ++ (EvDestroy <$> xs))
        (live (take (length xs) (drop (N.to_nat first) b))).
Proof.
  unfold uninitialized_value_construct_n.
  destruct (uninitialized_value_construct_loop _ _ _ _)
    as [b1 w1|ex1 [bk c] w1|] eqn:Hloop; [done| |done].
  apply uninitialized_value_construct_loop_Thrown in Hloop
    as (xs & Hlen & -> & Hlt & -> & Hd1).
  destruct (DestroyN _ _ _ _) as [[d2 w2]|] eqn:HD; [|done].
  intros; simplify_eq.
  apply DestroyN_Some in HD as (vs & Htake & Hvs & -> & Hd2).
  replace (N.to_nat (first + N.of_nat (length xs) - first))
    with (length xs) in * by lia.
  rewrite take_drop_fill in Htake by lia.
  apply (inj (fmap Some)) in Htake as <-.
  exists xs. split_and!; [done|lia|apply clear_fill; lia|].
  rewrite <-(app_nil_r (live _)). by eapply delta_trans.
Qed.

(** ** The transfer into new storage *)

Lemma fill_same b d xs :
  take (length xs) (drop d b) = Some <$> xs → fill b d xs = b.
Proof.
  intros Htake. unfold fill. rewrite <-Htake.
  rewrite <-(drop_drop b (length xs) d), take_drop. apply take_drop.
Qed.

Lemma length_fill' dst d xs :
  (0 < length xs → d + length xs ≤ length dst)%nat →
  length (fill dst d xs) = length dst.
Proof.
  intros Hle. destruct xs as [|x xs]; [by rewrite fill_nil|].
  apply length_fill, Hle. simpl. lia.
Qed.

Lemma relocate_n_Done src first n dst d_first w src' dst' w' :
  relocate_n src first n dst d_first w = Done (src', dst') w' →
  ∃ vs rs xs, take (N.to_nat n) (drop (N.to_nat first) src) = Some <$> vs
    ∧ length vs = N.to_nat n ∧ Forall2 relocated vs xs
    ∧ length xs = N.to_nat n
    ∧ length rs = N.to_nat n ∧ src' = fill src (N.to_nat first) rs
    ∧ (0 < N.to_nat n → N.to_nat d_first + N.to_nat n ≤ length dst)%nat
    ∧ dst' = fill dst (N.to_nat d_first) xs
    ∧ length dst' = length dst
    ∧ delta w w' (EvConstruct relocation_kind <$> xs)
        (live (take (N.to_nat n) (drop (N.to_nat d_first) dst))).
Proof.
  unfold relocate_n, relocated, relocation_kind.
  destruct (is_nothrow_move_constructible || negb is_copy_constructible).
  - intros (vs & rs & xs & Htake & Hlen & Hmv & Hrs & -> & Hle & -> & Hd)
      %uninitialized_move_n_Done.
    assert (length xs = N.to_nat n) as Hxs
      by (by rewrite <-(Forall2_length _ _ _ Hmv)).
    exists vs, rs, xs. split_and!; try done.
    apply length_fill'. by rewrite Hxs.
  - destruct (uninitialized_copy_n src first n dst d_first w)
      as [d1 w1|?|] eqn:Hc; intros; simplify_eq.
    apply uninitialized_copy_n_Done in Hc
      as (vs & xs & Htake & Hlen & Hcp & Hle & -> & Hd).
    assert (length xs = N.to_nat n) as Hxs
      by (by rewrite <-(Forall2_length _ _ _ Hcp)).
    exists vs, vs, xs. split_and!; try done.
    + symmetry. apply fill_same. by rewrite Hlen.
    + apply length_fill'. by rewrite Hxs.
Qed.

Lemma relocate_n_Thrown src first n dst d_first w ex src' dst' w' :
  relocate_n src first n dst d_first w = Thrown ex (src', dst') w' →
  ∃ xs, (length xs < N.to_nat n)%nat
    ∧ (N.to_nat d_first + length xs < length dst)%nat
    ∧ dst' = clear dst (N.to_nat d_first) (length xs)
    ∧ is_nothrow_move_constructible = false
    ∧ (is_copy_constructible = true → src' = src)
    ∧ delta w w' ((EvConstruct relocation_kind <$> xs) ++ (EvDestroy <$> xs))
        (live (take (length xs) (drop (N.to_nat d_first) dst))).
Proof.
  unfold relocate_n, relocation_kind.
  destruct is_nothrow_move_constructible eqn:Hnt; simpl.
  { intros (xs & _ & _ & _ & _ & ? & _)%uninitialized_move_n_Thrown.
    congruence. }
  destruct is_copy_constructible eqn:Hcc; simpl.
  - destruct (uninitialized_copy_n src first n dst d_first w)
      as [d1 w1|?|] eqn:Hc; intros; simplify_eq.
    apply uninitialized_copy_n_Thrown in Hc as (xs & Hlen & Hlt & -> & Hd).
    exists xs. by split_and!.
  - intros (xs & Hlen & Hlt & -> & _ & _ & Hd)%uninitialized_move_n_Thrown.
    exists xs. by split_and!.
Qed.

Lemma relocated_value `{!ValueSemantics T} vs xs :
  Forall2 relocated vs xs → xs = vs.
Proof.
  unfold relocated. induction 1 as [|u x vs xs Hr _ IH]; [done|].
  f_equal; [|done].
  destruct (is_nothrow_move_constructible || negb is_copy_constructible).
  - destruct Hr as (e & r & e' & Hm). by eapply ctor_move_value.
  - destruct Hr as (e & e' & Hc). by eapply ctor_copy_value.
Qed.

Lemma initialises_value `{!ValueSemantics T} u x :
  initialises (ICopy u) x ∨ initialises (IMove u) x → x = u.
Proof.
  intros [(e & e' & Hc)|(e & r & e' & Hm)].
  - by eapply ctor_copy_value.
  - by eapply ctor_move_value.
Qed.

(** ** The storage [operator new] grants *)

Lemma sizeof_pos : 0 < @sizeof T _.
Proof. unfold sizeof. lia. Qed.

Lemma granted_le n : @granted T _ n ≤ n.
Proof.
  unfold granted. pose proof sizeof_pos.
  apply N.Div0.div_le_upper_bound. pose proof (wrap_le (n * sizeof)). lia.
Qed.

Lemma granted_fits n : n * sizeof < size_t_modulus → @granted T _ n = n.
Proof.
  intros Hfit. unfold granted. pose proof sizeof_pos.
  rewrite wrap_small by done. apply N.div_mul. lia.
Qed.

Lemma granted_full n : n ≤ @granted T _ n → @granted T _ n = n.
Proof. pose proof (granted_le n). lia. Qed.

(** A block with room for the [n] objects asked for was asked for with a
    byte count that did not wrap. *)
Lemma granted_eq_fits n :
  @granted T _ n = n → n * @sizeof T _ < size_t_modulus.
Proof.
  unfold granted. intros Hg. pose proof sizeof_pos.
  pose proof (N.Div0.mul_div_le (wrap (n * sizeof)) sizeof) as Hle.
  rewrite Hg in Hle. pose proof (wrap_le (n * sizeof)).
  pose proof (wrap_lt (n * sizeof)). lia.
Qed.

(** The storage a reallocating push or insert asks for has room for more
    than the elements there are only if the doubled size, in bytes, did not
    wrap. *)
Lemma granted_grown v :
  size_ v < granted (grown_size v) →
  granted (grown_size v) = grown_size v.
Proof.
  intros Hroom.
  destruct (decide (grown_size v * sizeof < size_t_modulus)) as [?|Hwrap];
    [by apply granted_fits|].
  exfalso. revert Hroom. unfold granted.
  pose proof sizeof_pos as Hs. set (s := sizeof) in *.
  set (g := grown_size v) in *.
  pose proof (N.div_mod (g * s) size_t_modulus ltac:(done)) as Hdm.
  fold (wrap (g * s)) in Hdm.
  pose proof (wrap_lt (g * s)) as Hr. set (r := wrap (g * s)) in *.
  assert (1 ≤ g * s / size_t_modulus) as Hq
    by (apply N.div_le_lower_bound; [done|lia]).
  pose proof (N.Div0.mul_div_le r s) as Hfloor. intros Hroom.
  assert (s * (size_ v + 1) ≤ r) as Hbytes by nia.
  assert (g ≤ 2 * size_ v ∨ (size_ v = 0 ∧ g = 1)) as [Hg|[Hz Hg]].
  { unfold g, grown_size. destruct (size_ v =? 0) eqn:Hz.
    - right. apply N.eqb_eq in Hz. by split.
    - left. pose proof (wrap_le (size_ v * 2)). lia. }
  - nia.
  - nia.
Qed.


(** The count [alloc_limit] allows is granted in full. *)
Lemma alloc_limit_fits n w :
  n ≤ alloc_limit w →
  n * sizeof < size_t_modulus ∧ n * sizeof ≤ heap_limit w.
Proof.
  unfold alloc_limit. intros Hn. pose proof sizeof_pos.
  pose proof (N.Div0.mul_div_le (N.min (heap_limit w) (size_t_modulus - 1))
                sizeof) as Hle.
  assert (0 < size_t_modulus) by done. nia.
Qed.

Lemma alloc_limit_exceeded n w :
  heap_limit w < wrap (n * sizeof) → alloc_limit w < n.
Proof.
  unfold alloc_limit. intros Hn. pose proof sizeof_pos.
  pose proof (wrap_le (n * sizeof)). pose proof (wrap_lt (n * sizeof)).
  apply N.Div0.div_lt_upper_bound. lia.
Qed.

(** ** [RawMemory] and the view of a vector *)

Lemma RawMemory_new_Done n w m w' :
  RawMemory_new n w = Done m w' →
  w' = w ∧ capacity_ m = n
  ∧ buffer_ m = replicate (N.to_nat (granted n)) None.
Proof.
  unfold RawMemory_new, Allocate. destruct (n =? 0) eqn:Hn.
  - apply N.eqb_eq in Hn as ->. by intros; simplify_eq.
  - destruct (wrap (n * sizeof) <=? heap_limit w); by intros; simplify_eq.
Qed.

Lemma RawMemory_new_Thrown n w ex u w' :
  RawMemory_new n w = Thrown ex u w' → w' = w ∧ ex = bad_alloc.
Proof.
  unfold RawMemory_new, Allocate. destruct (n =? 0).
  - by intros; simplify_eq.
  - destruct (wrap (n * sizeof) <=? heap_limit w); by intros; simplify_eq.
Qed.

Lemma with_block_block v : with_block (block v) v = v.
Proof. by destruct v as [[] ?]. Qed.

Lemma mapM_id_Some (slots : Block T) l :
  mapM id slots = Some l ↔ slots = Some <$> l.
Proof.
  rewrite mapM_Some. split.
  - induction 1 as [|s x slots l Hs _ IH]; [done|]. simpl in *. by subst.
  - intros ->. induction l; by constructor.
Qed.

Lemma elements_Some v l :
  elements v = Some l ↔
  N.to_nat (size_ v) = length l ∧ take (length l) (block v) = Some <$> l.
Proof.
  unfold elements. case_decide as Hlen.
  - rewrite mapM_id_Some. split.
    + intros Htake. apply (f_equal length) in Htake as Hl.
      rewrite length_fmap, Hlen in Hl. by rewrite <-Hl.
    + intros [<- ?]. done.
  - split; [done|]. intros [Hsize Htake]. destruct Hlen.
    rewrite Hsize, Htake. apply length_fmap.
Qed.

(** A well formed vector is its elements followed by its spare slots. *)
Lemma wf_view v :
  wf v →
  ∃ l rest, elements v = Some l ∧ block v = (Some <$> l) ++ rest
    ∧ size_ v = N.of_nat (length l)
    ∧ Capacity v = N.of_nat (length l + length rest)
    ∧ Capacity v < size_t_modulus.
Proof.
  intros (Hlen & Hcap & Hle & [l Hl]).
  apply elements_Some in Hl as Hl'. destruct Hl' as [Hsize Htake].
  exists l, (drop (length l) (block v)). split_and!; [done| |lia| |done].
  - by rewrite <-Htake, take_drop.
  - rewrite length_drop. lia.
Qed.

Lemma view_wf v l rest :
  block v = (Some <$> l) ++ rest → size_ v = N.of_nat (length l) →
  Capacity v = N.of_nat (length l + length rest) →
  Capacity v < size_t_modulus →
  wf v ∧ elements v = Some l.
Proof.
  intros Hb Hs Hc Hlt.
  assert (elements v = Some l) as Hel.
  { apply elements_Some. split; [lia|].
    rewrite Hb. apply take_app_length'. by rewrite length_fmap. }
  split; [|done]. split_and!; [|done|lia|by eexists].
  rewrite Hb, length_app, length_fmap. lia.
Qed.

(** ** The assignment loops *)

Lemma insert_at_length {A} (pre : list A) (a a' : A) (post : list A) i :
  i = length pre → <[i:=a']> (pre ++ a :: post) = pre ++ a' :: post.
Proof. intros ->. rewrite insert_app_r_alt by lia. by rewrite Nat.sub_diag. Qed.

Lemma lookup_pair {A} (pre : list A) (a c : A) (post : list A) :
  (pre ++ a :: c :: post) !! length pre = Some a
  ∧ (pre ++ a :: c :: post) !! S (length pre) = Some c.
Proof. induction pre; simpl; auto. Qed.

Lemma insert_pair {A} (pre : list A) (a c a' c' : A) (post : list A) :
  <[length pre:=a']> (<[S (length pre):=c']> (pre ++ a :: c :: post))
  = pre ++ a' :: c' :: post
  ∧ <[S (length pre):=c']> (<[length pre:=a']> (pre ++ a :: c :: post))
    = pre ++ a' :: c' :: post.
Proof. induction pre as [|? ? [? ?]]; simpl; split; by f_equal. Qed.

Lemma call_assign_move_spec (d s : T) w :
  match call_assign_move d s w with
  | Done (d', r) w' => move_assigned s d' ∧ delta w w' [EvAssign MoveAssign d'] []
  | Thrown _ _ w' => move_assign_can_throw ∧ delta w w' [] []
  | Abort _ => False
  end.
Proof.
  unfold call_assign_move.
  destruct (assign_move d s (env w)) as [[[[] d'] r] e] eqn:Ha.
  - split; [by eexists _, _, _, _|].
    apply (delta_log _ _ _ []), delta_set_env.
  - split; [|apply delta_set_env]. exists d, s, (env w). by rewrite Ha.
Qed.

(** [b[j] = std::move(b[j + 1])]. *)
Lemma move_assign_within_down pre (d0 u : T) rest i j w :
  N.to_nat j = length pre → i = j + 1 →
  match move_assign_within (pre ++ Some d0 :: Some u :: rest) i j w with
  | Done b' w' =>
      ∃ d' r, move_assigned u d' ∧ b' = pre ++ Some d' :: Some r :: rest
        ∧ delta w w' [EvAssign MoveAssign d'] []
  | Thrown _ b' w' =>
      (∃ d' r, b' = pre ++ Some d' :: Some r :: rest)
      ∧ move_assign_can_throw ∧ delta w w' [] []
  | Abort _ => False
  end.
Proof.
  intros Hj ->. unfold move_assign_within, slot_at, store_at.
  rewrite to_nat_succ, Hj.
  destruct (lookup_pair pre (Some d0) (Some u) rest) as [-> ->].
  pose proof (call_assign_move_spec d0 u w) as Hcall.
  destruct (call_assign_move d0 u w) as [[d' r] w'|ex [d' r] w'|]; [| |done].
  - destruct Hcall as [Hm Hd]. exists d', r. split_and!; [done| |done].
    apply insert_pair.
  - destruct Hcall as [Hm Hd]. split_and!; [|done..]. exists d', r.
    apply insert_pair.
Qed.

(** [b[i + 1] = std::move(b[i])]. *)
Lemma move_assign_within_up pre (u d0 : T) rest i j w :
  N.to_nat i = length pre → j = i + 1 →
  match move_assign_within (pre ++ Some u :: Some d0 :: rest) i j w with
  | Done b' w' =>
      ∃ d' r, move_assigned u d' ∧ b' = pre ++ Some r :: Some d' :: rest
        ∧ delta w w' [EvAssign MoveAssign d'] []
  | Thrown _ b' w' =>
      (∃ d' r, b' = pre ++ Some r :: Some d' :: rest)
      ∧ move_assign_can_throw ∧ delta w w' [] []
  | Abort _ => False
  end.
Proof.
  intros Hi ->. unfold move_assign_within, slot_at, store_at.
  rewrite to_nat_succ, Hi.
  destruct (lookup_pair pre (Some u) (Some d0) rest) as [-> ->].
  pose proof (call_assign_move_spec d0 u w) as Hcall.
  destruct (call_assign_move d0 u w) as [[d' r] w'|ex [d' r] w'|]; [| |done].
  - destruct Hcall as [Hm Hd]. exists d', r. split_and!; [done| |done].
    apply insert_pair.
  - destruct Hcall as [Hm Hd]. split_and!; [|done..]. exists d', r.
    apply insert_pair.
Qed.

(** [std::move] shifting the objects [vs] one slot towards the front, over
    the object [d0]. *)
Lemma move_loop_shift vs : ∀ pre (d0 : T) post first d_first w,
  N.to_nat d_first = length pre → first = d_first + 1 →
  match move_loop (pre ++ Some d0 :: (Some <$> vs) ++ post) first
          (length vs) d_first w with
  | Done b' w' =>
      ∃ ys r, Forall2 move_assigned vs ys
        ∧ b' = pre ++ (Some <$> ys) ++ Some r :: post
  | Thrown _ b' w' =>
      (∃ ys, length ys = S (length vs) ∧ b' = pre ++ (Some <$> ys) ++ post)
      ∧ move_assign_can_throw
  | Abort _ => False
  end.
Proof.
  induction vs as [|u vs IH]; intros pre d0 post first d_first w Hd Hf; simpl.
  { exists [], d0. by split. }
  pose proof (move_assign_within_down pre d0 u ((Some <$> vs) ++ post)
                first d_first w Hd Hf) as Hstep.
  destruct (move_assign_within _ first d_first w) as [b1 w1|ex b1 w1|];
    [| |done].
  - destruct Hstep as (d' & r & Hm & -> & _).
    specialize (IH (pre ++ [Some d']) r post (first + 1) (d_first + 1) w1).
    rewrite <-app_assoc in IH. simpl in IH.
    destruct (move_loop _ (first + 1) (length vs) (d_first + 1) w1)
      as [b' w'|ex b' w'|].
    + destruct IH as (ys & r' & Hys & ->);
        [rewrite length_app; simpl; lia|lia|].
      exists (d' :: ys), r'. split; [by constructor|].
      by rewrite <-app_assoc.
    + destruct IH as [(ys & Hlen & ->) Hthrow];
        [rewrite length_app; simpl; lia|lia|].
      split; [|done]. exists (d' :: ys). split; [simpl; lia|].
      by rewrite <-app_assoc.
    + apply IH; [rewrite length_app; simpl; lia|lia].
  - destruct Hstep as ((d' & r & ->) & Hthrow & _). split; [|done].
    exists (d' :: r :: vs). split; [done|]. done.
Qed.

(** [std::move_backward] shifting the objects [vs] one slot towards the
    back, over the object [d0]. *)
Lemma move_backward_loop_shift vs : ∀ pre (d0 : T) post last d_last w,
  N.to_nat last = (length pre + length vs)%nat → d_last = last + 1 →
  match move_backward_loop (pre ++ (Some <$> vs) ++ Some d0 :: post)
          (length vs) last d_last w with
  | Done b' w' =>
      ∃ r ys, Forall2 move_assigned vs ys
        ∧ b' = pre ++ Some r :: (Some <$> ys) ++ post
  | Thrown _ b' w' =>
      (∃ ys, length ys = S (length vs) ∧ b' = pre ++ (Some <$> ys) ++ post)
      ∧ move_assign_can_throw
  | Abort _ => False
  end.
Proof.
  induction vs as [|u vs IH] using rev_ind;
    intros pre d0 post last d_last w Hl Hd.
  { simpl. exists d0, []. by split. }
  rewrite length_app, Nat.add_1_r in *. simpl.
  destruct (last =? 0) eqn:Hz; [apply N.eqb_eq in Hz; lia|].
  destruct (d_last =? 0) eqn:Hz'; [apply N.eqb_eq in Hz'; lia|]. simpl.
  rewrite fmap_app, <-!app_assoc. simpl.
  pose proof (move_assign_within_up (pre ++ (Some <$> vs)) u d0 post
                (last - 1) (d_last - 1) w) as Hstep.
  rewrite <-app_assoc in Hstep.
  destruct (move_assign_within _ (last - 1) (d_last - 1) w)
    as [b1 w1|ex b1 w1|].
  - destruct Hstep as (d' & r & Hm & -> & _);
      [rewrite length_app, length_fmap; lia|lia|].
    specialize (IH pre r (Some d' :: post) (last - 1) (d_last - 1) w1).
    rewrite <-app_assoc.
    destruct (move_backward_loop _ (length vs) (last - 1) (d_last - 1) w1)
      as [b' w'|ex b' w'|].
    + destruct IH as (r' & ys & Hys & ->); [lia|lia|].
      exists r', (ys ++ [d']). split.
      * apply Forall2_app; [done|]. by constructor.
      * by rewrite fmap_app, <-app_assoc.
    + destruct IH as [(ys & Hlen & ->) Hthrow]; [lia|lia|].
      split; [|done]. exists (ys ++ [d']).
      split; [rewrite length_app; simpl; lia|].
      by rewrite fmap_app, <-app_assoc.
    + apply IH; lia.
  - destruct Hstep as ((d' & r & ->) & Hthrow & _);
      [rewrite length_app, length_fmap; lia|lia|].
    split; [|done]. exists (vs ++ [r; d']).
    split; [rewrite !length_app; simpl; lia|].
    by rewrite fmap_app, <-!app_assoc.
  - apply Hstep; [rewrite length_app, length_fmap; lia|lia].
Qed.

(** ** Size and capacity after a call *)

Lemma construct_at_fresh n i init w b' w' :
  construct_at (replicate (N.to_nat n) None) i init w = Done b' w' →
  i < n ∧ length b' = N.to_nat n.
Proof.
  intros (s & x & Hs & -> & _)%construct_at_Done.
  apply lookup_lt_Some in Hs. rewrite length_replicate in Hs.
  rewrite length_insert, length_replicate. lia.
Qed.

Lemma push_back_body_Done init v w v' w' :
  push_back_body init v w = Done v' w' →
  size_ v' = wrap (size_ v + 1)
  ∧ ((size_ v < Capacity v ∧ Capacity v' = Capacity v)
     ∨ (Capacity v ≤ size_ v ∧ Capacity v' = grown_size v
        ∧ size_ v < grown_size v)).
Proof.
  unfold push_back_body. destruct (size_ v <? Capacity v) eqn:Hcap.
  - apply N.ltb_lt in Hcap. intros; repeat case_match; simplify_eq.
    split; [done|]. by left.
  - apply N.ltb_ge in Hcap.
    destruct (RawMemory_new (grown_size v) w) as [nd w1|?|] eqn:Hnew; [|done..].
    apply RawMemory_new_Done in Hnew as (-> & Hc & Hb). rewrite Hb.
    destruct (construct_at _ _ _ _) as [nb w2|?|] eqn:Hcon; [|done..].
    apply construct_at_fresh in Hcon as [Hlt _].
    pose proof (granted_le (grown_size v)) as Hg.
    intros; repeat case_match; simplify_eq.
    split; [done|]. right. split_and!; [done..|lia].
Qed.

(** A reallocating push that returns was granted the block it asked
    for. *)
Lemma push_back_body_Done_granted init v w v' w' :
  Capacity v ≤ size_ v → push_back_body init v w = Done v' w' →
  granted (grown_size v) = grown_size v.
Proof.
  intros Hfull. unfold push_back_body.
  replace (size_ v <? Capacity v) with false
    by (symmetry; apply N.ltb_ge; lia).
  destruct (RawMemory_new (grown_size v) w) as [nd w1|?|] eqn:Hnew; [|done..].
  apply RawMemory_new_Done in Hnew as (-> & Hc & Hb). rewrite Hb.
  destruct (construct_at _ _ _ _) as [nb w2|?|] eqn:Hcon; [|done..].
  apply construct_at_fresh in Hcon as [Hlt _]. intros _.
  by apply granted_grown.
Qed.

Lemma push_back_body_Thrown init v w ex v' w' :
  push_back_body init v w = Thrown ex v' w' →
  size_ v' = size_ v ∧ Capacity v' = Capacity v.
Proof.
  unfold push_back_body. intros; repeat case_match; by simplify_eq.
Qed.

Lemma Emplace_Done num_pos init v w v' p w' :
  Emplace num_pos init v w = Done (v', p) w' →
  size_ v' = wrap (size_ v + 1) ∧ p = num_pos
  ∧ ((size_ v < Capacity v ∧ Capacity v' = Capacity v)
     ∨ (Capacity v ≤ size_ v ∧ Capacity v' = grown_size v
        ∧ num_pos < grown_size v
        ∧ (0 < wsub (size_ v) num_pos →
           wrap (num_pos + 1) + wsub (size_ v) num_pos ≤ grown_size v))).
Proof.
  unfold Emplace, begin_, end_. destruct (size_ v <? Capacity v) eqn:Hcap.
  - apply N.ltb_lt in Hcap. intros; repeat case_match; simplify_eq;
      (split_and!; [done|done|by left]).
  - apply N.ltb_ge in Hcap.
    destruct (RawMemory_new (grown_size v) w) as [nd w1|?|] eqn:Hnew; [|done..].
    apply RawMemory_new_Done in Hnew as (-> & Hc & Hb). rewrite Hb.
    destruct (construct_at _ _ _ _) as [nb w2|?|] eqn:Hcon; [|done..].
    apply construct_at_fresh in Hcon as [Hlt Hlen].
    destruct (relocate_n (block v) 0 num_pos nb 0 w2)
      as [[old nb1] w3|? [? ?] ?|] eqn:Hpre;
      [|destruct (Destroy _ _ _) as [[]|]; done|done].
    apply relocate_n_Done in Hpre
      as (? & ? & ? & _ & _ & _ & _ & _ & _ & _ & _ & Hl1 & _).
    destruct (relocate_n old _ _ nb1 _ w3) as [[old' nb2] w4|? [? ?] ?|] eqn:Hsuf;
      [|destruct (DestroyN _ _ _ _) as [[]|]; done|done].
    apply relocate_n_Done in Hsuf
      as (? & ? & ? & _ & _ & _ & _ & _ & _ & Hle & _).
    pose proof (granted_le (grown_size v)) as Hg.
    intros; repeat case_match; simplify_eq.
    split_and!; [done|done|]. right.
    split_and!; [done|done|lia|]. intros Hpos. rewrite Hl1, Hlen in Hle. lia.
Qed.

Lemma Emplace_Thrown num_pos init v w ex v' w' :
  Emplace num_pos init v w = Thrown ex v' w' →
  size_ v' = size_ v ∧ Capacity v' = Capacity v.
Proof.
  unfold Emplace. intros; repeat case_match; by simplify_eq.
Qed.

Lemma size_t_modulus_gt_1 : 1 < size_t_modulus.
Proof. done. Qed.

Lemma grown_size_lt v : grown_size v < size_t_modulus.
Proof. unfold grown_size. case_match; [done|apply wrap_lt]. Qed.

Lemma grown_size_fits v num_pos :
  bounded v → num_pos < size_t_modulus → num_pos < grown_size v →
  (0 < wsub (size_ v) num_pos →
   wrap (num_pos + 1) + wsub (size_ v) num_pos ≤ grown_size v) →
  size_ v + 1 ≤ grown_size v.
Proof.
  intros [Hle Hcap] Hpos Hlt Hsuf.
  pose proof (grown_size_lt v) as Hg.
  destruct (decide (num_pos ≤ size_ v)) as [Hv|Hv].
  - rewrite wsub_le in Hsuf by lia.
    destruct (decide (num_pos = size_ v)) as [->|Hne]; [lia|].
    rewrite wrap_small in Hsuf by lia. lia.
  - rewrite wsub_gt in Hsuf by lia.
    destruct (decide (num_pos + 1 = size_t_modulus)) as [Heq|Hne].
    + rewrite Heq in Hsuf. change (wrap size_t_modulus) with 0 in Hsuf. lia.
    + rewrite wrap_small in Hsuf by lia. lia.
Qed.

(** A reallocating insert that returns was granted the block it asked
    for: the new element and the elements behind it fit the new block. *)
Lemma Emplace_Done_granted num_pos init v w v' p w' :
  bounded v → num_pos < size_t_modulus → Capacity v ≤ size_ v →
  Emplace num_pos init v w = Done (v', p) w' →
  granted (grown_size v) = grown_size v.
Proof.
  intros [Hle Hcap] Hpos Hfull. unfold Emplace, begin_, end_.
  replace (size_ v <? Capacity v) with false
    by (symmetry; apply N.ltb_ge; lia).
  destruct (RawMemory_new (grown_size v) w) as [nd w1|?|] eqn:Hnew; [|done..].
  apply RawMemory_new_Done in Hnew as (-> & Hc & Hb). rewrite Hb.
  destruct (construct_at _ _ _ _) as [nb w2|?|] eqn:Hcon; [|done..].
  apply construct_at_fresh in Hcon as [Hlt Hlen].
  destruct (relocate_n (block v) 0 num_pos nb 0 w2)
    as [[old nb1] w3|? [? ?] ?|] eqn:Hpre;
    [|destruct (Destroy _ _ _) as [[]|]; done|done].
  apply relocate_n_Done in Hpre
    as (? & ? & ? & _ & _ & _ & _ & _ & _ & _ & _ & Hl1 & _).
  destruct (relocate_n old _ _ nb1 _ w3) as [[old' nb2] w4|? [? ?] ?|] eqn:Hsuf;
    [|destruct (DestroyN _ _ _ _) as [[]|]; done|done].
  apply relocate_n_Done in Hsuf
    as (? & ? & ? & _ & _ & _ & _ & _ & _ & Hsuf & _).
  intros _. apply granted_grown. rewrite Hl1, Hlen in Hsuf.
  pose proof (granted_le (grown_size v)) as Hg.
  pose proof (grown_size_lt v) as Hg'.
  destruct (decide (num_pos ≤ size_ v)) as [Hv|Hv].
  - rewrite wsub_le in Hsuf by lia.
    destruct (decide (num_pos = size_ v)) as [->|Hne]; [lia|].
    rewrite wrap_small in Hsuf by lia. lia.
  - rewrite wsub_gt in Hsuf by lia.
    destruct (decide (num_pos + 1 = size_t_modulus)) as [Heq|Hne].
    + rewrite Heq in Hsuf. change (wrap size_t_modulus) with 0 in Hsuf. lia.
    + rewrite wrap_small in Hsuf by lia. lia.
Qed.

Lemma grown_size_max v :
  bounded v → Capacity v ≤ size_ v → size_ v < grown_size v →
  grown_size v = N.max 1 (2 * Capacity v).
Proof.
  intros [Hle Hcap] Hfull Hlt. unfold grown_size in *.
  destruct (size_ v =? 0) eqn:Hz.
  - apply N.eqb_eq in Hz. lia.
  - apply N.eqb_neq in Hz. rewrite wrap_double_gt; lia.
Qed.

Lemma PopBack_Done v w v' w' :
  PopBack v w = Done v' w' →
  Capacity v' = Capacity v
  ∧ ((size_ v = 0 ∧ v' = v ∧ w' = w)
     ∨ (0 < size_ v ∧ size_ v' = wsub (size_ v) 1)).
Proof.
  unfold PopBack. destruct (0 <? size_ v) eqn:Hs.
  - apply N.ltb_lt in Hs. destruct (Destroy _ _ _) as [[b w1]|]; [|done].
    simpl. intros; simplify_eq. split; [done|]. by right.
  - apply N.ltb_ge in Hs. simpl. intros; simplify_eq.
    split; [done|]. left. split_and!; [lia|done..].
Qed.

Lemma PopBack_not_Thrown v w ex v' w' : PopBack v w ≠ Thrown ex v' w'.
Proof. unfold PopBack, noexcept. by repeat case_match. Qed.

Lemma PopBack_times_Done n : ∀ v w v' w',
  PopBack_times n v w = Done v' w' →
  Capacity v' = Capacity v ∧ size_ v' ≤ size_ v.
Proof.
  induction n as [|n IH]; intros v w v' w' Hloop; simpl in Hloop.
  { by simplify_eq. }
  destruct (PopBack v w) as [v1 w1|?|] eqn:Hpop; [|done..].
  apply PopBack_Done in Hpop as [Hc Hs]. apply IH in Hloop as [Hc' Hs'].
  split; [congruence|].
  destruct Hs as [(_ & -> & _)|[Hpos Hs]]; [done|].
  pose proof (wsub_1_le _ Hpos). lia.
Qed.

Lemma PopBack_times_not_Thrown n : ∀ v w ex v' w',
  PopBack_times n v w ≠ Thrown ex v' w'.
Proof.
  induction n as [|n IH]; intros v w ex v' w'; simpl; [done|].
  destruct (PopBack v w) as [v1 w1|? ? ?|] eqn:Hpop; [apply IH| |done].
  by apply PopBack_not_Thrown in Hpop.
Qed.

Lemma Reserve_Done n v w v' w' :
  Reserve n v w = Done v' w' →
  size_ v' = size_ v
  ∧ ((n ≤ Capacity v ∧ v' = v ∧ w' = w) ∨ (Capacity v < n ∧ Capacity v' = n)).
Proof.
  unfold Reserve. destruct (n <=? Capacity v) eqn:Hn.
  - apply N.leb_le in Hn. intros; simplify_eq. split; [done|]. by left.
  - apply N.leb_gt in Hn.
    destruct (RawMemory_new n w) as [nd w1|?|] eqn:Hnew; [|done..].
    apply RawMemory_new_Done in Hnew as (-> & Hc & Hb).
    intros; repeat case_match; simplify_eq. split; [done|]. by right.
Qed.

Lemma Reserve_Thrown n v w ex v' w' :
  Reserve n v w = Thrown ex v' w' →
  size_ v' = size_ v ∧ Capacity v' = Capacity v.
Proof. unfold Reserve. intros; repeat case_match; by simplify_eq. Qed.

Lemma Erase_Done num_pos v w v' p w' :
  Erase num_pos v w = Done (v', p) w' →
  Capacity v' = Capacity v
  ∧ ((size_ v = 0 ∧ v' = v ∧ w' = w)
     ∨ (0 < size_ v ∧ size_ v' = wsub (size_ v) 1)).
Proof.
  unfold Erase. destruct (0 <? size_ v) eqn:Hs.
  - apply N.ltb_lt in Hs. intros; repeat case_match; simplify_eq.
    all: split; [done|]; by right.
  - apply N.ltb_ge in Hs. intros; simplify_eq.
    split; [done|]. left. split_and!; [lia|done..].
Qed.

Lemma Erase_Thrown num_pos v w ex v' w' :
  Erase num_pos v w = Thrown ex v' w' →
  size_ v' = size_ v ∧ Capacity v' = Capacity v.
Proof. unfold Erase. intros; repeat case_match; by simplify_eq. Qed.

(** ** The invariant [size_ <= capacity_] *)

Lemma push_back_body_bounded init v w :
  bounded v → ensures id bounded (push_back_body init v w).
Proof.
  intros Hv. destruct (push_back_body init v w) as [v' w'|ex v' w'|] eqn:Hop;
    [| |done]; simpl.
  - apply push_back_body_Done in Hop as [Hs Hc].
    pose proof (wrap_le (size_ v + 1)). pose proof (grown_size_lt v).
    destruct Hv. unfold bounded. destruct Hc as [[? ->]|(? & -> & ?)]; lia.
  - apply push_back_body_Thrown in Hop as [Hs Hc].
    destruct Hv. unfold bounded. by rewrite Hs, Hc.
Qed.

Lemma Emplace_bounded num_pos init v w :
  bounded v → num_pos < size_t_modulus →
  ensures fst bounded (Emplace num_pos init v w).
Proof.
  intros Hv Hpos.
  destruct (Emplace num_pos init v w) as [[v' p] w'|ex v' w'|] eqn:Hop;
    [| |done]; simpl.
  - apply Emplace_Done in Hop as (Hs & _ & Hc).
    pose proof (wrap_le (size_ v + 1)). pose proof (grown_size_lt v).
    destruct Hc as [[? Hc]|(? & Hc & ? & ?)].
    + destruct Hv. unfold bounded. rewrite Hc. lia.
    + pose proof (grown_size_fits v num_pos Hv Hpos).
      unfold bounded. rewrite Hc. lia.
  - apply Emplace_Thrown in Hop as [Hs Hc].
    destruct Hv. unfold bounded. by rewrite Hs, Hc.
Qed.

Lemma Erase_bounded num_pos v w :
  bounded v → ensures fst bounded (Erase num_pos v w).
Proof.
  intros Hv.
  destruct (Erase num_pos v w) as [[v' p] w'|ex v' w'|] eqn:Hop;
    [| |done]; simpl.
  - apply Erase_Done in Hop as [Hc Hs]. destruct Hv as [Hle Hcap].
    unfold bounded. rewrite Hc.
    destruct Hs as [(_ & -> & _)|[Hpos Hs]]; [done|].
    pose proof (wsub_1_le _ Hpos). lia.
  - apply Erase_Thrown in Hop as [Hs Hc].
    destruct Hv. unfold bounded. by rewrite Hs, Hc.
Qed.

Lemma PopBack_bounded v w : bounded v → ensures id bounded (PopBack v w).
Proof.
  intros Hv. destruct (PopBack v w) as [v' w'|ex v' w'|] eqn:Hop;
    [| |done]; simpl.
  - apply PopBack_Done in Hop as [Hc Hs]. destruct Hv as [Hle Hcap].
    unfold bounded. rewrite Hc.
    destruct Hs as [(_ & -> & _)|[Hpos Hs]]; [done|].
    pose proof (wsub_1_le _ Hpos). lia.
  - by apply PopBack_not_Thrown in Hop.
Qed.

Lemma Reserve_bounded n v w :
  bounded v → n < size_t_modulus → ensures id bounded (Reserve n v w).
Proof.
  intros Hv Hn. destruct (Reserve n v w) as [v' w'|ex v' w'|] eqn:Hop;
    [| |done]; simpl.
  - apply Reserve_Done in Hop as [Hs Hc]. destruct Hv as [Hle Hcap].
    unfold bounded. rewrite Hs.
    destruct Hc as [(_ & -> & _)|[Hlt ->]]; [done|lia].
  - apply Reserve_Thrown in Hop as [Hs Hc].
    destruct Hv. unfold bounded. by rewrite Hs, Hc.
Qed.

Lemma Resize_bounded n v w :
  bounded v → n < size_t_modulus → ensures id bounded (Resize n v w).
Proof.
  intros Hv Hn. unfold Resize.
  destruct (n =? size_ v); [done|].
  destruct (n <? size_ v) eqn:Hlt.
  - destruct (PopBack_times _ v w) as [v' w'|ex v' w'|] eqn:Hop;
      [| |done]; simpl.
    + apply PopBack_times_Done in Hop as [Hc Hs]. destruct Hv.
      unfold bounded. rewrite Hc. lia.
    + by apply PopBack_times_not_Thrown in Hop.
  - apply N.ltb_ge in Hlt.
    pose proof (Reserve_bounded n v w Hv Hn) as Hres.
    destruct (Reserve n v w) as [v1 w1|ex v1 w1|] eqn:Hop; [|done..].
    apply Reserve_Done in Hop as [Hs Hc]. simpl in Hres.
    assert (n ≤ Capacity v1) by (destruct Hc as [(? & -> & _)|[_ ->]]; lia).
    destruct (uninitialized_value_construct_n _ _ _ _) as [b w2|ex b w2|];
      [| |done]; simpl.
    + destruct Hres. by split.
    + done.
Qed.

Lemma Vector_sized_bounded n w v' w' :
  n < size_t_modulus → Vector_sized n w = Done v' w' → bounded v'.
Proof.
  intros Hn. unfold Vector_sized.
  destruct (RawMemory_new n w) as [nd w1|?|] eqn:Hnew; [|done..].
  apply RawMemory_new_Done in Hnew as (-> & Hc & Hb).
  intros; repeat case_match; simplify_eq.
  unfold bounded, Capacity. simpl. lia.
Qed.

Lemma Vector_copy_bounded other w v' w' :
  bounded other → Vector_copy other w = Done v' w' → bounded v'.
Proof.
  intros [Hle Hcap]. unfold Vector_copy.
  destruct (RawMemory_new _ w) as [nd w1|?|] eqn:Hnew; [|done..].
  apply RawMemory_new_Done in Hnew as (-> & Hc & Hb).
  intros; repeat case_match; simplify_eq. unfold bounded, Capacity in *.
  simpl. lia.
Qed.

Lemma copy_assign_bounded this rhs w :
  bounded this → bounded rhs → ensures id bounded (copy_assign this rhs w).
Proof.
  intros Hthis Hrhs. unfold copy_assign.
  destruct (Capacity this <? size_ rhs) eqn:Hcap.
  { destruct (Vector_copy rhs w) as [c w1|?|] eqn:Hcopy; [|done..].
    apply Vector_copy_bounded in Hcopy; [|done].
    simpl. destruct (Vector_dtor _ _); simpl; try done.
    all: by destruct c as [[] ?]. }
  apply N.ltb_ge in Hcap. destruct Hthis as [Hle Hlt].
  repeat case_match; simpl; try done; unfold bounded, Capacity in *; simpl;
    try lia.
Qed.

Lemma construct_object_bounded {B} a (st : gmap nat (Vector T))
    (o : Outcome T (Vector T) B) :
  store_bounded st → (∀ v w, o = Done v w → bounded v) →
  store_ensures store_bounded (construct_object a st o).
Proof.
  intros Hst Ho. unfold construct_object. destruct (st !! a); [done|].
  destruct o as [v w|? ? ?|]; simpl; [|done..].
  apply map_Forall_insert_2; [by eapply Ho|done].
Qed.

Lemma update_object_bounded {A} a (st : gmap nat (Vector T))
    (f : Vector T → Outcome T A (Vector T)) (get : A → Vector T) :
  store_bounded st → (∀ v, bounded v → ensures get bounded (f v)) →
  store_ensures store_bounded (update_object a st f get).
Proof.
  intros Hst Hf. unfold update_object.
  destruct (st !! a) as [v|] eqn:Hv; [|done].
  specialize (Hf v (Hst _ _ Hv)).
  destruct (f v) as [r w|ex v' w|]; simpl in *; [| |done];
    by apply map_Forall_insert_2.
Qed.

Lemma swap_objects_bounded a other (st : gmap nat (Vector T)) w :
  store_bounded st → store_ensures store_bounded (swap_objects a other st w).
Proof.
  intros Hst. unfold swap_objects.
  destruct (st !! a) as [v|] eqn:Hv; [|done].
  destruct (st !! other) as [o|] eqn:Ho; [|done].
  pose proof (Hst _ _ Hv) as Hbv. pose proof (Hst _ _ Ho) as Hbo. simpl.
  repeat apply map_Forall_insert_2; [exact Hbv|exact Hbo|done].
Qed.

Lemma observe_object_bounded a (st : gmap nat (Vector T)) w :
  store_bounded st → store_ensures store_bounded (observe_object a st w).
Proof. intros Hst. unfold observe_object. by destruct (st !! a). Qed.

Lemma EmplaceBack_bounded init v w :
  bounded v → ensures fst bounded (EmplaceBack init v w).
Proof.
  intros Hv. pose proof (push_back_body_bounded init v w Hv) as Hb.
  unfold EmplaceBack. by destruct (push_back_body init v w).
Qed.

Lemma exec_bounded c (st : gmap nat (Vector T)) w :
  well_typed c → store_bounded st → store_ensures store_bounded (exec c st w).
Proof.
  intros Hc Hst. destruct c; simpl in *.
  - by apply construct_object_bounded; [|intros; simplify_eq].
  - apply construct_object_bounded; [done|].
    intros v' w'. by apply Vector_sized_bounded.
  - destruct (st !! other) as [o|] eqn:Ho; [|done].
    apply construct_object_bounded; [done|].
    intros v' w'. apply Vector_copy_bounded. by eapply Hst.
  - destruct (st !! a); [done|].
    destruct (st !! other) as [o|] eqn:Ho; [|done].
    pose proof (Hst _ _ Ho) as Hb. simpl.
    repeat apply map_Forall_insert_2; [exact Hb|done|done].
  - case_decide; [by apply observe_object_bounded|].
    destruct (st !! rhs) as [r|] eqn:Hr; [|done].
    apply update_object_bounded; [done|]. intros v Hv.
    apply copy_assign_bounded; [done|by eapply Hst].
  - by apply swap_objects_bounded.
  - destruct (st !! a) as [v|]; [|done].
    destruct (Vector_dtor v w); simpl; [| |done]; by apply map_Forall_delete.
  - by apply observe_object_bounded.
  - by apply observe_object_bounded.
  - by apply observe_object_bounded.
  - by apply observe_object_bounded.
  - destruct (st !! a) as [v|]; [|done]. by case_match.
  - apply update_object_bounded; [done|]. intros v Hv.
    by apply Reserve_bounded.
  - apply update_object_bounded; [done|]. intros v Hv.
    by apply Resize_bounded.
  - apply update_object_bounded; [done|]. intros v Hv.
    by apply push_back_body_bounded.
  - apply update_object_bounded; [done|]. intros v Hv.
    by apply push_back_body_bounded.
  - apply update_object_bounded; [done|]. intros v Hv.
    by apply EmplaceBack_bounded.
  - apply update_object_bounded; [done|]. intros v Hv.
    by apply Emplace_bounded.
  - apply update_object_bounded; [done|]. intros v Hv.
    by apply Emplace_bounded.
  - apply update_object_bounded; [done|]. intros v Hv.
    by apply Emplace_bounded.
  - apply update_object_bounded; [done|]. intros v Hv.
    by apply Erase_bounded.
  - apply update_object_bounded; [done|]. intros v Hv.
    by apply PopBack_bounded.
  - by apply swap_objects_bounded.
Qed.

Lemma reachable_bounded (st : gmap nat (Vector T)) w :
  reachable st w → store_bounded st.
Proof.
  induction 1 as [w|c st w st' w' _ IH Hc Hex|c st w x st' w' _ IH Hc Hex].
  - apply map_Forall_empty.
  - pose proof (exec_bounded c st w Hc IH) as Hb. by rewrite Hex in Hb.
  - pose proof (exec_bounded c st w Hc IH) as Hb. by rewrite Hex in Hb.
Qed.

(** ** [Erase], [PopBack] and the destructor on a well formed vector *)

Lemma Erase_spec v w l1 x l2 num_pos :
  wf v → elements v = Some (l1 ++ x :: l2) → num_pos = N.of_nat (length l1) →
  match Erase num_pos v w with
  | Done (v', p) w' =>
      ∃ ys, Forall2 move_assigned l2 ys ∧ wf v'
        ∧ elements v' = Some (l1 ++ ys) ∧ Capacity v' = Capacity v
        ∧ p = num_pos
  | Thrown _ v' w' =>
      move_assign_can_throw ∧ wf v' ∧ size_ v' = size_ v
      ∧ Capacity v' = Capacity v
  | Abort _ => False
  end.
Proof.
  intros Hwf Hel ->.
  destruct (wf_view v Hwf) as (l & rest & Hl & Hb & Hs & Hc & Hlt).
  rewrite Hel in Hl. injection Hl as <-.
  rewrite length_app in Hs, Hc. simpl in Hs, Hc.
  unfold Erase, std_move, begin_, end_.
  destruct (0 <? size_ v) eqn:Hpos; [|apply N.ltb_ge in Hpos; lia].
  replace (size_ v <? 0 + N.of_nat (length l1) + 1) with false
    by (symmetry; apply N.ltb_ge; lia).
  replace (N.to_nat (size_ v - (0 + N.of_nat (length l1) + 1)))
    with (length l2) by lia.
  rewrite Hb, fmap_app, <-app_assoc. simpl.
  pose proof (move_loop_shift l2 (Some <$> l1) x rest
    (N.of_nat (length l1) + 1) (N.of_nat (length l1)) w) as Hloop.
  rewrite !N.add_0_l.
  assert (wsub (size_ v) 1 = N.of_nat (length l1 + length l2)) as Hw
    by (rewrite wsub_le; lia).
  rewrite Hw.
  destruct (move_loop _ _ _ _ _) as [b' w'|ex b' w'|].
  - destruct Hloop as (ys & r & Hys & ->); [by rewrite length_fmap; lia|done|].
    apply Forall2_length in Hys as Hlen.
    rewrite app_assoc.
    erewrite Destroy_live; last first.
    { apply list_lookup_middle. rewrite length_app, !length_fmap. lia. }
    rewrite insert_at_length by (rewrite length_app, !length_fmap; lia).
    exists ys.
    assert ((if wrap (N.of_nat (length l1 + length l2) + 1) =? 1
             then N.of_nat (length l1 + length l2)
             else N.of_nat (length l1)) = N.of_nat (length l1)) as ->.
    { rewrite wrap_small by lia. case_match; [|done].
      apply N.eqb_eq in H. lia. }
    edestruct (view_wf
      (mkVector (mkRawMemory (((Some <$> l1) ++ (Some <$> ys)) ++ None :: rest)
         (capacity_ (data_ v))) (N.of_nat (length l1 + length l2)))
      (l1 ++ ys) (None :: rest)) as [Hwf' Hel'].
    { simpl. by rewrite fmap_app. }
    { simpl. rewrite length_app. lia. }
    { unfold Capacity, RawMemory_Capacity in *. simpl in *. rewrite length_app. lia. }
    { done. }
    by split_and!.
  - destruct Hloop as [(ys & Hlen & ->) Hthrow]; [by rewrite length_fmap; lia|done|].
    split; [done|].
    edestruct (view_wf (with_block ((Some <$> l1) ++ (Some <$> ys) ++ rest) v)
      (l1 ++ ys) rest) as [Hwf' Hel'].
    { simpl. by rewrite fmap_app, <-app_assoc. }
    { simpl. rewrite length_app. lia. }
    { unfold Capacity, RawMemory_Capacity in *. simpl in *. rewrite length_app. lia. }
    { done. }
    by split_and!.
  - apply Hloop; [by rewrite length_fmap; lia|done].
Qed.
Lemma PopBack_empty v w : size_ v = 0 → PopBack v w = Done v w.
Proof. intros Hs. unfold PopBack. by rewrite Hs. Qed.

Lemma PopBack_snoc v w l0 x :
  wf v → elements v = Some (l0 ++ [x]) →
  ∃ v' w', PopBack v w = Done v' w' ∧ wf v' ∧ elements v' = Some l0
    ∧ Capacity v' = Capacity v ∧ delta w w' [EvDestroy x] [].
Proof.
  intros Hwf Hel.
  destruct (wf_view v Hwf) as (l & rest & Hl & Hb & Hs & Hc & Hlt).
  rewrite Hel in Hl. injection Hl as <-.
  rewrite length_app in Hs, Hc. simpl in Hs, Hc.
  unfold PopBack.
  destruct (0 <? size_ v) eqn:Hpos; [|apply N.ltb_ge in Hpos; lia].
  assert (wsub (size_ v) 1 = N.of_nat (length l0)) as Hw
    by (rewrite wsub_le; lia).
  rewrite Hw, Hb, fmap_app, <-app_assoc. simpl.
  erewrite Destroy_live; last first.
  { apply list_lookup_middle. rewrite length_fmap. lia. }
  rewrite insert_at_length by (rewrite length_fmap; lia). simpl.
  eexists _, _. split; [done|].
  edestruct (view_wf
    (mkVector (mkRawMemory ((Some <$> l0) ++ None :: rest)
       (capacity_ (data_ v))) (N.of_nat (length l0)))
    l0 (None :: rest)) as [Hwf' Hel']; [done|done| |done|].
  { unfold Capacity, RawMemory_Capacity in *. simpl in *. lia. }
  split_and!; [done..|apply delta_dtor].
Qed.

Lemma PopBack_times_spec tail : ∀ v w l0,
  wf v → elements v = Some (l0 ++ tail) →
  ∃ v' w', PopBack_times (length tail) v w = Done v' w' ∧ wf v'
    ∧ elements v' = Some l0 ∧ Capacity v' = Capacity v
    ∧ delta w w' (EvDestroy <$> reverse tail) [].
Proof.
  induction tail as [|x tail IH] using rev_ind; intros v w l0 Hwf Hel.
  { exists v, w. rewrite app_nil_r in Hel. simpl.
    split_and!; [done..|apply delta_refl]. }
  rewrite length_app, Nat.add_1_r. simpl.
  rewrite app_assoc in Hel.
  destruct (PopBack_snoc v w _ x Hwf Hel) as (v1 & w1 & -> & Hwf1 & Hel1 & Hc1 & Hd1).
  destruct (IH v1 w1 l0 Hwf1 Hel1) as (v' & w' & -> & Hwf' & Hel' & Hc' & Hd').
  exists v', w'. split_and!; [done..|congruence|].
  rewrite reverse_snoc. simpl. by eapply delta_cons.
Qed.

Lemma Vector_dtor_spec v w l :
  wf v → elements v = Some l →
  ∃ w', Vector_dtor v w = Done () w'
    ∧ delta w w' (EvDestroy <$> l) (live (drop (length l) (block v))).
Proof.
  intros Hwf Hel.
  destruct (wf_view v Hwf) as (l' & rest & Hl & Hb & Hs & Hc & Hlt).
  rewrite Hel in Hl. injection Hl as <-.
  unfold Vector_dtor.
  destruct (DestroyN_live (block v) 0 (size_ v) w l) as (w' & -> & Hd).
  { rewrite Hb. simpl. apply take_app_length'. rewrite length_fmap. lia. }
  { lia. }
  eexists. split; [reflexivity|].
  rewrite <-(app_nil_r (EvDestroy <$> l)).
  apply (delta_trans _ _ _ _ [] [] (live (drop (length l) (block v))) Hd).
  replace (live (drop (length l) (block v)))
    with (live (clear (block v) (N.to_nat 0) (N.to_nat (size_ v)))).
  { apply delta_Deallocate. }
  rewrite Hb. unfold clear. rewrite take_0, app_nil_l, Nat.add_0_l.
  replace (N.to_nat (size_ v)) with (length (Some <$> l))
    by (rewrite length_fmap; lia).
  rewrite (drop_app_length' _ _ (length l)) by (by rewrite length_fmap).
  by rewrite drop_app_length, live_app, live_replicate_None.
Qed.
(** ** [Reserve] and [Resize] on a well formed vector *)

Lemma fill_app_0 (pre post : Block T) xs :
  length pre = length xs → fill (pre ++ post) 0 xs = (Some <$> xs) ++ post.
Proof.
  intros Hlen. unfold fill. rewrite take_0, Nat.add_0_l. simpl.
  by rewrite <-Hlen, drop_app_length.
Qed.

Lemma clear_app_0 (pre post : Block T) k :
  length pre = k → clear (pre ++ post) 0 k = replicate k None ++ post.
Proof.
  intros <-. unfold clear. rewrite take_0, Nat.add_0_l. simpl.
  by rewrite drop_app_length.
Qed.

Lemma take_app_fmap_Some (pre : list T) (post : Block T) n vs :
  n = length pre → take n ((Some <$> pre) ++ post) = Some <$> vs → vs = pre.
Proof.
  intros -> Htake. rewrite take_app_length' in Htake by by rewrite length_fmap.
  by apply (inj (fmap Some)) in Htake.
Qed.

Lemma constructions_construct k xs :
  constructions (EvConstruct k <$> xs) = replicate (length xs) k.
Proof. induction xs; simpl; by f_equal. Qed.

Lemma constructions_destroy xs : constructions (EvDestroy <$> xs) = [].
Proof. induction xs; simpl; by f_equal. Qed.

Lemma constructions_app evs1 evs2 :
  constructions (evs1 ++ evs2) = constructions evs1 ++ constructions evs2.
Proof. apply omap_app. Qed.

Lemma delta_eq w w' evs evs' (lk lk' : list T) :
  delta w w' evs lk → evs = evs' → lk = lk' → delta w w' evs' lk'.
Proof. by intros ? <- <-. Qed.

Lemma live_raw k d m :
  live (take k (drop d (replicate m (None : Slot T)))) = [].
Proof. by rewrite drop_replicate, take_replicate, live_replicate_None. Qed.

(** [Reserve] that reallocates.  The new block has room for [granted n]
    objects, which is [n] unless [n * sizeof(T)] wrapped; [capacity_] is [n]
    either way. *)
Lemma Reserve_grow_Done n v w l v' w' :
  wf v → elements v = Some l → Capacity v < n → n < size_t_modulus →
  Reserve n v w = Done v' w' →
  ∃ l' rs, Forall2 relocated l l' ∧ length rs = length l
    ∧ (block v'
       = (Some <$> l') ++ replicate (N.to_nat (granted n) - length l) None
       ∧ (length l ≤ N.to_nat (granted n))%nat)
    ∧ size_ v' = size_ v ∧ Capacity v' = n
    ∧ (granted n = n → wf v') ∧ elements v' = Some l'
    ∧ delta w w' ((EvConstruct relocation_kind <$> l') ++ (EvDestroy <$> rs))
        (live (drop (length l) (block v))).
Proof.
  intros Hwf Hel Hgrow Hn.
  destruct (wf_view v Hwf) as (l0 & rest & Hl & Hb & Hs & Hc & Hlt).
  rewrite Hel in Hl. injection Hl as <-.
  unfold Reserve. replace (n <=? Capacity v) with false
    by (symmetry; apply N.leb_gt; lia).
  destruct (RawMemory_new n w) as [nd w1|?|] eqn:Hnew; [|done..].
  apply RawMemory_new_Done in Hnew as (-> & Hcn & Hbn).
  destruct nd as [nbuf ncap]. simpl in Hcn, Hbn. subst nbuf ncap. simpl.
  destruct (relocate_n _ _ _ _ _ _) as [[old nb] w2|? [? ?] ?|] eqn:Hrel;
    [|done..].
  apply relocate_n_Done in Hrel
    as (vs & rs & xs & Htake & Hvs & Hrel & Hxs & Hrs & -> & Hle & -> & Hlen & Hd1).
  rewrite Hb in Htake. simpl in Htake.
  apply take_app_fmap_Some in Htake as ->; [|lia].
  rewrite Hb, fill_app_0 by (rewrite length_fmap; lia).
  destruct (DestroyN _ _ _ _) as [[old' w3]|] eqn:HD; [|done].
  apply DestroyN_Some in HD as (ds & Htake & Hds & -> & Hd2).
  simpl in Htake. apply take_app_fmap_Some in Htake as ->; [|lia].
  intros; simplify_eq.
  exists xs, rs. rewrite length_replicate in Hle.
  assert (length l ≤ N.to_nat (granted n))%nat as Hroom.
  { destruct l; [simpl; lia|]. simpl in *. lia. }
  assert (fill (replicate (N.to_nat (granted n)) None) (N.to_nat 0) xs
          = (Some <$> xs)
            ++ replicate (N.to_nat (granted n) - length l) None) as Hfill.
  { unfold fill. simpl. rewrite drop_replicate. do 2 f_equal. lia. }
  assert (elements (mkVector (mkRawMemory
     (fill (replicate (N.to_nat (granted n)) None) (N.to_nat 0) xs) n)
     (size_ v)) = Some xs) as Hel'.
  { apply elements_Some. simpl. split; [lia|].
    unfold block. simpl. rewrite Hfill.
    apply take_app_length'. by rewrite length_fmap. }
  split_and!; [done|lia|done|done|done|done| |done|].
  { intros Hg. rewrite Hg in Hfill.
    edestruct (view_wf (mkVector (mkRawMemory
       (fill (replicate (N.to_nat (granted n)) None) (N.to_nat 0) xs) n)
       (size_ v))
       xs (replicate (N.to_nat n - length l) None)) as [Hwf' _];
      [by rewrite Hg|simpl; lia| |done|done].
    unfold Capacity. simpl. rewrite length_replicate. lia. }
  rewrite live_raw in Hd1.
  eapply delta_eq.
  { eapply delta_trans; [eapply delta_trans; [exact Hd1|exact Hd2]|].
    apply delta_Deallocate. }
  { by rewrite app_nil_r. }
  simpl. rewrite clear_app_0 by (rewrite length_fmap; lia).
  rewrite live_app, live_replicate_None. simpl.
  by rewrite (drop_app_length' _ _ (length l)) by (by rewrite length_fmap).
Qed.

Lemma fill_app_length (pre post : Block T) d xs :
  d = length pre →
  fill (pre ++ post) d xs = pre ++ (Some <$> xs) ++ drop (length xs) post.
Proof.
  intros ->. unfold fill. rewrite take_app_length. do 2 f_equal.
  by rewrite drop_app_add.
Qed.

Lemma Reserve_keep n v w : n ≤ Capacity v → Reserve n v w = Done v w.
Proof.
  intros Hn. unfold Reserve.
  by replace (n <=? Capacity v) with true by (symmetry; by apply N.leb_le).
Qed.

(** A growing [Resize] value constructs the slots up to [n] of the block
    [Reserve] obtained: when that returns, the block has room for [n]
    objects, so the byte count [Reserve] asked for did not wrap. *)
Lemma Resize_grow_granted n v w l v1 w1 b w2 :
  wf v → elements v = Some l → Capacity v < n → n < size_t_modulus →
  size_ v < n → Reserve n v w = Done v1 w1 →
  uninitialized_value_construct_n (block v1) (size_ v) (wsub n (size_ v)) w1
    = Done b w2 →
  granted n = n.
Proof.
  intros Hwf Hel Hgrow Hn Hlt Hres Hcons.
  destruct (wf_view v Hwf) as (l0 & rest & Hl & _ & Hs & _).
  rewrite Hel in Hl. injection Hl as <-.
  apply (Reserve_grow_Done n v w l) in Hres
    as (l' & rs & Hrel & _ & [Hb1 Hroom] & _); [|done..].
  apply Forall2_length in Hrel.
  apply uninitialized_value_construct_n_Done in Hcons
    as (xs & Hlxs & Hbound & _).
  rewrite wsub_le in Hlxs, Hbound by lia.
  rewrite Hb1, length_app, length_fmap, length_replicate in Hbound.
  apply granted_full. lia.
Qed.

(** When [Resize] has reserved and has constructed the tail, the vector
    [Reserve] left was well formed. *)
Lemma Resize_Reserve_Done n v w l v1 w1 b w2 :
  wf v → elements v = Some l → n < size_t_modulus → size_ v < n →
  Reserve n v w = Done v1 w1 →
  uninitialized_value_construct_n (block v1) (size_ v) (wsub n (size_ v)) w1
    = Done b w2 →
  ∃ l1, wf v1 ∧ elements v1 = Some l1 ∧ size_ v1 = size_ v
    ∧ Capacity v1 = N.max (Capacity v) n.
Proof.
  intros Hwf Hel Hn Hlt Hres Hcons.
  destruct (decide (n ≤ Capacity v)) as [Hkeep|Hgrow].
  - rewrite Reserve_keep in Hres by done. injection Hres as <- <-.
    exists l. split_and!; [done..|lia].
  - pose proof (Resize_grow_granted n v w l v1 w1 b w2 Hwf Hel
                  ltac:(lia) Hn Hlt Hres Hcons) as Hgranted.
    apply (Reserve_grow_Done n v w l) in Hres
      as (l' & rs & _ & _ & _ & ? & ? & Hwf1 & ? & _);
      [|done|done|lia|done].
    exists l'. split_and!; [by apply Hwf1|done..|lia].
Qed.

(** The tail [Resize] constructs after reserving. *)
Lemma value_construct_tail n v w l b w' :
  wf v → elements v = Some l → size_ v < n → n ≤ Capacity v →
  uninitialized_value_construct_n (block v) (size_ v) (wsub n (size_ v)) w
    = Done b w' →
  ∃ ds, N.of_nat (length ds) = n - size_ v
    ∧ wf (mkVector (mkRawMemory b (capacity_ (data_ v))) n)
    ∧ elements (mkVector (mkRawMemory b (capacity_ (data_ v))) n)
      = Some (l ++ ds)
    ∧ trace w' = trace w ++ (EvConstruct ByDefault <$> ds).
Proof.
  intros Hwf Hel Hlt Hle Hcons.
  destruct (wf_view v Hwf) as (l0 & rest & Hl & Hb & Hs & Hc & Hcap).
  rewrite Hel in Hl. injection Hl as <-.
  rewrite wsub_le in Hcons by lia.
  apply uninitialized_value_construct_n_Done in Hcons
    as (ds & Hds & Hin & -> & Hd).
  exists ds. rewrite Hb in *.
  rewrite fill_app_length in * by (rewrite length_fmap; lia).
  rewrite length_app, length_fmap in Hin.
  edestruct (view_wf (mkVector (mkRawMemory
     ((Some <$> l) ++ (Some <$> ds) ++ drop (length ds) rest)
     (capacity_ (data_ v))) n) (l ++ ds) (drop (length ds) rest))
    as [Hwf' Hel'].
  { simpl. by rewrite fmap_app, <-app_assoc. }
  { simpl. rewrite length_app. lia. }
  { unfold Capacity, RawMemory_Capacity in *. simpl.
    rewrite length_app, length_drop. lia. }
  { done. }
  split_and!; [lia|done|done|by destruct Hd].
Qed.

(** ** Reallocating pushes and inserts *)

Lemma fresh_block_insert (m p : nat) (s : Slot T) :
  (p < m)%nat →
  <[p:=s]> (replicate m None)
  = replicate p None ++ s :: replicate (m - S p) None.
Proof.
  intros Hp. replace m with (p + S (m - S p))%nat at 1 by lia.
  rewrite replicate_add. simpl.
  apply insert_at_length. by rewrite length_replicate.
Qed.

(** The new block after the new element is constructed at [num_pos]. *)
Lemma construct_at_fresh_Done (m num_pos : N) init w nb w' :
  construct_at (replicate (N.to_nat m) None) num_pos init w = Done nb w' →
  ∃ x, initialises init x ∧ num_pos < m
    ∧ nb = replicate (N.to_nat num_pos) None
           ++ Some x :: replicate (N.to_nat m - S (N.to_nat num_pos)) None
    ∧ delta w w' [EvConstruct (init_kind init) x] [].
Proof.
  intros (s & x & Hs & -> & Hi & Hd)%construct_at_Done.
  apply lookup_lt_Some in Hs as Hlt. rewrite length_replicate in Hlt.
  apply lookup_replicate in Hs as [-> _].
  exists x. split_and!; [done|lia|by apply fresh_block_insert|done].
Qed.

(** A vector whose capacity is exhausted has no spare slot. *)
Lemma wf_full_view v l :
  wf v → elements v = Some l → Capacity v ≤ size_ v →
  block v = Some <$> l ∧ size_ v = N.of_nat (length l)
  ∧ Capacity v = size_ v ∧ size_ v < size_t_modulus.
Proof.
  intros Hwf Hel Hfull.
  destruct (wf_view v Hwf) as (l0 & rest & Hl & Hb & Hs & Hc & Hcap).
  rewrite Hel in Hl. injection Hl as <-.
  destruct rest; [|simpl in Hc; lia].
  rewrite app_nil_r in Hb. split_and!; [done|done|lia|lia].
Qed.

Lemma Emplace_realloc_Done num_pos init v w l1 l2 v' p w' :
  wf v → elements v = Some (l1 ++ l2) → num_pos = N.of_nat (length l1) →
  Capacity v ≤ size_ v →
  Emplace num_pos init v w = Done (v', p) w' →
  ∃ x l1' l2' rs, initialises init x
    ∧ Forall2 relocated l1 l1' ∧ Forall2 relocated l2 l2'
    ∧ length rs = length (l1 ++ l2)
    ∧ wf v' ∧ elements v' = Some (l1' ++ x :: l2')
    ∧ Capacity v' = grown_size v ∧ p = num_pos
    ∧ delta w w' (EvConstruct (init_kind init) x
                  :: (EvConstruct relocation_kind <$> (l1' ++ l2'))
                  ++ (EvDestroy <$> rs)) [].
Proof.
  intros Hwf Hel -> Hfull.
  destruct (wf_full_view v _ Hwf Hel Hfull) as (Hb & Hs & Hc & Hlt).
  rewrite length_app in Hs.
  intros Hop.
  assert (granted (grown_size v) = grown_size v) as Hgranted.
  { apply (Emplace_Done_granted (N.of_nat (length l1)) init v w v' p w');
      [split; lia|lia|done|done]. }
  revert Hop. unfold Emplace, begin_, end_.
  replace (size_ v <? Capacity v) with false
    by (symmetry; apply N.ltb_ge; lia).
  destruct (RawMemory_new (grown_size v) w) as [nd w1|?|] eqn:Hnew; [|done..].
  apply RawMemory_new_Done in Hnew as (-> & Hcn & Hbn).
  rewrite Hgranted in Hbn.
  destruct nd as [nbuf ncap]. simpl in Hcn, Hbn. subst nbuf ncap. simpl.
  destruct (construct_at _ _ _ _) as [nb w2|?|] eqn:Hcon; [|done..].
  apply construct_at_fresh_Done in Hcon as (x & Hx & Hpm & -> & Hd0).
  pose proof (grown_size_lt v) as Hg.
  destruct (relocate_n (block v) _ _ _ _ _) as [[old nb1] w3|? [? ?] ?|] eqn:Hpre;
    [|destruct (Destroy _ _ _) as [[]|]; done|done].
  apply relocate_n_Done in Hpre
    as (vs1 & rs1 & xs1 & Htake1 & Hvs1 & Hrel1 & Hxs1 & Hrs1 & -> & _ & -> & _ & Hd1).
  rewrite !Nat2N.id in *. change (N.to_nat 0) with 0%nat in *.
  rewrite Hb, fmap_app in *. rewrite drop_0 in *.
  rewrite take_app_length' in Htake1 by (by rewrite length_fmap).
  apply (inj (fmap Some)) in Htake1 as <-.
  rewrite take_app_length' in Hd1 by (by rewrite length_replicate).
  rewrite live_replicate_None in Hd1.
  rewrite !fill_app_0 by (rewrite ?length_replicate, ?length_fmap; lia).
  set (R := replicate (N.to_nat (grown_size v) - S (length l1)) None) in *.
  rewrite N.add_0_l.
  assert (wsub (size_ v) (N.of_nat (length l1)) = N.of_nat (length l2)) as ->
    by (rewrite wsub_le; lia).
  rewrite (wrap_small (N.of_nat (length l1) + 1)) by lia.
  destruct (relocate_n _ _ _ _ _ _) as [[old' nb2] w4|? [? ?] ?|] eqn:Hsuf;
    [|destruct (DestroyN _ _ _ _) as [[]|]; done|done].
  apply relocate_n_Done in Hsuf
    as (vs2 & rs2 & xs2 & Htake2 & Hvs2 & Hrel2 & Hxs2 & Hrs2 & -> & Hin & -> & Hlen2 & Hd2).
  rewrite !Nat2N.id in *.
  replace (N.to_nat (N.of_nat (length l1) + 1)) with (S (length l1)) in * by lia.
  rewrite (drop_app_length' _ _ (length l1)) in Htake2
    by (rewrite length_fmap; lia).
  rewrite take_ge in Htake2 by (rewrite length_fmap; lia).
  apply (inj (fmap Some)) in Htake2 as <-.
  assert (length ((Some <$> xs1) ++ Some x :: R) = N.to_nat (grown_size v))
    as HlenR.
  { rewrite length_app, length_fmap. simpl. unfold R.
    rewrite length_replicate. lia. }
  assert (size_ v + 1 ≤ grown_size v) as Hfit.
  { rewrite HlenR in Hin.
    destruct l2 as [|u l2]; simpl in *; lia. }
  rewrite (wrap_small (size_ v + 1)) by lia.
  rewrite (fill_app_length (Some <$> rs1)) by (by rewrite length_fmap).
  rewrite (drop_ge (Some <$> l2)) by (rewrite length_fmap; lia).
  rewrite app_nil_r.
  replace ((Some <$> xs1) ++ Some x :: R)
    with (((Some <$> xs1) ++ [Some x]) ++ R) in * by by rewrite <-app_assoc.
  rewrite (fill_app_length ((Some <$> xs1) ++ [Some x]))
    by (rewrite length_app, length_fmap; simpl; lia).
  rewrite (drop_app_length' _ _ (S (length l1))) in Hd2
    by (rewrite length_app, length_fmap; simpl; lia).
  unfold R in Hd2. rewrite take_replicate, live_replicate_None in Hd2.
  destruct (DestroyN _ _ _ _) as [[old'' w5]|] eqn:HD; [|done].
  apply DestroyN_Some in HD as (ds & Htake & Hds & -> & Hd3).
  change (N.to_nat 0) with 0%nat in *. rewrite drop_0 in Htake.
  rewrite <-fmap_app in Htake.
  rewrite take_ge in Htake by (rewrite length_fmap, length_app; lia).
  apply (inj (fmap Some)) in Htake as <-.
  intros [= <- <- <-].
  exists x, xs1, xs2, (rs1 ++ rs2).
  edestruct (view_wf (mkVector (mkRawMemory
     (((Some <$> xs1) ++ [Some x]) ++ (Some <$> xs2) ++ drop (length xs2) R)
     (grown_size v)) (size_ v + 1))
     (xs1 ++ x :: xs2) (drop (length xs2) R)) as [Hwf' Hel'].
  { simpl. by rewrite fmap_app, <-!app_assoc. }
  { simpl. rewrite length_app. simpl. lia. }
  { unfold Capacity. simpl. rewrite length_app, length_drop. simpl.
    unfold R. rewrite length_replicate. lia. }
  { done. }
  split_and!; [done|done|done|rewrite !length_app; lia|done|done|done|done|].
  eapply delta_eq.
  { eapply delta_trans; [eapply delta_trans; [eapply delta_trans;
      [eapply delta_trans; [exact Hd0|exact Hd1]|exact Hd2]|exact Hd3]|].
    apply delta_Deallocate. }
  { simpl. by rewrite app_nil_r, (fmap_app _ xs1). }
  simpl. unfold clear.
  rewrite take_0, drop_ge by (rewrite length_app, !length_fmap; lia).
  by rewrite app_nil_l, app_nil_r, live_replicate_None.
Qed.

Lemma push_back_body_Thrown_unchanged init v w ex v' w' :
  is_nothrow_move_constructible = true ∨ is_copy_constructible = true →
  Capacity v ≤ size_ v →
  push_back_body init v w = Thrown ex v' w' → v' = v.
Proof.
  intros Hpolicy Hfull. unfold push_back_body.
  replace (size_ v <? Capacity v) with false
    by (symmetry; apply N.ltb_ge; lia).
  destruct (RawMemory_new _ w) as [nd w1|?|] eqn:Hnew;
    [|by intros; simplify_eq|done].
  destruct (construct_at _ _ _ _) as [nb w2|?|] eqn:Hcon;
    [|by intros; simplify_eq|done].
  destruct (relocate_n _ _ _ _ _ _) as [[old nb1] w3|? [old nb1] w3|] eqn:Hrel;
    [destruct (DestroyN _ _ _ _) as [[]|]; done| |done].
  apply relocate_n_Thrown in Hrel as (xs & _ & _ & _ & Hnt & Hsrc & _).
  intros; simplify_eq.
  destruct Hpolicy as [?|Hcc]; [congruence|].
  rewrite (Hsrc Hcc). apply with_block_block.
Qed.

Lemma Emplace_realloc_Thrown num_pos init v w l ex v' w' :
  is_nothrow_move_constructible = true ∨ is_copy_constructible = true →
  wf v → elements v = Some l → Capacity v ≤ size_ v →
  num_pos ≤ size_ v → size_ v + 1 < size_t_modulus →
  Emplace num_pos init v w = Thrown ex v' w' →
  v' = v ∧ leaked w' = leaked w.
Proof.
  intros Hpolicy Hwf Hel Hfull Hpos Hrange.
  destruct (wf_full_view v _ Hwf Hel Hfull) as (Hb & Hs & Hc & Hlt).
  unfold Emplace, begin_, end_.
  replace (size_ v <? Capacity v) with false
    by (symmetry; apply N.ltb_ge; lia).
  destruct (RawMemory_new (grown_size v) w) as [nd w1|? ? w1|] eqn:Hnew;
    [| |done].
  2:{ apply RawMemory_new_Thrown in Hnew as [-> _]. by intros; simplify_eq. }
  apply RawMemory_new_Done in Hnew as (-> & Hcn & Hbn).
  destruct nd as [nbuf ncap]. simpl in Hcn, Hbn. subst nbuf ncap. simpl.
  destruct (construct_at _ _ _ _) as [nb w2|? nb w2|] eqn:Hcon; [| |done].
  2:{ apply construct_at_Thrown in Hcon as (-> & _ & _ & Hlk & _).
      intros; simplify_eq. split; [done|]. simpl.
      by rewrite live_replicate_None, Hlk, !app_nil_r. }
  apply construct_at_fresh_Done in Hcon as (x & Hx & Hpm & -> & Hd0).
  set (p := N.to_nat num_pos) in *.
  set (R := replicate (N.to_nat (granted (grown_size v)) - S p) None) in *.
  destruct (relocate_n (block v) _ _ _ _ _)
    as [[old nb1] w3|ex1 [old nb1] w3|] eqn:Hpre; [| |done].
  - (* the prefix is in place *)
    apply relocate_n_Done in Hpre
      as (vs1 & rs1 & xs1 & _ & _ & _ & Hxs1 & _ & _ & _ & -> & _ & _).
    change (N.to_nat 0) with 0%nat. fold p in Hxs1.
    rewrite fill_app_0 by (rewrite length_replicate; lia).
    rewrite N.add_0_l.
    destruct (relocate_n old _ _ _ _ _)
      as [[old' nb2] w4|ex2 [old' nb2] w4|] eqn:Hsuf;
      [destruct (DestroyN _ _ _ _) as [[]|]; done| |done].
    apply relocate_n_Thrown in Hsuf as (xs & Hlen & Hin & -> & _).
    rewrite wsub_le in * by lia.
    rewrite (wrap_small (num_pos + 1)) in * by lia.
    replace (N.to_nat (num_pos + 1)) with (S p) in * by lia.
    rewrite (wrap_small (size_ v - num_pos + 1)) by lia.
    destruct (DestroyN _ _ _ _) as [[nb3 w5]|] eqn:HD; [|done].
    exfalso. apply DestroyN_Some in HD as (ds & Htake & Hds & _).
    rewrite length_app, length_fmap in Hin. simpl in Hin.
    replace ((Some <$> xs1) ++ Some x :: R)
      with (((Some <$> xs1) ++ [Some x]) ++ R) in Htake
      by by rewrite <-app_assoc.
    unfold clear in Htake.
    rewrite take_app_length' in Htake
      by (rewrite length_app, length_fmap; simpl; lia).
    rewrite (drop_app_add' ((Some <$> xs1) ++ [Some x]) R (S p)) in Htake
      by (rewrite length_app, length_fmap; simpl; lia).
    rewrite <-(app_assoc (Some <$> xs1)) in Htake. fold p in Htake.
    rewrite (drop_app_length' _ _ p) in Htake by (rewrite length_fmap; lia).
    replace (N.to_nat (size_ v - num_pos + 1))
      with (S (S (N.to_nat (size_ v - num_pos) - 1))) in Htake, Hds by lia.
    destruct ds as [|d1 [|d2 ds]]; [done..|].
    destruct xs as [|u xs]; simpl in Htake; [|by simplify_eq].
    unfold R in Htake, Hin. rewrite length_replicate in Hin.
    destruct (N.to_nat (granted (grown_size v)) - S p)%nat eqn:Hm; [lia|].
    simpl in Htake. by simplify_eq.
  - (* the prefix transfer throws *)
    apply relocate_n_Thrown in Hpre as (xs & Hlen & Hin & -> & Hnt & Hsrc & Hd1).
    change (N.to_nat 0) with 0%nat in *. rewrite drop_0 in Hd1. fold p in Hlen.
    assert (take (length xs) (replicate p None ++ Some x :: R)
            = replicate (length xs) (None : Slot T)) as Hraw.
    { rewrite take_app_le by (rewrite length_replicate; lia).
      rewrite take_replicate. f_equal. lia. }
    rewrite Hraw, live_replicate_None in Hd1.
    rewrite clear_raw by (by rewrite drop_0).
    destruct (Destroy _ _ _) as [[nb2 w4]|] eqn:HD; [|done].
    apply Destroy_Some in HD as (y & _ & -> & Hd2).
    intros; simplify_eq. fold p.
    rewrite insert_at_length by (by rewrite length_replicate).
    split.
    + destruct Hpolicy as [?|Hcc]; [congruence|].
      rewrite (Hsrc Hcc). apply with_block_block.
    + destruct Hd0 as (_ & Hl0 & _), Hd1 as (_ & Hl1 & _),
        Hd2 as (_ & Hl2 & _).
      unfold Deallocate, leak. cbn [leaked].
      rewrite Hl2, Hl1, Hl0, live_app, live_replicate_None, live_cons.
      unfold R. by rewrite live_replicate_None, !app_nil_r.
Qed.

Lemma push_back_body_realloc_Done init v w l v' w' :
  wf v → elements v = Some l → Capacity v ≤ size_ v →
  push_back_body init v w = Done v' w' →
  ∃ x l' rs, initialises init x ∧ Forall2 relocated l l'
    ∧ length rs = length l
    ∧ wf v' ∧ elements v' = Some (l' ++ [x])
    ∧ Capacity v' = grown_size v
    ∧ delta w w' (EvConstruct (init_kind init) x
                  :: (EvConstruct relocation_kind <$> l')
                  ++ (EvDestroy <$> rs)) [].
Proof.
  intros Hwf Hel Hfull.
  destruct (wf_full_view v _ Hwf Hel Hfull) as (Hb & Hs & Hc & Hlt).
  intros Hop.
  pose proof (push_back_body_Done_granted init v w v' w' Hfull Hop)
    as Hgranted.
  revert Hop. unfold push_back_body.
  replace (size_ v <? Capacity v) with false
    by (symmetry; apply N.ltb_ge; lia).
  destruct (RawMemory_new (grown_size v) w) as [nd w1|?|] eqn:Hnew; [|done..].
  apply RawMemory_new_Done in Hnew as (-> & Hcn & Hbn).
  rewrite Hgranted in Hbn.
  destruct nd as [nbuf ncap]. simpl in Hcn, Hbn. subst nbuf ncap. simpl.
  destruct (construct_at _ _ _ _) as [nb w2|?|] eqn:Hcon; [|done..].
  apply construct_at_fresh_Done in Hcon as (x & Hx & Hpm & -> & Hd0).
  pose proof (grown_size_lt v) as Hg.
  destruct (relocate_n (block v) _ _ _ _ _) as [[old nb1] w3|? [? ?] ?|] eqn:Hrel;
    [|done..].
  apply relocate_n_Done in Hrel
    as (vs & rs & xs & Htake & Hvs & Hrel & Hxs & Hrs & -> & _ & -> & _ & Hd1).
  change (N.to_nat 0) with 0%nat in *. rewrite Hb in *. rewrite drop_0 in *.
  rewrite take_ge in Htake by (rewrite length_fmap; lia).
  apply (inj (fmap Some)) in Htake as <-.
  rewrite take_app_length' in Hd1 by (rewrite length_replicate; lia).
  rewrite live_replicate_None in Hd1.
  rewrite !fill_app_0 by (rewrite ?length_replicate, ?length_fmap; lia).
  set (R := replicate (N.to_nat (grown_size v) - S (N.to_nat (size_ v))) None).
  rewrite (wrap_small (size_ v + 1)) by lia.
  assert (fill (Some <$> l) 0 rs = Some <$> rs) as ->.
  { unfold fill. rewrite take_0, drop_ge by (rewrite length_fmap; lia).
    by rewrite app_nil_r. }
  destruct (DestroyN _ _ _ _) as [[old'' w4]|] eqn:HD; [|done].
  apply DestroyN_Some in HD as (ds & Htake & Hds & -> & Hd2).
  change (N.to_nat 0) with 0%nat in *. rewrite drop_0 in Htake.
  rewrite take_ge in Htake by (rewrite length_fmap; lia).
  apply (inj (fmap Some)) in Htake as <-.
  intros [= <- <-].
  exists x, xs, rs.
  edestruct (view_wf (mkVector (mkRawMemory ((Some <$> xs) ++ Some x :: R)
     (grown_size v)) (size_ v + 1)) (xs ++ [x]) R) as [Hwf' Hel'].
  { simpl. by rewrite fmap_app, <-app_assoc. }
  { simpl. rewrite length_app. simpl. lia. }
  { unfold Capacity. simpl. rewrite length_app. simpl.
    unfold R. rewrite length_replicate. lia. }
  { done. }
  split_and!; [done|done|lia|done|done|done|].
  eapply delta_eq.
  { eapply delta_trans; [eapply delta_trans; [eapply delta_trans;
      [exact Hd0|exact Hd1]|exact Hd2]|].
    apply delta_Deallocate. }
  { simpl. by rewrite app_nil_r. }
  simpl. unfold clear.
  rewrite take_0, drop_ge by (rewrite !length_fmap; lia).
  by rewrite app_nil_l, app_nil_r, live_replicate_None.
Qed.

(** ** Inserts into spare capacity *)

Lemma move_assigned_value `{!ValueSemantics T} vs ys :
  Forall2 move_assigned vs ys → ys = vs.
Proof.
  induction 1 as [|u y vs ys (d & e & r & e' & Ha) _ IH]; [done|].
  f_equal; [|done]. by eapply assign_move_value.
Qed.

Lemma move_construct_within_up pre (z : T) (s : Slot T) post i j w b' w' :
  N.to_nat i = length pre → j = i + 1 →
  move_construct_within (pre ++ Some z :: s :: post) i j w = Done b' w' →
  ∃ z' r, moved z z' ∧ b' = pre ++ Some r :: Some z' :: post.
Proof.
  intros Hi ->. unfold move_construct_within, slot_at, store_at.
  rewrite to_nat_succ, Hi.
  destruct (lookup_pair pre (Some z) s post) as [-> ->].
  destruct (call_ctor_move z w) as [[x r] w1|?|] eqn:Hc; [|done..].
  apply call_ctor_move_Done in Hc as [Hm _].
  intros [= <- <-]. exists x, r. split; [done|].
  by destruct (insert_pair pre (Some z) s (Some r) (Some x) post) as [_ ->].
Qed.

Lemma move_assign_from_Done pre (d : T) post j value w b' r w' :
  N.to_nat j = length pre →
  move_assign_from (pre ++ Some d :: post) j value w = Done (b', r) w' →
  ∃ d', move_assigned value d' ∧ b' = pre ++ Some d' :: post.
Proof.
  intros Hj. unfold move_assign_from, slot_at, store_at.
  rewrite Hj, list_lookup_middle by done.
  pose proof (call_assign_move_spec d value w) as Hcall.
  destruct (call_assign_move d value w) as [[d' r'] w1|? [? ?] ?|]; [|done..].
  destruct Hcall as [Hm _]. intros [= <- <- <-]. exists d'.
  split; [done|]. by apply insert_at_length.
Qed.

Lemma Emplace_in_place_Done `{!ValueSemantics T}
    num_pos init v w l1 l2 v' p w' :
  wf v → elements v = Some (l1 ++ l2) → num_pos = N.of_nat (length l1) →
  size_ v < Capacity v →
  Emplace num_pos init v w = Done (v', p) w' →
  ∃ x, initialises init x ∧ wf v' ∧ elements v' = Some (l1 ++ x :: l2)
    ∧ Capacity v' = Capacity v ∧ p = num_pos.
Proof.
  intros Hwf Hel -> Hspare.
  destruct (wf_view v Hwf) as (l & rest & Hl & Hb & Hs & Hc & Hlt).
  rewrite Hel in Hl. injection Hl as <-.
  destruct rest as [|s rest]; [rewrite Nat.add_0_r in Hc; lia|].
  rewrite length_app in Hs, Hc. simpl in Hc.
  unfold Emplace, begin_, end_.
  replace (size_ v <? Capacity v) with true
    by (symmetry; apply N.ltb_lt; lia).
  rewrite !N.add_0_l.
  destruct l2 as [|z m _] using rev_ind.
  - (* pos == end() *)
    rewrite app_nil_r in *. simpl in Hs.
    replace (N.of_nat (length l1) =? size_ v) with true
      by (symmetry; apply N.eqb_eq; lia).
    destruct (construct_at _ _ _ _) as [b w1|?|] eqn:Hcon; [|done..].
    apply construct_at_Done in Hcon as (s' & x & _ & -> & Hx & _).
    intros [= <- <- <-]. exists x.
    rewrite Hb, insert_at_length by (rewrite length_fmap; lia).
    edestruct (view_wf (mkVector (mkRawMemory ((Some <$> l1) ++ Some x :: rest)
       (capacity_ (data_ v))) (wrap (size_ v + 1))) (l1 ++ [x]) rest)
      as [Hwf' Hel'].
    { simpl. by rewrite fmap_app, <-app_assoc. }
    { simpl. rewrite length_app, wrap_small; simpl; lia. }
    { unfold Capacity, RawMemory_Capacity in *. simpl in *.
      rewrite length_app. simpl. lia. }
    { done. }
    by split_and!.
  - (* pos != end() *)
    rewrite length_app in Hs, Hc. simpl in Hs, Hc.
    replace (N.of_nat (length l1) =? size_ v) with false
      by (symmetry; apply N.eqb_neq; lia).
    destruct (call_ctor init w) as [value w1|?|] eqn:Hctor; [|done..].
    apply call_ctor_Done in Hctor as [Hx _].
    replace (size_ v =? 0) with false by (symmetry; apply N.eqb_neq; lia).
    replace (size_ v - 1) with (N.of_nat (length l1 + length m)) by lia.
    rewrite Hb, !fmap_app, !app_assoc, <-(app_assoc _ [Some z]). simpl.
    rewrite <-fmap_app.
    destruct (move_construct_within _ _ _ _) as [b1 w2|?|] eqn:Hmc; [|done..].
    apply move_construct_within_up in Hmc as (z' & r & Hz & ->);
      [|rewrite length_fmap, length_app; lia|lia].
    assert (z' = z) as ->.
    { destruct Hz as (e & r' & e' & Hm). by eapply ctor_move_value. }
    unfold std_move_backward.
    replace (N.of_nat (length l1 + length m) <? N.of_nat (length l1))
      with false by (symmetry; apply N.ltb_ge; lia).
    replace (N.to_nat (N.of_nat (length l1 + length m) - N.of_nat (length l1)))
      with (length m) by lia.
    rewrite fmap_app, <-app_assoc.
    pose proof (move_backward_loop_shift m (Some <$> l1) r (Some z :: rest)
                  (N.of_nat (length l1 + length m)) (size_ v) w2) as Hloop.
    destruct (move_backward_loop _ _ _ _ _) as [b2 w3|?|]; [|done..].
    destruct Hloop as (r' & ys & Hys & ->); [rewrite length_fmap; lia|lia|].
    apply move_assigned_value in Hys as ->.
    destruct (move_assign_from _ _ _ _) as [[b3 rr] w4|? [? ?] ?|] eqn:Hma;
      [|done..].
    apply move_assign_from_Done in Hma as (d' & Hd' & ->);
      [|rewrite length_fmap; lia].
    assert (d' = value) as ->.
    { destruct Hd' as (d & e & r0 & e' & Ha). by eapply assign_move_value. }
    intros [= <- <- <-]. exists value.
    edestruct (view_wf (mkVector (mkRawMemory
       ((Some <$> l1) ++ Some value :: (Some <$> m) ++ Some z :: rest)
       (capacity_ (data_ v))) (wrap (size_ v + 1)))
       (l1 ++ value :: m ++ [z]) rest) as [Hwf' Hel'].
    { simpl. rewrite !fmap_app. simpl. rewrite fmap_app. simpl.
      rewrite <-!app_assoc. simpl. by rewrite <-!app_assoc. }
    { simpl. rewrite !length_app, wrap_small; simpl;
        rewrite ?length_app; simpl; lia. }
    { unfold Capacity, RawMemory_Capacity in *. simpl in *.
      rewrite !length_app. simpl. rewrite length_app. simpl. lia. }
    { done. }
    by split_and!.
Qed.

(** ** Calls that return *)

(** [Erase] at a valid position of a well formed vector has a defined
    result; it throws only if a move assignment of the element type does. *)
Lemma Erase_valid num_pos v w :
  wf v → num_pos < size_ v →
  match Erase num_pos v w with
  | Done _ _ => True
  | Thrown _ _ _ => move_assign_can_throw
  | Abort _ => False
  end.
Proof.
  intros Hwf Hpos.
  destruct (wf_view v Hwf) as (l & rest & Hl & Hb & Hs & Hc & Hlt).
  destruct (l !! N.to_nat num_pos) as [x|] eqn:Hx;
    [|apply lookup_ge_None in Hx; lia].
  pose proof (Erase_spec v w (take (N.to_nat num_pos) l) x
                (drop (S (N.to_nat num_pos)) l) num_pos Hwf) as Hspec.
  rewrite take_drop_middle in Hspec by done.
  rewrite length_take_le in Hspec by lia.
  specialize (Hspec Hl ltac:(lia)).
  destruct (Erase num_pos v w) as [[v' p] w'|ex v' w'|]; [done| |done].
  by destruct Hspec.
Qed.

(** For an element type none of whose operations throws, the calls below
    return whenever the allocator grants the storage they ask for. *)
Section Returns.
Context `{!NoThrow T}.
Local Set Default Proof Using "Type*".

Lemma call_ctor_returns init w :
  ∃ x w', call_ctor init w = Done x w' ∧ alloc_limit w' = alloc_limit w.
Proof.
  destruct init as [u|u|a]; simpl.
  - unfold call_ctor_copy. destruct (ctor_copy_nothrow u (env w)) as [x Hx].
    destruct (ctor_copy u (env w)) as [? e]. simpl in Hx. subst. eauto.
  - unfold call_ctor_move. destruct (ctor_move_nothrow u (env w)) as [x Hx].
    destruct (ctor_move u (env w)) as [[? r] e]. simpl in Hx. subst. eauto.
  - unfold call_ctor_args. destruct (ctor_args_nothrow a (env w)) as [x Hx].
    destruct (ctor_args a (env w)) as [? e]. simpl in Hx. subst. eauto.
Qed.

Lemma construct_at_returns b i init w :
  (N.to_nat i < length b)%nat →
  ∃ b' w', construct_at b i init w = Done b' w'
    ∧ alloc_limit w' = alloc_limit w.
Proof.
  intros Hi. unfold construct_at, slot_at.
  destruct (lookup_lt_is_Some_2 b _ Hi) as [s ->].
  destruct (call_ctor_returns init w) as (x & w' & -> & Ha). eauto.
Qed.

Lemma uninitialized_copy_loop_returns n : ∀ src first dst cur w vs,
  take n (drop (N.to_nat first) src) = Some <$> vs → length vs = n →
  (N.to_nat cur + n ≤ length dst)%nat →
  ∃ dst' w', uninitialized_copy_loop src first n dst cur w = Done dst' w'.
Proof.
  induction n as [|n IH]; intros src first dst cur w vs Htake Hlen Hle; simpl.
  { eauto. }
  destruct vs as [|u vs]; [done|]. simpl in Htake, Hlen.
  apply take_drop_cons in Htake as [Hu Htake].
  unfold slot_at. rewrite Hu.
  destruct (construct_at_returns dst cur (ICopy u) w) as (d1 & w1 & Hc & _);
    [lia|].
  rewrite Hc. apply construct_at_Done in Hc as (s & x & _ & -> & _).
  apply (IH _ _ _ _ _ vs).
  - by rewrite to_nat_succ.
  - lia.
  - rewrite length_insert. lia.
Qed.

Lemma uninitialized_move_loop_returns n : ∀ src first dst cur w vs,
  take n (drop (N.to_nat first) src) = Some <$> vs → length vs = n →
  (N.to_nat cur + n ≤ length dst)%nat →
  ∃ r w', uninitialized_move_loop src first n dst cur w = Done r w'.
Proof.
  induction n as [|n IH]; intros src first dst cur w vs Htake Hlen Hle; simpl.
  { eauto. }
  destruct vs as [|u vs]; [done|]. simpl in Htake, Hlen.
  apply take_drop_cons in Htake as [Hu Htake].
  unfold move_construct_at, slot_at. rewrite Hu.
  destruct (lookup_lt_is_Some_2 dst (N.to_nat cur)) as [s ->]; [lia|].
  unfold call_ctor_move. destruct (ctor_move_nothrow u (env w)) as [x Hx].
  destruct (ctor_move u (env w)) as [[? r] e]. simpl in Hx. subst.
  apply (IH _ _ _ _ _ vs).
  - rewrite to_nat_succ. unfold store_at. by rewrite drop_insert_lt by lia.
  - lia.
  - unfold store_at. rewrite length_insert. lia.
Qed.

Lemma relocate_n_returns src first n dst d_first w vs :
  take (N.to_nat n) (drop (N.to_nat first) src) = Some <$> vs →
  length vs = N.to_nat n →
  (N.to_nat d_first + N.to_nat n ≤ length dst)%nat →
  ∃ r w', relocate_n src first n dst d_first w = Done r w'.
Proof.
  intros Htake Hlen Hle. unfold relocate_n.
  destruct (is_nothrow_move_constructible || negb is_copy_constructible).
  - unfold uninitialized_move_n.
    destruct (uninitialized_move_loop_returns _ src first dst d_first w vs
                Htake Hlen Hle) as (r & w' & ->). eauto.
  - unfold uninitialized_copy_n.
    destruct (uninitialized_copy_loop_returns _ src first dst d_first w vs
                Htake Hlen Hle) as (r & w' & ->). eauto.
Qed.

Lemma uninitialized_value_construct_loop_returns n : ∀ b cur w,
  (N.to_nat cur + n ≤ length b)%nat →
  ∃ b' w', uninitialized_value_construct_loop b cur n w = Done b' w'.
Proof.
  induction n as [|n IH]; intros b cur w Hle; simpl; [eauto|].
  unfold value_construct_at, slot_at.
  destruct (lookup_lt_is_Some_2 b (N.to_nat cur)) as [s ->]; [lia|].
  unfold call_ctor_default. destruct (ctor_default_nothrow (env w)) as [x Hx].
  destruct (ctor_default (env w)) as [? e]. simpl in Hx. subst.
  apply IH. unfold store_at. rewrite length_insert. lia.
Qed.

Lemma uninitialized_value_construct_n_returns b first n w :
  (N.to_nat first + N.to_nat n ≤ length b)%nat →
  ∃ b' w', uninitialized_value_construct_n b first n w = Done b' w'.
Proof.
  intros Hle. unfold uninitialized_value_construct_n.
  destruct (uninitialized_value_construct_loop_returns _ b first w Hle)
    as (b' & w' & ->). eauto.
Qed.

Lemma RawMemory_new_returns n w :
  n ≤ alloc_limit w →
  RawMemory_new n w = Done (mkRawMemory (replicate (N.to_nat n) None) n) w.
Proof.
  intros [Hfit Hheap]%alloc_limit_fits. unfold RawMemory_new, Allocate.
  destruct (n =? 0) eqn:Hz; [by apply N.eqb_eq in Hz as ->|].
  rewrite granted_fits, wrap_small by done.
  by replace (n * sizeof <=? heap_limit w) with true
    by (symmetry; by apply N.leb_le).
Qed.

Lemma no_move_assign_throws : ¬ move_assign_can_throw.
Proof.
  intros (d & s & e & Hfalse). by rewrite assign_move_nothrow in Hfalse.
Qed.

Lemma Erase_returns num_pos v w :
  wf v → num_pos < size_ v → ∃ r w', Erase num_pos v w = Done r w'.
Proof.
  intros Hwf Hpos. pose proof (Erase_valid num_pos v w Hwf Hpos) as Herase.
  destruct (Erase num_pos v w) as [r w'|?|]; [eauto| |done].
  by destruct no_move_assign_throws.
Qed.

Lemma Reserve_returns n v w l :
  wf v → elements v = Some l → n ≤ alloc_limit w →
  ∃ v' w', Reserve n v w = Done v' w'.
Proof.
  intros Hwf Hel Hn.
  destruct (wf_view v Hwf) as (l0 & rest & Hl & Hb & Hs & Hc & Hlt).
  rewrite Hel in Hl. injection Hl as <-.
  unfold Reserve. destruct (n <=? Capacity v) eqn:Hfit; [eauto|].
  apply N.leb_gt in Hfit.
  rewrite RawMemory_new_returns by done. simpl.
  assert (take (N.to_nat (size_ v)) (drop (N.to_nat 0) (block v)) = Some <$> l)
    as Htake.
  { rewrite Hb. simpl. apply take_app_length'. rewrite length_fmap. lia. }
  destruct (relocate_n_returns (block v) 0 (size_ v)
              (replicate (N.to_nat n) None) 0 w l Htake) as ([old nb] & w1 & Hrel);
    [lia|rewrite length_replicate; lia|].
  rewrite Hrel. apply relocate_n_Done in Hrel
    as (vs & rs & xs & _ & _ & _ & _ & Hrs & -> & _).
  destruct (DestroyN_live (fill (block v) (N.to_nat 0) rs) 0 (size_ v) w1 rs)
    as (w2 & -> & _); [|done|eauto].
  rewrite Hb. simpl. rewrite fill_app_0 by (rewrite length_fmap; lia).
  apply take_app_length'. rewrite length_fmap. lia.
Qed.

Lemma push_back_body_returns init v w l :
  wf v → elements v = Some l →
  2 * Capacity v < size_t_modulus →
  N.max 1 (2 * Capacity v) ≤ alloc_limit w →
  ∃ v' w', push_back_body init v w = Done v' w'.
Proof.
  intros Hwf Hel Hdouble Halloc.
  destruct (wf_view v Hwf) as (l0 & rest & Hl & Hb & Hs & Hc & Hlt).
  rewrite Hel in Hl. injection Hl as <-.
  unfold push_back_body. destruct (size_ v <? Capacity v) eqn:Hspare.
  - apply N.ltb_lt in Hspare.
    destruct (construct_at_returns (block v) (size_ v) init w)
      as (b & w1 & -> & _); [|eauto].
    rewrite Hb, length_app, length_fmap. lia.
  - apply N.ltb_ge in Hspare.
    assert (grown_size v = N.max 1 (2 * Capacity v)) as Hg.
    { unfold grown_size. destruct (size_ v =? 0) eqn:Hz.
      - apply N.eqb_eq in Hz. lia.
      - apply N.eqb_neq in Hz. rewrite wrap_small; lia. }
    rewrite RawMemory_new_returns by lia. simpl.
    destruct (construct_at_returns (replicate (N.to_nat (grown_size v)) None)
                (size_ v) init w) as (nb & w1 & Hcon & _).
    { rewrite length_replicate. lia. }
    rewrite Hcon. apply construct_at_Done in Hcon as (s & x & _ & -> & _).
    assert (take (N.to_nat (size_ v)) (drop (N.to_nat 0) (block v))
            = Some <$> l) as Htake.
    { rewrite Hb. simpl. apply take_app_length'. rewrite length_fmap. lia. }
    destruct (relocate_n_returns (block v) 0 (size_ v)
                (<[N.to_nat (size_ v):=Some x]>
                   (replicate (N.to_nat (grown_size v)) None)) 0 w1 l Htake)
      as ([old nb] & w2 & Hrel);
      [lia|rewrite length_insert, length_replicate; lia|].
    rewrite Hrel. apply relocate_n_Done in Hrel
      as (vs & rs & xs & _ & _ & _ & _ & Hrs & -> & _).
    destruct (DestroyN_live (fill (block v) (N.to_nat 0) rs) 0 (size_ v) w2 rs)
      as (w3 & -> & _); [|done|eauto].
    rewrite Hb. simpl. rewrite fill_app_0 by (rewrite length_fmap; lia).
    apply take_app_length'. rewrite length_fmap. lia.
Qed.

Lemma call_ctor_move_returns (z : T) w :
  ∃ x r w', call_ctor_move z w = Done (x, r) w'.
Proof.
  unfold call_ctor_move. destruct (ctor_move_nothrow z (env w)) as [x Hx].
  destruct (ctor_move z (env w)) as [[? r] e]. simpl in Hx. subst. eauto.
Qed.

Lemma call_assign_move_returns (d s : T) w :
  ∃ d' r w', call_assign_move d s w = Done (d', r) w'.
Proof.
  pose proof (call_assign_move_spec d s w) as Hspec.
  destruct (call_assign_move d s w) as [[d' r] w'|? [? ?] ?|]; [eauto| |done].
  destruct Hspec as [[] %no_move_assign_throws _].
Qed.

Lemma Emplace_in_place_returns num_pos init v w l1 l2 :
  wf v → elements v = Some (l1 ++ l2) → num_pos = N.of_nat (length l1) →
  size_ v < Capacity v →
  ∃ r w', Emplace num_pos init v w = Done r w'.
Proof.
  intros Hwf Hel -> Hspare.
  destruct (wf_view v Hwf) as (l0 & rest & Hl & Hb & Hs & Hc & Hlt).
  rewrite Hel in Hl. injection Hl as <-.
  destruct rest as [|s rest]; [rewrite Nat.add_0_r in Hc; lia|].
  rewrite length_app in Hs, Hc. simpl in Hc.
  unfold Emplace, begin_, end_.
  replace (size_ v <? Capacity v) with true
    by (symmetry; apply N.ltb_lt; lia).
  rewrite !N.add_0_l.
  destruct l2 as [|z m _] using rev_ind.
  - rewrite app_nil_r in *. simpl in Hs.
    replace (N.of_nat (length l1) =? size_ v) with true
      by (symmetry; apply N.eqb_eq; lia).
    destruct (construct_at_returns (block v) (size_ v) init w)
      as (b & w1 & -> & _); [|eauto].
    rewrite Hb, length_app, length_fmap. simpl. lia.
  - rewrite length_app in Hs, Hc. simpl in Hs, Hc.
    replace (N.of_nat (length l1) =? size_ v) with false
      by (symmetry; apply N.eqb_neq; lia).
    destruct (call_ctor_returns init w) as (value & w1 & -> & _).
    replace (size_ v =? 0) with false by (symmetry; apply N.eqb_neq; lia).
    replace (size_ v - 1) with (N.of_nat (length l1 + length m)) by lia.
    rewrite Hb, !fmap_app, !app_assoc, <-(app_assoc _ [Some z]). simpl.
    rewrite <-fmap_app.
    destruct (call_ctor_move_returns z w1) as (z' & r & w2 & Hmove).
    assert (∃ w2', move_construct_within
              ((Some <$> l1 ++ m) ++ Some z :: s :: rest)
              (N.of_nat (length l1 + length m)) (size_ v) w1
            = Done ((Some <$> l1 ++ m) ++ Some r :: Some z' :: rest) w2')
      as (w2' & ->).
    { unfold move_construct_within, slot_at, store_at.
      replace (N.to_nat (size_ v)) with (S (length (Some <$> l1 ++ m)))
        by (rewrite length_fmap, length_app; lia).
      replace (N.to_nat (N.of_nat (length l1 + length m)))
        with (length (Some <$> l1 ++ m))
        by (rewrite length_fmap, length_app; lia).
      destruct (lookup_pair (Some <$> l1 ++ m) (Some z) s rest) as [-> ->].
      rewrite Hmove. eexists. f_equal.
      by destruct (insert_pair (Some <$> l1 ++ m) (Some z) s (Some r)
                     (Some z') rest) as [_ ->]. }
    unfold std_move_backward.
    replace (N.of_nat (length l1 + length m) <? N.of_nat (length l1))
      with false by (symmetry; apply N.ltb_ge; lia).
    replace (N.to_nat (N.of_nat (length l1 + length m) - N.of_nat (length l1)))
      with (length m) by lia.
    rewrite fmap_app, <-app_assoc.
    pose proof (move_backward_loop_shift m (Some <$> l1) r (Some z' :: rest)
                  (N.of_nat (length l1 + length m)) (size_ v) w2') as Hloop.
    destruct (move_backward_loop _ _ _ _ _) as [b2 w3|?|].
    + destruct Hloop as (r' & ys & Hys & ->); [rewrite length_fmap; lia|lia|].
      unfold move_assign_from, slot_at, store_at.
      replace (N.to_nat (N.of_nat (length l1))) with (length (Some <$> l1))
        by (rewrite length_fmap; lia).
      rewrite list_lookup_middle by done.
      destruct (call_assign_move_returns r' value w3) as (d' & rr & w4 & ->).
      eauto.
    + destruct Hloop as [_ [] %no_move_assign_throws];
        [rewrite length_fmap; lia|lia].
    + destruct Hloop; [rewrite length_fmap; lia|lia].
Qed.

Lemma Emplace_realloc_returns num_pos init v w l :
  wf v → elements v = Some l → num_pos ≤ size_ v → Capacity v ≤ size_ v →
  2 * Capacity v < size_t_modulus →
  N.max 1 (2 * Capacity v) ≤ alloc_limit w →
  ∃ r w', Emplace num_pos init v w = Done r w'.
Proof.
  intros Hwf Hel Hpos Hfull Hdouble Halloc.
  destruct (wf_view v Hwf) as (l0 & rest & Hl & Hb & Hs & Hc & Hlt).
  rewrite Hel in Hl. injection Hl as <-.
  unfold Emplace, begin_.
  replace (size_ v <? Capacity v) with false
    by (symmetry; apply N.ltb_ge; lia).
  assert (grown_size v = N.max 1 (2 * Capacity v)) as Hg.
  { unfold grown_size. destruct (size_ v =? 0) eqn:Hz.
    - apply N.eqb_eq in Hz. lia.
    - apply N.eqb_neq in Hz. rewrite wrap_small; lia. }
  rewrite RawMemory_new_returns by lia. simpl.
  destruct (construct_at_returns (replicate (N.to_nat (grown_size v)) None)
              num_pos init w) as (nb & w1 & Hcon & _).
  { rewrite length_replicate. lia. }
  rewrite Hcon. apply construct_at_Done in Hcon as (s & x & _ & -> & _).
  set (nb := <[N.to_nat num_pos:=Some x]> _).
  assert (length nb = N.to_nat (grown_size v)) as Hnb
    by (unfold nb; by rewrite length_insert, length_replicate).
  assert (take (N.to_nat num_pos) (drop (N.to_nat 0) (block v))
          = Some <$> take (N.to_nat num_pos) l) as Htake.
  { rewrite Hb. change (N.to_nat 0) with 0%nat. rewrite drop_0.
    rewrite take_app_le by (rewrite length_fmap; lia). by rewrite fmap_take. }
  destruct (relocate_n_returns (block v) 0 num_pos nb 0 w1 _ Htake)
    as ([old nb1] & w2 & Hrel); [rewrite length_take; lia|lia|].
  rewrite Hrel. apply relocate_n_Done in Hrel
    as (vs & rs & xs & _ & _ & _ & _ & Hrs & -> & _ & _ & Hnb1 & _).
  pose proof size_t_modulus_gt_1 as Hmod.
  rewrite N.add_0_l, wsub_le, wrap_small by lia.
  assert (take (N.to_nat (size_ v - num_pos))
            (drop (N.to_nat num_pos) (fill (block v) (N.to_nat 0) rs))
          = Some <$> drop (N.to_nat num_pos) l) as Htake2.
  { unfold fill at 1. rewrite take_0, Nat.add_0_l, app_nil_l.
    rewrite drop_app_length' by (rewrite length_fmap; lia).
    rewrite Hrs, Hb, drop_app_le by (rewrite length_fmap; lia).
    rewrite take_app_length' by (rewrite length_drop, length_fmap; lia).
    by rewrite fmap_drop. }
  destruct (relocate_n_returns _ num_pos (size_ v - num_pos) nb1
              (num_pos + 1) w2 _ Htake2)
    as ([old' nb2] & w3 & Hrel); [rewrite length_drop; lia|lia|].
  rewrite Hrel. apply relocate_n_Done in Hrel
    as (vs' & rs' & xs' & _ & _ & _ & _ & Hrs' & -> & _).
  destruct (DestroyN_live
              (fill (fill (block v) (N.to_nat 0) rs) (N.to_nat num_pos) rs')
              0 (size_ v) w3 (rs ++ rs')) as (w4 & -> & _);
    [|rewrite length_app; lia|eauto].
  change (N.to_nat 0) with 0%nat. rewrite drop_0.
  unfold fill at 2. rewrite take_0, Nat.add_0_l, app_nil_l.
  rewrite fill_app_length by (rewrite length_fmap; lia).
  rewrite drop_drop, Hrs, Hrs', Hb.
  rewrite drop_app_length' by (rewrite length_fmap; lia).
  rewrite app_assoc, <-fmap_app.
  apply take_app_length'. rewrite length_fmap, length_app. lia.
Qed.

Lemma Resize_grow_returns n v w l :
  wf v → elements v = Some l → size_ v < n → n < size_t_modulus →
  n ≤ alloc_limit w →
  ∃ v' w', Resize n v w = Done v' w'.
Proof.
  intros Hwf Hel Hlt Hn Halloc.
  unfold Resize.
  replace (n =? size_ v) with false by (symmetry; apply N.eqb_neq; lia).
  replace (n <? size_ v) with false by (symmetry; apply N.ltb_ge; lia).
  destruct (Reserve_returns n v w l Hwf Hel Halloc) as (v1 & w1 & Hres).
  rewrite Hres.
  assert (length (block v1) = N.to_nat (Capacity v1) ∧ n ≤ Capacity v1)
    as [Hlen Hfit].
  { destruct (decide (n ≤ Capacity v)) as [Hfit|Hgrow].
    - rewrite Reserve_keep in Hres by done. injection Hres as <- <-.
      by destruct Hwf.
    - apply (Reserve_grow_Done n v w l) in Hres
        as (l' & rs & _ & _ & _ & _ & Hc1 & Hwf1 & _); [|done|done|lia|done].
      destruct Hwf1 as [? _]; [|split; [done|lia]].
      apply granted_fits. by apply alloc_limit_fits in Halloc as [? _]. }
  assert (size_ v < size_t_modulus) as Hsize by lia.
  destruct (uninitialized_value_construct_n_returns (block v1) (size_ v)
              (wsub n (size_ v)) w1) as (b & w2 & ->); [|eauto].
  rewrite wsub_le by lia. lia.
Qed.
Lemma Emplace_returns num_pos init v w :
  wf v → num_pos ≤ size_ v →
  2 * Capacity v < size_t_modulus →
  N.max 1 (2 * Capacity v) ≤ alloc_limit w →
  ∃ r w', Emplace num_pos init v w = Done r w'.
Proof.
  intros Hwf Hpos Hdouble Halloc.
  destruct (wf_view v Hwf) as (l & rest & Hl & Hb & Hs & Hc & Hlt).
  destruct (decide (size_ v < Capacity v)) as [Hspare|Hfull].
  - apply (Emplace_in_place_returns num_pos init v w
             (take (N.to_nat num_pos) l) (drop (N.to_nat num_pos) l));
      [done|by rewrite take_drop|rewrite length_take; lia|done].
  - apply (Emplace_realloc_returns num_pos init v w l); [done..|lia|done|done].
Qed.

Lemma EmplaceBack_returns init v w :
  wf v → 2 * Capacity v < size_t_modulus →
  N.max 1 (2 * Capacity v) ≤ alloc_limit w →
  (∃ v' w', push_back_body init v w = Done v' w')
  ∧ ∃ r w', EmplaceBack init v w = Done r w'.
Proof.
  intros Hwf Hdouble Halloc.
  destruct (wf_view v Hwf) as (l & rest & Hl & _).
  destruct (push_back_body_returns init v w l Hwf Hl Hdouble Halloc)
    as (v' & w' & Hpush).
  split; [eauto|]. unfold EmplaceBack. rewrite Hpush. eauto.
Qed.

(** Every push and insert returns. *)
Lemma push_and_insert_return init value num_pos v w :
  wf v → num_pos ≤ size_ v →
  2 * Capacity v < size_t_modulus →
  N.max 1 (2 * Capacity v) ≤ alloc_limit w →
  (∃ v' w', PushBack value v w = Done v' w')
  ∧ (∃ v' w', PushBack_rvalue value v w = Done v' w')
  ∧ (∃ r w', EmplaceBack init v w = Done r w')
  ∧ (∃ r w', Insert num_pos value v w = Done r w')
  ∧ (∃ r w', Insert_rvalue num_pos value v w = Done r w')
  ∧ (∃ r w', Emplace num_pos init v w = Done r w').
Proof.
  intros Hwf Hpos Hdouble Halloc. split_and!.
  - by apply EmplaceBack_returns.
  - by apply EmplaceBack_returns.
  - by apply EmplaceBack_returns.
  - by apply Emplace_returns.
  - by apply Emplace_returns.
  - by apply Emplace_returns.
Qed.

End Returns.

End Proofs.

(** * The claims *)

Section Claims.
Context {T : Type} `{!Element T}.

Implicit Types (b src dst : Block T) (w : World T) (v : Vector T).
Implicit Types (l vs xs : list T) (evs : list (Event T)).

(** C10.  [Erase] on an empty vector returns normally: the vector (size,
    capacity and block) and the world are as before the call, and the
    iterator returned is [end()]. *)
Theorem Erase_empty_is_noop num_pos v w :
  size_ v = 0 → Erase num_pos v w = Done (v, end_ v) w.
Proof. intros Hsize. unfold Erase. by rewrite Hsize. Qed.

(** C4, as amended.  Move construction leaves the source at size 0 and
    capacity 0 and the new vector is the source as it was.  Move assignment
    is a swap: the destination becomes the source as it was, and the source
    becomes the destination as it was. *)
Theorem move_is_swap (this rhs : Vector T) :
  (Vector_move rhs).1 = rhs
  ∧ size_ (Vector_move rhs).2 = 0 ∧ Capacity (Vector_move rhs).2 = 0
  ∧ (move_assign this rhs).1 = rhs
  ∧ (move_assign this rhs).2 = this.
Proof. by destruct this as [[] ?], rhs as [[] ?]. Qed.

(** C7.  In every state reachable by calls of public member functions,
    every vector has [size_ <= capacity_]; and every public member function
    maps a state in which all vectors have [size_ <= capacity_] (with fields
    in the range of [size_t]) to such a state, whether it returns or
    throws. *)
Theorem size_le_capacity_invariant :
  (∀ (st : gmap nat (Vector T)) w a v,
     reachable st w → st !! a = Some v → size_ v ≤ Capacity v)
  ∧ (∀ c (st : gmap nat (Vector T)) w,
       well_typed c → store_bounded st →
       store_ensures store_bounded (exec c st w)).
Proof.
  split.
  - intros st w a v Hreach Hv.
    by destruct (reachable_bounded st w Hreach a v Hv).
  - apply exec_bounded.
Qed.

(** C5.  When the capacity is exhausted, a push or an insert that returns
    leaves the vector with capacity [max(1, 2 * old capacity)]; it is the
    value of [size_ == 0 ? 1 : size_ * 2] whenever the doubling is in the
    range of [size_t].  For an element type none of whose operations throws,
    each of these calls returns when the doubling is in that range and the
    allocator grants the new block. *)
Theorem growth_doubles_capacity init value num_pos v w :
  wf v → Capacity v ≤ size_ v → num_pos < size_t_modulus →
  (2 * Capacity v < size_t_modulus →
   grown_size v = N.max 1 (2 * Capacity v))
  ∧ (∀ v' w', PushBack value v w = Done v' w' →
       Capacity v' = N.max 1 (2 * Capacity v))
  ∧ (∀ v' w', PushBack_rvalue value v w = Done v' w' →
       Capacity v' = N.max 1 (2 * Capacity v))
  ∧ (∀ v' p w', EmplaceBack init v w = Done (v', p) w' →
       Capacity v' = N.max 1 (2 * Capacity v))
  ∧ (∀ v' p w', Insert num_pos value v w = Done (v', p) w' →
       Capacity v' = N.max 1 (2 * Capacity v))
  ∧ (∀ v' p w', Insert_rvalue num_pos value v w = Done (v', p) w' →
       Capacity v' = N.max 1 (2 * Capacity v))
  ∧ (∀ v' p w', Emplace num_pos init v w = Done (v', p) w' →
       Capacity v' = N.max 1 (2 * Capacity v))
  ∧ (NoThrow T → num_pos ≤ size_ v →
     2 * Capacity v < size_t_modulus →
     N.max 1 (2 * Capacity v) ≤ alloc_limit w →
     (∃ v' w', PushBack value v w = Done v' w')
     ∧ (∃ v' w', PushBack_rvalue value v w = Done v' w')
     ∧ (∃ r w', EmplaceBack init v w = Done r w')
     ∧ (∃ r w', Insert num_pos value v w = Done r w')
     ∧ (∃ r w', Insert_rvalue num_pos value v w = Done r w')
     ∧ (∃ r w', Emplace num_pos init v w = Done r w')).
Proof.
  intros Hwf Hfull Hpos. pose proof Hwf as (_ & Hcap & Hle & _).
  assert (bounded v) as Hb by done.
  assert (∀ i v' w', push_back_body i v w = Done v' w' →
            Capacity v' = N.max 1 (2 * Capacity v)) as Hpush.
  { intros i v' w' [_ [[? _]|(_ & -> & ?)]]%push_back_body_Done; [lia|].
    by apply grown_size_max. }
  assert (∀ i v' p w', Emplace num_pos i v w = Done (v', p) w' →
            Capacity v' = N.max 1 (2 * Capacity v)) as Hemplace.
  { intros i v' p w' (_ & _ & [[? _]|(_ & -> & ? & ?)])%Emplace_Done; [lia|].
    apply grown_size_max; [done..|].
    pose proof (grown_size_fits v num_pos Hb Hpos). lia. }
  split_and!; try by eauto.
  - intros Hdouble. unfold grown_size.
    destruct (size_ v =? 0) eqn:Hz.
    + apply N.eqb_eq in Hz. lia.
    + apply N.eqb_neq in Hz. rewrite wrap_small; lia.
  - intros v' p w'. unfold EmplaceBack.
    destruct (push_back_body init v w) as [v1 w1|?|] eqn:Hop; [|done..].
    intros; simplify_eq. by eapply Hpush.
  - intros Hnothrow Hin Hdouble Halloc. by apply push_and_insert_return.
Qed.

(** C3, as amended.  [PopBack] and the destructor never throw, and on a well
    formed vector they return.  [Erase] is not declared [noexcept]: on a
    valid position of a well formed vector it returns, or it throws because
    a move assignment of the element type throws; so it returns whenever the
    move assignment of the element type does not throw. *)
Theorem PopBack_and_destructor_never_fail v w :
  wf v →
  (∃ v' w', PopBack v w = Done v' w')
  ∧ (∃ w', Vector_dtor v w = Done () w')
  ∧ (∀ ex v' w', PopBack v w ≠ Thrown ex v' w')
  ∧ (∀ ex u w', Vector_dtor v w ≠ Thrown ex u w')
  ∧ (∀ num_pos, num_pos < size_ v →
       match Erase num_pos v w with
       | Done _ _ => True
       | Thrown _ _ _ => move_assign_can_throw
       | Abort _ => False
       end)
  ∧ (∀ num_pos, num_pos < size_ v → NoThrowMoveAssign T →
       ∃ r w', Erase num_pos v w = Done r w').
Proof.
  intros Hwf. destruct (wf_view v Hwf) as (l & rest & Hl & Hb & Hs & Hc & Hlt).
  assert (∀ num_pos, num_pos < size_ v →
            match Erase num_pos v w with
            | Done _ _ => True
            | Thrown _ _ _ => move_assign_can_throw
            | Abort _ => False
            end) as Herase.
  { intros num_pos Hpos.
    destruct (l !! N.to_nat num_pos) as [x|] eqn:Hx;
      [|apply lookup_ge_None in Hx; lia].
    pose proof (Erase_spec v w (take (N.to_nat num_pos) l) x
                  (drop (S (N.to_nat num_pos)) l) num_pos Hwf) as Hspec.
    rewrite take_drop_middle in Hspec by done.
    rewrite length_take_le in Hspec by lia.
    specialize (Hspec Hl ltac:(lia)).
    destruct (Erase num_pos v w) as [[v' p] w'|ex v' w'|]; [done| |done].
    by destruct Hspec. }
  split_and!.
  - destruct l as [|x l0 _] using rev_ind.
    + exists v, w. apply PopBack_empty. simpl in Hs. lia.
    + destruct (PopBack_snoc v w l0 x Hwf Hl) as (v' & w' & ? & _). eauto.
  - destruct (Vector_dtor_spec v w l Hwf Hl) as (w' & ? & _). eauto.
  - intros ex v' w'. apply PopBack_not_Thrown.
  - intros ex u w'. unfold Vector_dtor, noexcept. by repeat case_match.
  - done.
  - intros num_pos Hpos Hnothrow. specialize (Herase num_pos Hpos).
    destruct (Erase num_pos v w) as [r w'|ex v' w'|]; [eauto| |done].
    destruct Herase as (d & s & e & Hfalse).
    by rewrite (move_assign_completes d s e) in Hfalse.
Qed.

(** C9.  [Resize(n)] with [n < size()] returns, makes exactly the
    destructor calls on the [size() - n] trailing elements (last element
    first) and keeps the first [n] elements and the capacity.  [Resize(n)]
    with [n > size()], when it returns, has default constructed exactly the
    [n - size()] new trailing elements and kept the existing elements in
    front of them; it returns when no operation of the element type throws
    and the allocator grants [n] slots. *)
Theorem Resize_destroys_or_constructs_tail `{!ValueSemantics T} n v w l :
  wf v → elements v = Some l → n < size_t_modulus →
  (n < size_ v →
     ∃ v' w', Resize n v w = Done v' w'
       ∧ elements v' = Some (take (N.to_nat n) l)
       ∧ Capacity v' = Capacity v
       ∧ trace w' = trace w ++ (EvDestroy <$> reverse (drop (N.to_nat n) l))
       ∧ N.of_nat (length (drop (N.to_nat n) l)) = size_ v - n)
  ∧ (size_ v < n → ∀ v' w', Resize n v w = Done v' w' →
     ∃ evs ds, N.of_nat (length ds) = n - size_ v
       ∧ elements v' = Some (l ++ ds)
       ∧ trace w' = trace w ++ evs ++ (EvConstruct ByDefault <$> ds)
       ∧ ByDefault ∉ constructions evs)
  ∧ (size_ v < n → NoThrow T → n ≤ alloc_limit w →
     ∃ v' w', Resize n v w = Done v' w').
Proof.
  intros Hwf Hel Hn.
  destruct (wf_view v Hwf) as (l0 & rest & Hl & Hb & Hs & Hc & Hcap).
  rewrite Hel in Hl. injection Hl as <-.
  split_and!; [| |intros Hlt Hnothrow Halloc;
                  by apply (Resize_grow_returns n v w l)].
  - intros Hlt. unfold Resize.
    replace (n =? size_ v) with false by (symmetry; apply N.eqb_neq; lia).
    replace (n <? size_ v) with true by (symmetry; apply N.ltb_lt; lia).
    rewrite wsub_le by lia.
    destruct (PopBack_times_spec (drop (N.to_nat n) l) v w
                (take (N.to_nat n) l) Hwf)
      as (v' & w' & Hpop & _ & Hel' & Hcap' & Hd & _).
    { by rewrite take_drop. }
    rewrite length_drop in Hpop.
    replace (N.to_nat (size_ v - n)) with (length l - N.to_nat n)%nat by lia.
    exists v', w'. split_and!; [done..|].
    rewrite length_drop. lia.
  - intros Hlt v' w'. unfold Resize.
    replace (n =? size_ v) with false by (symmetry; apply N.eqb_neq; lia).
    replace (n <? size_ v) with false by (symmetry; apply N.ltb_ge; lia).
    destruct (decide (n ≤ Capacity v)) as [Hfit|Hgrow].
    + rewrite Reserve_keep by done.
      destruct (uninitialized_value_construct_n _ _ _ _)
        as [b w2|?|] eqn:Hcons; [|done..]. intros [= <- <-].
      destruct (value_construct_tail n v w l b w2 Hwf Hel Hlt Hfit Hcons)
        as (ds & Hds & _ & Hel' & Htr).
      exists [], ds. split_and!; [done..|]. by apply not_elem_of_nil.
    + destruct (Reserve n v w) as [v1 w1|?|] eqn:Hres; [|done..].
      destruct (uninitialized_value_construct_n _ _ _ _)
        as [b w2|?|] eqn:Hcons; [|done..]. intros [= <- <-].
      pose proof (Resize_grow_granted n v w l v1 w1 b w2 Hwf Hel
                    ltac:(lia) Hn Hlt Hres Hcons) as Hgranted.
      apply (Reserve_grow_Done n v w l) in Hres
        as (l' & rs & Hrel & Hrs & _ & Hs1 & Hc1 & Hwf1 & Hel1 & Hd1 & _);
        [|done|done|lia|done].
      specialize (Hwf1 Hgranted).
      apply relocated_value in Hrel as ->.
      rewrite <-Hs1 in *.
      destruct (value_construct_tail n v1 w1 l b w2 Hwf1 Hel1)
        as (ds & Hds & _ & Hel' & Htr); [lia|lia|done|].
      exists ((EvConstruct relocation_kind <$> l) ++ (EvDestroy <$> rs)), ds.
      split_and!; [lia|done| |].
      * by rewrite Htr, Hd1, <-!app_assoc.
      * rewrite constructions_app, constructions_construct,
          constructions_destroy, app_nil_r.
        intros [Hk _]%elem_of_replicate. revert Hk. unfold relocation_kind.
        by case_match.
Qed.

(** C8.  An insert at a valid position followed by an erase at the
    position it returns restores the elements: when both calls return, the
    vector holds the element constructed from the argument at that position
    after the insert, and its original elements after the erase; and both
    calls return when no operation of the element type throws and the
    allocator grants the block a reallocation asks for.
    [Insert(pos, value)] is [Emplace] with the argument [ICopy value] or
    [IMove value]. *)
Theorem insert_then_erase_restores `{!ValueSemantics T}
    num_pos init v w l :
  wf v → elements v = Some l → num_pos ≤ size_ v →
  (∀ v1 p w1 v2 q w2,
     Emplace num_pos init v w = Done (v1, p) w1 →
     Erase p v1 w1 = Done (v2, q) w2 →
     (∃ x, initialises init x
        ∧ elements v1
          = Some (take (N.to_nat num_pos) l ++ x :: drop (N.to_nat num_pos) l))
     ∧ elements v2 = Some l ∧ p = num_pos ∧ q = num_pos)
  ∧ (NoThrow T →
     2 * Capacity v < size_t_modulus →
     N.max 1 (2 * Capacity v) ≤ alloc_limit w →
     ∃ v1 p w1 v2 q w2,
       Emplace num_pos init v w = Done (v1, p) w1
       ∧ Erase p v1 w1 = Done (v2, q) w2).
Proof.
  intros Hwf Hel Hpos.
  destruct (wf_view v Hwf) as (l0 & rest & Hl & Hb & Hs & Hc & Hcap).
  rewrite Hel in Hl. injection Hl as <-.
  set (l1 := take (N.to_nat num_pos) l). set (l2 := drop (N.to_nat num_pos) l).
  assert (l = l1 ++ l2) as Hsplit by (symmetry; apply take_drop).
  assert (num_pos = N.of_nat (length l1)) as Hlen
    by (unfold l1; rewrite length_take; lia).
  assert (∀ v1 p w1, Emplace num_pos init v w = Done (v1, p) w1 →
            ∃ x, initialises init x ∧ wf v1
              ∧ elements v1 = Some (l1 ++ x :: l2) ∧ p = num_pos)
    as Hinsert.
  { intros v1 p w1 Hins.
    rewrite Hsplit in Hel. destruct (decide (size_ v < Capacity v)).
    - destruct (Emplace_in_place_Done num_pos init v w l1 l2 v1 p w1)
        as (x & ? & ? & ? & _ & ?); eauto.
    - destruct (Emplace_realloc_Done num_pos init v w l1 l2 v1 p w1)
        as (x & l1' & l2' & rs & ? & Hr1 & Hr2 & _ & ? & ? & _ & ? & _);
        [done|done|done|lia|done|].
      apply relocated_value in Hr1 as ->, Hr2 as ->. eauto. }
  split.
  - intros v1 p w1 v2 q w2 Hins Hers.
    destruct (Hinsert v1 p w1 Hins) as (x & Hx & Hwf1 & Hel1 & ->).
    pose proof (Erase_spec v1 w1 l1 x l2 num_pos Hwf1 Hel1 Hlen) as Hspec.
    rewrite Hers in Hspec. destruct Hspec as (ys & Hys & _ & Hel2 & _ & ->).
    apply move_assigned_value in Hys as ->.
    split_and!; [by exists x| |done|done]. by rewrite Hsplit.
  - intros Hnothrow Hdouble Halloc.
    destruct (Emplace_returns num_pos init v w Hwf Hpos Hdouble Halloc)
      as ([v1 p] & w1 & Hins).
    destruct (Hinsert v1 p w1 Hins) as (x & Hx & Hwf1 & Hel1 & ->).
    destruct (wf_view v1 Hwf1) as (l' & _ & Hl' & _ & Hs1 & _).
    rewrite Hel1 in Hl'. injection Hl' as <-.
    rewrite length_app in Hs1. simpl in Hs1.
    destruct (Erase_returns num_pos v1 w1 Hwf1) as ([v2 q] & w2 & Hers);
      [lia|].
    by exists v1, num_pos, w1, v2, q, w2.
Qed.

(** What the rollback does achieve.  Let the element type be one whose move
    constructor is declared non-throwing or one that is copyable, and let
    the capacity be exhausted.  When a reallocating [PushBack],
    [EmplaceBack], [Insert] or [Emplace] throws, the vector (block, size and
    capacity) is as before the call; and when [Insert] or [Emplace] throws,
    no object constructed in the new storage has been given up without
    being destroyed.  The calls this covers are those that fail in the
    allocation, in the construction of the new element or, for [Insert] and
    [Emplace], in the transfer of the elements in front of the position: a
    failure in the transfer of the elements behind it is no throw with a
    defined result, as the theorem that follows shows. *)
Lemma reallocating_insert_is_strongly_safe init value num_pos v w l :
  is_nothrow_move_constructible = true ∨ is_copy_constructible = true →
  wf v → elements v = Some l → Capacity v ≤ size_ v →
  num_pos ≤ size_ v → size_ v + 1 < size_t_modulus →
  (∀ ex v' w', PushBack value v w = Thrown ex v' w' → v' = v)
  ∧ (∀ ex v' w', PushBack_rvalue value v w = Thrown ex v' w' → v' = v)
  ∧ (∀ ex v' w', EmplaceBack init v w = Thrown ex v' w' → v' = v)
  ∧ (∀ ex v' w', Insert num_pos value v w = Thrown ex v' w' →
       v' = v ∧ leaked w' = leaked w)
  ∧ (∀ ex v' w', Insert_rvalue num_pos value v w = Thrown ex v' w' →
       v' = v ∧ leaked w' = leaked w)
  ∧ (∀ ex v' w', Emplace num_pos init v w = Thrown ex v' w' →
       v' = v ∧ leaked w' = leaked w).
Proof.
  intros Hpolicy Hwf Hel Hfull Hpos Hrange.
  split_and!; intros ex v' w'.
  - by apply push_back_body_Thrown_unchanged.
  - by apply push_back_body_Thrown_unchanged.
  - unfold EmplaceBack.
    destruct (push_back_body init v w) as [?|ex1 v1 w1|] eqn:Hop; [done| |done].
    intros [= <- <- <-]. by eapply push_back_body_Thrown_unchanged.
  - by apply (Emplace_realloc_Thrown num_pos _ v w l).
  - by apply (Emplace_realloc_Thrown num_pos _ v w l).
  - by apply (Emplace_realloc_Thrown num_pos _ v w l).
Qed.

(** Behind an element that is followed by a raw slot, no two slots in a row
    hold objects. *)
Lemma raw_after_element (xs : list T) (x : T) k n vs :
  (2 ≤ n)%nat →
  take n (drop (length xs) ((Some <$> xs) ++ Some x :: replicate (S k) None))
    = Some <$> vs →
  False.
Proof.
  intros Hn Htake.
  rewrite drop_app_length' in Htake by (by rewrite length_fmap).
  destruct n as [|[|n]]; [lia..|]. simpl in Htake.
  by destruct vs as [|? [|? ?]].
Qed.

(** C1: the rollback of the code.  Let the capacity be exhausted.
    (1) [PushBack] and [EmplaceBack] have no handler: when the transfer of
    the existing elements into the new storage throws, the exception
    propagates, the destructor calls made are those of the standard
    algorithm on the copies it had made, and the new element, constructed
    in the new storage before the transfer, is given up without being
    destroyed.
    (2) [Emplace] at [num_pos]: when the transfer of the elements behind the
    position throws, the new storage holds the copies of the elements in
    front of the position, in the slots [[0, num_pos)], and the new element
    in the slot [num_pos]; the slots behind it are raw, the standard
    algorithm having destroyed what it had constructed.  The handler calls
    [DestroyN(new_data.GetAddress() + num_pos, size_ - num_pos + 1)]: it
    leaves the copies in front of the position alone and runs destructors
    on at least one raw slot behind the new element, so the call has no
    defined result. *)
Theorem reallocating_rollback_destroys_wrong_range init num_pos v w l1 l2 :
  wf v → elements v = Some (l1 ++ l2) → num_pos = N.of_nat (length l1) →
  Capacity v ≤ size_ v → size_ v + 1 < size_t_modulus →
  (∀ nd w1 nb w2 ex old nb1 w3,
     RawMemory_new (grown_size v) w = Done nd w1 →
     construct_at (buffer_ nd) (size_ v) init w1 = Done nb w2 →
     relocate_n (block v) 0 (size_ v) nb 0 w2 = Thrown ex (old, nb1) w3 →
     ∃ x xs, initialises init x
       ∧ push_back_body init v w
         = Thrown ex (with_block old v) (Deallocate nb1 w3)
       ∧ trace (Deallocate nb1 w3)
         = trace w ++ EvConstruct (init_kind init) x
             :: (EvConstruct relocation_kind <$> xs) ++ (EvDestroy <$> xs)
       ∧ leaked (Deallocate nb1 w3) = leaked w ++ [x])
  ∧ (∀ nd w1 nb w2 old nb1 w3 ex old' nb2 w4,
       RawMemory_new (grown_size v) w = Done nd w1 →
       construct_at (buffer_ nd) num_pos init w1 = Done nb w2 →
       relocate_n (block v) 0 num_pos nb 0 w2 = Done (old, nb1) w3 →
       relocate_n old (begin_ v + num_pos) (wsub (size_ v) num_pos) nb1
         (wrap (num_pos + 1)) w3 = Thrown ex (old', nb2) w4 →
       ∃ xs x k, Forall2 relocated l1 xs ∧ initialises init x
         ∧ nb2 = (Some <$> xs) ++ Some x :: replicate (S k) None
         ∧ DestroyN nb2 num_pos (wrap (wsub (size_ v) num_pos + 1)) w4 = None
         ∧ Emplace num_pos init v w = Abort undefined_behaviour).
Proof.
  intros Hwf Hel -> Hfull Hrange.
  destruct (wf_full_view v _ Hwf Hel Hfull) as (Hb & Hs & Hc & Hlt).
  rewrite length_app in Hs.
  split.
  - intros nd w1 nb w2 ex old nb1 w3 Hnew Hcon Hrel.
    assert (push_back_body init v w
            = Thrown ex (with_block old v) (Deallocate nb1 w3)) as Hop.
    { unfold push_back_body.
      replace (size_ v <? Capacity v) with false
        by (symmetry; apply N.ltb_ge; lia).
      cbv zeta. by rewrite Hnew, Hcon, Hrel. }
    pose proof (RawMemory_new_Done _ _ _ _ Hnew) as (-> & Hcn & Hbn).
    rewrite Hbn in Hcon.
    apply construct_at_fresh_Done in Hcon
      as (x & Hx & Hpm & -> & Htr0 & Hlk0 & _).
    apply relocate_n_Thrown in Hrel
      as (xs & Hlen & Hin & -> & _ & _ & Htr1 & Hlk1 & _).
    change (N.to_nat 0) with 0%nat in *. rewrite drop_0 in Hlk1.
    assert (take (length xs)
              (replicate (N.to_nat (size_ v)) None
                 ++ Some x :: replicate (N.to_nat (granted (grown_size v))
                                         - S (N.to_nat (size_ v))) None)
            = replicate (length xs) (None : option T)) as Hraw.
    { rewrite take_app_le by (rewrite length_replicate; lia).
      rewrite take_replicate. f_equal. lia. }
    rewrite Hraw, live_replicate_None, app_nil_r in Hlk1.
    exists x, xs. split_and!; [done|done| |];
      rewrite clear_raw by (by rewrite drop_0).
    + unfold Deallocate, leak. cbn [trace].
      by rewrite Htr1, Htr0, <-app_assoc.
    + unfold Deallocate, leak. cbn [leaked].
      rewrite Hlk1, Hlk0, live_app, live_replicate_None, live_cons.
      by rewrite live_replicate_None, !app_nil_r.
  - intros nd w1 nb w2 old nb1 w3 ex old' nb2 w4 Hnew Hcon Hpre Hsuf.
    assert (Emplace (N.of_nat (length l1)) init v w
            = match DestroyN nb2 (N.of_nat (length l1))
                      (wrap (wsub (size_ v) (N.of_nat (length l1)) + 1)) w4 with
              | None => Abort undefined_behaviour
              | Some (nb3, w5) =>
                  Thrown ex (with_block old' v) (Deallocate nb3 w5)
              end) as Hop.
    { unfold Emplace.
      replace (size_ v <? Capacity v) with false
        by (symmetry; apply N.ltb_ge; lia).
      cbv zeta. by rewrite Hnew, Hcon, Hpre, Hsuf. }
    pose proof (RawMemory_new_Done _ _ _ _ Hnew) as (-> & Hcn & Hbn).
    rewrite Hbn in Hcon.
    apply construct_at_fresh_Done in Hcon as (x & Hx & Hpm & -> & Hd0).
    rewrite Nat2N.id in *.
    set (R := replicate (N.to_nat (granted (grown_size v)) - S (length l1))
                (None : option T)) in *.
    apply relocate_n_Done in Hpre
      as (vs1 & rs1 & xs1 & Htake1 & _ & Hrel1 & Hxs1 & _ & _ & _ & -> & _ & _).
    change (N.to_nat 0) with 0%nat in *. rewrite drop_0, Hb, fmap_app in Htake1.
    rewrite Nat2N.id in *.
    apply take_app_fmap_Some in Htake1 as ->; [|done].
    rewrite fill_app_0 in Hsuf by (rewrite length_replicate; lia).
    apply relocate_n_Thrown in Hsuf as (xs & Hlen & Hin & -> & _).
    rewrite wsub_le in * by lia.
    rewrite (wrap_small (N.of_nat (length l1) + 1)) in * by lia.
    replace (N.to_nat (N.of_nat (length l1) + 1)) with (S (length xs1)) in *
      by lia.
    rewrite (wrap_small (size_ v - N.of_nat (length l1) + 1)) in * by lia.
    rewrite length_app, length_fmap in Hin. simpl in Hin.
    unfold R in *. clear R.
    destruct (N.to_nat (granted (grown_size v)) - S (length l1))%nat
      as [|k] eqn:Hk; [simpl in Hin; lia|].
    rewrite length_replicate in Hin.
    assert (clear ((Some <$> xs1) ++ Some x :: replicate (S k) None)
              (S (length xs1)) (length xs)
            = (Some <$> xs1) ++ Some x :: replicate (S k) None) as Hraw.
    { apply clear_raw.
      rewrite (cons_middle (Some x)), app_assoc, drop_app_length'
        by (rewrite length_app, length_fmap; simpl; lia).
      rewrite take_replicate. f_equal. lia. }
    rewrite Hraw in *.
    assert (DestroyN ((Some <$> xs1) ++ Some x :: replicate (S k) None)
              (N.of_nat (length l1))
              (size_ v - N.of_nat (length l1) + 1) w4 = None) as HD.
    { destruct (DestroyN _ _ _ _) as [[nb3 w5]|] eqn:HD; [|done].
      exfalso. apply DestroyN_Some in HD as (ds & Htake & _).
      rewrite Nat2N.id, <-Hxs1 in Htake.
      apply raw_after_element in Htake; [done|lia]. }
    exists xs1, x, k. split_and!; [done..|]. by rewrite Hop, HD.
Qed.

(** C6, as amended.  Every reallocating transfer ([Reserve], reallocating
    push and insert), when it returns, has constructed each existing element
    in the new storage with the move constructor if the element type's move
    constructor is declared non-throwing or the element type is not
    copyable, and with the copy constructor otherwise.  The first
    construction of a push or insert is that of the new element.  For an
    element type none of whose operations throws, these calls return when
    the sizes are in the range of [size_t] and the allocator grants the new
    block. *)
Theorem relocation_moves_or_copies init value num_pos n v w l :
  wf v → elements v = Some l → num_pos ≤ size_ v →
  let kind :=
    if is_nothrow_move_constructible || negb is_copy_constructible
    then ByMove else ByCopy in
  (Capacity v < n → n < size_t_modulus →
   ∀ v' w', Reserve n v w = Done v' w' →
     ∃ evs, trace w' = trace w ++ evs
       ∧ constructions evs = replicate (length l) kind)
  ∧ (Capacity v ≤ size_ v →
     (∀ v' w', PushBack value v w = Done v' w' →
        ∃ evs, trace w' = trace w ++ evs
          ∧ constructions evs = ByCopy :: replicate (length l) kind)
     ∧ (∀ v' w', PushBack_rvalue value v w = Done v' w' →
          ∃ evs, trace w' = trace w ++ evs
            ∧ constructions evs = ByMove :: replicate (length l) kind)
     ∧ (∀ v' p w', EmplaceBack init v w = Done (v', p) w' →
          ∃ evs, trace w' = trace w ++ evs
            ∧ constructions evs
              = init_kind init :: replicate (length l) kind)
     ∧ (∀ v' p w', Emplace num_pos init v w = Done (v', p) w' →
          ∃ evs, trace w' = trace w ++ evs
            ∧ constructions evs
              = init_kind init :: replicate (length l) kind))
  ∧ (NoThrow T →
     (n ≤ alloc_limit w → ∃ v' w', Reserve n v w = Done v' w')
     ∧ (2 * Capacity v < size_t_modulus →
        N.max 1 (2 * Capacity v) ≤ alloc_limit w →
        (∃ v' w', PushBack value v w = Done v' w')
        ∧ (∃ v' w', PushBack_rvalue value v w = Done v' w')
        ∧ (∃ r w', EmplaceBack init v w = Done r w')
        ∧ (∃ r w', Emplace num_pos init v w = Done r w'))).
Proof.
  intros Hwf Hel Hpos kind.
  assert (∀ i v' w', Capacity v ≤ size_ v →
            push_back_body i v w = Done v' w' →
            ∃ evs, trace w' = trace w ++ evs
              ∧ constructions evs = init_kind i :: replicate (length l) kind)
    as Hpush.
  { intros i v' w' Hfull
      (x & l' & rs & _ & Hrel & _ & _ & _ & _ & Hd & _)
      %(push_back_body_realloc_Done _ _ _ l); [|done..].
    eexists. split; [exact Hd|]. simpl. f_equal.
    rewrite constructions_app, constructions_construct,
      constructions_destroy, app_nil_r.
    by rewrite (Forall2_length _ _ _ Hrel). }
  assert (NoThrow T →
          2 * Capacity v < size_t_modulus →
          N.max 1 (2 * Capacity v) ≤ alloc_limit w →
          (∃ v' w', PushBack value v w = Done v' w')
          ∧ (∃ v' w', PushBack_rvalue value v w = Done v' w')
          ∧ (∃ r w', EmplaceBack init v w = Done r w')
          ∧ (∃ r w', Emplace num_pos init v w = Done r w')) as Hreturn.
  { intros Hnothrow Hdouble Halloc.
    destruct (push_and_insert_return init value num_pos v w Hwf Hpos
                Hdouble Halloc) as (? & ? & ? & _ & _ & ?).
    by split_and!. }
  split; [|split; [intros Hfull; split_and!|
                   intros Hnothrow; split;
                   [intros Halloc; by eapply Reserve_returns|by apply Hreturn]]].
  - intros Hgrow Hn v' w'
      (l' & rs & Hrel & _ & _ & _ & _ & _ & _ & Hd & _)
      %(Reserve_grow_Done _ _ _ l); [|done..].
    eexists. split; [exact Hd|].
    rewrite constructions_app, constructions_construct,
      constructions_destroy, app_nil_r.
    by rewrite (Forall2_length _ _ _ Hrel).
  - intros v' w'. by apply (Hpush (ICopy value)).
  - intros v' w'. by apply (Hpush (IMove value)).
  - intros v' p w'. unfold EmplaceBack.
    destruct (push_back_body init v w) as [v1 w1|?|] eqn:Hop; [|done..].
    intros [= <- <- <-]. by eapply Hpush.
  - intros v' p w' Hop.
    destruct (wf_view v Hwf) as (l0 & rest & Hl & _ & Hs & _).
    rewrite Hel in Hl. injection Hl as <-.
    rewrite <-(take_drop (N.to_nat num_pos) l) in Hel.
    apply (Emplace_realloc_Done _ _ _ _ _ _ _ _ _ Hwf Hel) in Hop
      as (x & l1' & l2' & rs & _ & Hr1 & Hr2 & _ & _ & _ & _ & _ & Hd & _);
      [| |done].
    2:{ rewrite length_take. lia. }
    eexists. split; [exact Hd|]. simpl. f_equal.
    rewrite constructions_app, constructions_construct,
      constructions_destroy, app_nil_r, length_app.
    rewrite <-(Forall2_length _ _ _ Hr1), <-(Forall2_length _ _ _ Hr2).
    by rewrite <-length_app, take_drop.
Qed.


End Claims.

(** Witness of C10. *)
Lemma Erase_empty_is_noop_witness :
  Erase 0 (Vector_default : Vector nat) nat_world
  = Done (Vector_default, 0) nat_world.
Proof. apply (Erase_empty_is_noop 0 Vector_default nat_world). reflexivity. Defined.

(** C4 as stated fails: after a move assignment into a vector that holds one
    element, the source holds that element; its size and capacity are 1. *)
Lemma move_assign_source_not_empty :
  let this := full_vector [7%nat] in
  let rhs := full_vector [1%nat; 2%nat] in
  PushBack 7%nat Vector_default nat_world
    = Done this (log (EvConstruct ByCopy 7%nat) nat_world)
  ∧ elements (move_assign this rhs).2 = Some [7%nat]
  ∧ ¬ (size_ (move_assign this rhs).2 = 0
       ∧ Capacity (move_assign this rhs).2 = 0).
Proof. split_and!; [by vm_compute..|]. by intros [? _]. Qed.

(** Witness of C7: the vector that pushing 7 onto an empty vector yields. *)
Lemma size_le_capacity_invariant_witness :
  size_ (full_vector [7%nat]) ≤ Capacity (full_vector [7%nat]).
Proof.
  apply (proj1 size_le_capacity_invariant
           {[0%nat := full_vector [7%nat]]}
           (log (EvConstruct ByCopy 7%nat) nat_world) 0%nat).
  - apply (reachable_return (CPushBack 0 7%nat)
             {[0%nat := Vector_default]} nat_world); [|done|by vm_compute].
    by apply (reachable_return (CDefault 0) ∅ nat_world);
      [apply reachable_start|done|vm_compute].
  - by vm_compute.
Defined.

Lemma wf_full_vector {T} `{!Element T} (l : list T) :
  N.of_nat (length l) < size_t_modulus → wf (full_vector l).
Proof.
  intros Hl. apply (view_wf _ l []); simpl; [by rewrite app_nil_r|done| |done].
  unfold Capacity. simpl. lia.
Qed.

(** Witness of C5: an insert into the full vector [1; 2] returns, and it
    doubles the capacity from 2 to 4. *)
Lemma growth_doubles_capacity_witness :
  match Insert 1 9%nat (full_vector [1%nat; 2%nat]) nat_world with
  | Done (v', _) _ =>
      Capacity v' = N.max 1 (2 * Capacity (full_vector [1%nat; 2%nat] : Vector nat))
      ∧ Capacity v' = 4
  | _ => False
  end.
Proof.
  assert (wf (full_vector [1%nat; 2%nat])) as Hwf by by apply wf_full_vector.
  pose proof (growth_doubles_capacity (ICopy 9%nat) 9%nat 1
                (full_vector [1%nat; 2%nat]) nat_world Hwf
                ltac:(by vm_compute) ltac:(done))
    as (_ & _ & _ & _ & Hins & _).
  destruct (Insert 1 9%nat (full_vector [1%nat; 2%nat]) nat_world)
    as [[v' p] w'|ex v' w'|f] eqn:Hop.
  - split; [by eapply Hins|]. vm_compute in Hop. by simplify_eq.
  - by vm_compute in Hop.
  - by vm_compute in Hop.
Defined.

(** Witness of C3, as amended, on the vector [1; 2; 3]. *)
Lemma PopBack_and_destructor_never_fail_witness :
  ∃ v' w', PopBack vector_123 nat_world = Done v' w'.
Proof.
  assert (wf vector_123) as Hwf.
  { by apply (view_wf _ [1; 2; 3]%nat [None]). }
  exact (proj1 (PopBack_and_destructor_never_fail vector_123 nat_world Hwf)).
Defined.

(** C3 as stated fails for [Erase]: with an element type whose next move
    assignment throws, erasing the first of two elements throws, and the
    vector keeps both elements. *)
Lemma Erase_can_throw :
  Erase 0 (full_vector [mkCounted 1; mkCounted 2]) (counted_world 0)
  = Thrown element_exception (full_vector [mkCounted 1; mkCounted 2])
      (counted_world 0).
Proof. by vm_compute. Qed.

(** Witness of C9: shrinking [1; 2; 3] to one element destroys 3, then 2. *)
Lemma Resize_destroys_or_constructs_tail_witness :
  ∃ v' w', Resize 1 vector_123 nat_world = Done v' w'
    ∧ elements v' = Some [1%nat]
    ∧ Capacity v' = 4
    ∧ trace w' = [EvDestroy 3%nat; EvDestroy 2%nat]
    ∧ N.of_nat (length [2%nat; 3%nat]) = 3 - 1.
Proof.
  assert (wf vector_123) as Hwf by by apply (view_wf _ [1; 2; 3]%nat [None]).
  exact (proj1 (Resize_destroys_or_constructs_tail 1 vector_123 nat_world
                  [1; 2; 3]%nat Hwf eq_refl eq_refl) eq_refl).
Defined.

(** Witness of C8: inserting 9 at position 1 of [1; 2; 3] and erasing at
    the position returned gives back [1; 2; 3]. *)
Lemma insert_then_erase_restores_witness :
  ∃ v1 p w1 v2 q w2,
    Insert 1 9%nat vector_123 nat_world = Done (v1, p) w1
    ∧ Erase p v1 w1 = Done (v2, q) w2
    ∧ elements v1 = Some [1; 9; 2; 3]%nat
    ∧ elements v2 = Some [1; 2; 3]%nat.
Proof.
  assert (wf vector_123) as Hwf by by apply (view_wf _ [1; 2; 3]%nat [None]).
  destruct (insert_then_erase_restores 1 (ICopy 9%nat) vector_123 nat_world
              [1; 2; 3]%nat Hwf eq_refl ltac:(done)) as [Hrestores Hreturns].
  destruct (Hreturns _ ltac:(done) ltac:(by vm_compute))
    as (v1 & p & w1 & v2 & q & w2 & Hins & Hers).
  exists v1, p, w1, v2, q, w2.
  destruct (Hrestores v1 p w1 v2 q w2 Hins Hers)
    as ((x & Hx & Hel1) & Hel2 & _).
  assert (x = 9%nat) as -> by (apply initialises_value; by left).
  by split_and!.
Defined.

(** An insert in the middle of the full vector [1; 2] whose first
    relocating copy throws leaves the vector as it was and loses no
    object. *)
Lemma reallocating_insert_is_strongly_safe_witness :
  ∃ ex v' w',
    Insert 1 (mkCounted 3) (full_vector [mkCounted 1; mkCounted 2])
      (counted_world 1) = Thrown ex v' w'
    ∧ v' = full_vector [mkCounted 1; mkCounted 2] ∧ leaked w' = [].
Proof.
  destruct (Insert 1 (mkCounted 3) (full_vector [mkCounted 1; mkCounted 2])
              (counted_world 1)) as [?|ex v' w'|] eqn:Hins;
    [by vm_compute in Hins| |by vm_compute in Hins].
  exists ex, v', w'. split; [done|].
  assert (wf (full_vector [mkCounted 1; mkCounted 2])) as Hwf
    by by apply wf_full_vector.
  exact (proj1 (proj2 (proj2 (proj2
    (reallocating_insert_is_strongly_safe (ICopy (mkCounted 3)) (mkCounted 3)
       1 (full_vector [mkCounted 1; mkCounted 2]) (counted_world 1)
       [mkCounted 1; mkCounted 2] (or_intror eq_refl) Hwf eq_refl
       ltac:(by vm_compute) ltac:(by vm_compute) ltac:(by vm_compute)))))
    ex v' w' Hins).
Defined.

(** Witness of C1: the full vector [1; 2; 3] of a copyable element type
    whose copy constructor throws.  [PushBack(9)], whose third relocating
    copy throws, throws with the vector as it was and the new element 9
    given up without a destructor call; [Insert(begin() + 1, 9)], whose
    second relocating copy, the first of the suffix, throws, runs
    destructors on raw slots of the new storage. *)
Lemma reallocating_rollback_destroys_wrong_range_witness :
  (∃ ex v' w',
     PushBack (mkCounted 9)
       (full_vector [mkCounted 1; mkCounted 2; mkCounted 3])
       (counted_world 3) = Thrown ex v' w'
     ∧ v' = full_vector [mkCounted 1; mkCounted 2; mkCounted 3]
     ∧ trace w' = [EvConstruct ByCopy (mkCounted 9);
                   EvConstruct ByCopy (mkCounted 1);
                   EvConstruct ByCopy (mkCounted 2);
                   EvDestroy (mkCounted 1); EvDestroy (mkCounted 2)]
     ∧ leaked w' = [mkCounted 9])
  ∧ Insert 1 (mkCounted 9)
      (full_vector [mkCounted 1; mkCounted 2; mkCounted 3])
      (counted_world 2) = Abort undefined_behaviour.
Proof.
  assert (wf (full_vector [mkCounted 1; mkCounted 2; mkCounted 3])) as Hwf
    by by apply wf_full_vector.
  split.
  - destruct (reallocating_rollback_destroys_wrong_range
                (ICopy (mkCounted 9)) 1
                (full_vector [mkCounted 1; mkCounted 2; mkCounted 3])
                (counted_world 3) [mkCounted 1] [mkCounted 2; mkCounted 3]
                Hwf eq_refl eq_refl ltac:(by vm_compute) ltac:(by vm_compute))
      as [Hpush _].
    edestruct Hpush as (x & xs & _ & Hop & _); [by vm_compute..|].
    eexists _, _, _. split; [exact Hop|]. by vm_compute.
  - destruct (reallocating_rollback_destroys_wrong_range
                (ICopy (mkCounted 9)) 1
                (full_vector [mkCounted 1; mkCounted 2; mkCounted 3])
                (counted_world 2) [mkCounted 1] [mkCounted 2; mkCounted 3]
                Hwf eq_refl eq_refl ltac:(by vm_compute) ltac:(by vm_compute))
      as [_ Hins].
    edestruct Hins as (xs & x & k & _ & _ & _ & _ & Hop); [by vm_compute..|].
    exact Hop.
Defined.

(** Further failures of the guarantee.  (1) With a move-only element type
    whose move constructor may throw, a reallocating push that throws leaves
    the first element of the original vector moved from.  (2) With a
    copyable element type, a reallocating push whose second relocating copy
    throws gives up the new element without destroying it.  (3) A
    reallocating insert at the front whose second relocating copy throws
    runs destructors on slots of the new storage that hold no object. *)
Lemma reallocating_push_not_strongly_safe :
  (∃ ex v' w',
     PushBack_rvalue (mkHandle (Some 3%nat))
       (full_vector [mkHandle (Some 1%nat); mkHandle (Some 2%nat)])
       (handle_world 2) = Thrown ex v' w'
     ∧ elements v' = Some [mkHandle None; mkHandle (Some 2%nat)]
     ∧ v' ≠ full_vector [mkHandle (Some 1%nat); mkHandle (Some 2%nat)])
  ∧ (∃ ex v' w',
       PushBack (mkCounted 3) (full_vector [mkCounted 1; mkCounted 2])
         (counted_world 2) = Thrown ex v' w'
       ∧ leaked w' = [mkCounted 3]
       ∧ destructions (trace w') = [mkCounted 1])
  ∧ Insert 0 (mkCounted 3) (full_vector [mkCounted 1; mkCounted 2])
      (counted_world 2) = Abort undefined_behaviour.
Proof.
  split_and!.
  - eexists _, _, _. split; [by vm_compute|]. by split.
  - eexists _, _, _. split; [by vm_compute|]. by split.
  - by vm_compute.
Qed.

(** Witness of C6, as amended: [Reserve] on a vector of move-only handles
    relocates both elements with the move constructor. *)
Lemma relocation_moves_or_copies_witness :
  ∃ v' w',
    Reserve 4 (full_vector [mkHandle (Some 1%nat); mkHandle (Some 2%nat)])
      (handle_world 5) = Done v' w'
    ∧ ∃ evs, trace w' = trace (handle_world 5) ++ evs
        ∧ constructions evs = [ByMove; ByMove].
Proof.
  destruct (Reserve 4 (full_vector [mkHandle (Some 1%nat); mkHandle (Some 2%nat)])
              (handle_world 5)) as [v' w'|?|] eqn:Hres;
    [|by vm_compute in Hres..].
  exists v', w'. split; [done|].
  assert (wf (full_vector [mkHandle (Some 1%nat); mkHandle (Some 2%nat)]))
    as Hwf by by apply wf_full_vector.
  exact (proj1 (relocation_moves_or_copies (ICopy (mkHandle None))
           (mkHandle None) 0
           4 (full_vector [mkHandle (Some 1%nat); mkHandle (Some 2%nat)])
           (handle_world 5) [mkHandle (Some 1%nat); mkHandle (Some 2%nat)]
           Hwf eq_refl ltac:(by vm_compute))
         ltac:(by vm_compute) ltac:(done) v' w' Hres).
Defined.

(** C6 as stated fails: the move constructor of [Handle] is not declared
    non-throwing, yet [Reserve] relocates its elements by move construction,
    not by copy construction. *)
Lemma relocation_of_move_only_is_not_copy :
  is_nothrow_move_constructible (T:=Handle) = false
  ∧ ∃ v' w',
      Reserve 4 (full_vector [mkHandle (Some 1%nat); mkHandle (Some 2%nat)])
        (handle_world 5) = Done v' w'
      ∧ constructions (trace w') = [ByMove; ByMove]
      ∧ constructions (trace w') ≠ [ByCopy; ByCopy].
Proof.
  split; [done|]. eexists _, _. split; [by vm_compute|]. by split.
Qed.

(** C2: the code at the failing input.  Copy assignment of [9] to the
    vector [1; 2; 3] calls [DestroyN(data_.GetAddress(), size_ - rhs.size_)]:
    it destroys the elements at the indices 0 and 1, not those at the
    indices 1 and 2, and then assigns to the slot 0, which holds no object;
    the claim has it end with size 1 and the element 9. *)
Lemma copy_assign_destroys_leading_elements :
  DestroyN (block vector_123) 0
    (wsub (size_ vector_123) (size_ (full_vector [9%nat] : Vector nat)))
    nat_world
  = Some ([None; None; Some 3%nat; None],
          @mkWorld nat nat_element () [EvDestroy 1%nat; EvDestroy 2%nat] [] 64)
  ∧ copy_assign vector_123 (full_vector [9%nat]) nat_world
    = Abort undefined_behaviour.
Proof. split; by vm_compute. Qed.

(** * Further properties of the code

    The constructors, copy assignment, [Reserve], the pushes, [PopBack],
    [Erase], [Resize], [operator[]] and the destructor, each on a well
    formed vector; how the member functions compose; and the invariant
    they keep. *)

Section Further.
Context {T : Type} `{!Element T}.

Implicit Types (b src dst : Block T) (w : World T) (v : Vector T).
Implicit Types (l vs xs : list T) (evs : list (Event T)).
(** ** [Erase] and [operator[]] *)

Lemma move_loop_shift_delta vs : ∀ pre (d0 : T) post first d_first w b' w',
  N.to_nat d_first = length pre → first = d_first + 1 →
  move_loop (pre ++ Some d0 :: (Some <$> vs) ++ post) first
    (length vs) d_first w = Done b' w' →
  ∃ ys r, Forall2 move_assigned vs ys
    ∧ b' = pre ++ (Some <$> ys) ++ Some r :: post
    ∧ (vs = [] → r = d0)
    ∧ delta w w' (EvAssign MoveAssign <$> ys) [].
Proof.
  induction vs as [|u vs IH]; intros pre d0 post first d_first w b' w' Hd Hf;
    simpl.
  { intros [= <- <-]. exists [], d0. split_and!; [done..|apply delta_refl]. }
  pose proof (move_assign_within_down pre d0 u ((Some <$> vs) ++ post)
                first d_first w Hd Hf) as Hstep.
  destruct (move_assign_within _ first d_first w) as [b1 w1|ex b1 w1|];
    [|done..].
  destruct Hstep as (d' & r & Hm & -> & Hd1). intros Hloop.
  specialize (IH (pre ++ [Some d']) r post (first + 1) (d_first + 1) w1 b' w').
  rewrite <-app_assoc in IH. simpl in IH.
  destruct IH as (ys & r' & Hys & -> & _ & Hd2);
    [rewrite length_app; simpl; lia|lia|done|].
  exists (d' :: ys), r'.
  split_and!; [by constructor|by rewrite <-app_assoc|done|].
  simpl. by eapply delta_cons.
Qed.

Lemma Vector_at_lookup v l index :
  wf v → elements v = Some l →
  Vector_at index v = l !! N.to_nat index
  ∧ at_index index v = Vector_at index v.
Proof.
  intros Hwf Hel.
  destruct (wf_view v Hwf) as (l0 & rest & Hl & Hb & Hs & Hc & Hlt).
  rewrite Hel in Hl. injection Hl as <-.
  unfold Vector_at, at_index, RawMemory_at, slot_at.
  fold (block v). fold (RawMemory_Capacity (data_ v)). fold (Capacity v).
  destruct (index <? size_ v) eqn:Hi.
  - apply N.ltb_lt in Hi.
    replace (index <? Capacity v) with true by (symmetry; apply N.ltb_lt; lia).
    rewrite Hb, lookup_app_l by (rewrite length_fmap; lia).
    rewrite list_lookup_fmap.
    destruct (l !! N.to_nat index) as [x|] eqn:Hx; [done|].
    apply lookup_ge_None in Hx. lia.
  - apply N.ltb_ge in Hi. split; [|done].
    symmetry. apply lookup_ge_None. lia.
Qed.

(** ** The constructors *)

Lemma fresh_fill (n : nat) xs :
  length xs = n → fill (replicate n None) 0 xs = Some <$> xs.
Proof.
  intros Hlen. rewrite <-(app_nil_r (replicate n None)).
  rewrite fill_app_0 by (by rewrite length_replicate). apply app_nil_r.
Qed.

Lemma fresh_clear (n d k : nat) :
  (d + k ≤ n)%nat →
  clear (replicate n (None : Slot T)) d k = replicate n None.
Proof.
  intros Hle. apply clear_raw.
  rewrite drop_replicate, take_replicate. f_equal. lia.
Qed.

Lemma Allocate_Thrown n w ex u w' :
  Allocate n w = Thrown ex u w' → w' = w ∧ 0 < n ∧ alloc_limit w < n.
Proof.
  unfold Allocate. destruct (n =? 0) eqn:Hz; [done|].
  apply N.eqb_neq in Hz.
  destruct (wrap (n * sizeof) <=? heap_limit w) eqn:Hl; [done|].
  apply N.leb_gt in Hl. intros; simplify_eq.
  split_and!; [done|lia|by apply alloc_limit_exceeded].
Qed.

Lemma RawMemory_new_Thrown_limit n w ex u w' :
  RawMemory_new n w = Thrown ex u w' → w' = w ∧ 0 < n ∧ alloc_limit w < n.
Proof.
  unfold RawMemory_new.
  destruct (Allocate n w) as [?|? ? ?|] eqn:Ha; [done| |done].
  intros [= <- <- <-]. by eapply Allocate_Thrown.
Qed.

Lemma Vector_sized_Done n w v w' :
  Vector_sized n w = Done v w' →
  ∃ ds, length ds = N.to_nat n
    ∧ v = mkVector (mkRawMemory (Some <$> ds) n) n
    ∧ delta w w' (EvConstruct ByDefault <$> ds) [].
Proof.
  unfold Vector_sized.
  destruct (RawMemory_new n w) as [nd w1|?|] eqn:Hnew; [|done..].
  apply RawMemory_new_Done in Hnew as (-> & Hc & Hb).
  destruct (uninitialized_value_construct_n _ _ _ _) as [b w2|?|] eqn:Hcons;
    [|done..].
  intros [= <- <-]. rewrite Hb in Hcons.
  apply uninitialized_value_construct_n_Done in Hcons
    as (ds & Hlen & Hbound & -> & Hd).
  change (N.to_nat 0) with 0%nat in *.
  assert (granted n = n) as Hg.
  { apply granted_full. rewrite length_replicate in Hbound. lia. }
  rewrite Hg in *.
  exists ds. rewrite Hc.
  rewrite fresh_fill by done. split_and!; [done..|].
  by rewrite live_raw in Hd.
Qed.

(** [Vector(size)] returns only when the block has room for [size]
    objects. *)
Lemma Vector_sized_Done_fits n w v w' :
  Vector_sized n w = Done v w' → n * sizeof < size_t_modulus.
Proof.
  unfold Vector_sized.
  destruct (RawMemory_new n w) as [nd w1|?|] eqn:Hnew; [|done..].
  apply RawMemory_new_Done in Hnew as (-> & Hc & Hb).
  destruct (uninitialized_value_construct_n _ _ _ _) as [b w2|?|] eqn:Hcons;
    [|done..].
  intros _. rewrite Hb in Hcons.
  apply uninitialized_value_construct_n_Done in Hcons
    as (ds & Hlen & Hbound & _).
  change (N.to_nat 0) with 0%nat in *.
  apply granted_eq_fits, granted_full.
  rewrite length_replicate in Hbound. lia.
Qed.

Lemma Vector_sized_Thrown n w ex u w' :
  Vector_sized n w = Thrown ex u w' →
  ∃ ds, (length ds < N.to_nat n)%nat
    ∧ delta w w' ((EvConstruct ByDefault <$> ds) ++ (EvDestroy <$> ds)) [].
Proof.
  unfold Vector_sized.
  destruct (RawMemory_new n w) as [nd w1|ex1 u1 w1|] eqn:Hnew; [| |done].
  - apply RawMemory_new_Done in Hnew as (-> & Hc & Hb).
    destruct (uninitialized_value_construct_n _ _ _ _) as [?|? b w2|] eqn:Hcons;
      [done| |done].
    intros [= <- <- <-]. rewrite Hb in Hcons.
    apply uninitialized_value_construct_n_Thrown in Hcons
      as (ds & Hlen & Hle & -> & Hd).
    exists ds. split; [done|]. rewrite live_raw in Hd.
    rewrite length_replicate in Hle.
    rewrite fresh_clear by lia.
    rewrite <-(app_nil_r ((EvConstruct ByDefault <$> ds) ++ _)).
    apply (delta_trans _ _ _ _ [] [] [] Hd).
    pose proof (delta_Deallocate (replicate (N.to_nat (granted n)) None) w2)
      as Hdd.
    by rewrite live_replicate_None in Hdd.
  - intros [= <- <- <-].
    apply RawMemory_new_Thrown_limit in Hnew as (-> & Hpos & _).
    exists []. split; [simpl; lia|apply delta_refl].
Qed.

Lemma Vector_copy_Done other w v w' l :
  wf other → elements other = Some l →
  Vector_copy other w = Done v w' →
  ∃ xs, Forall2 copied l xs ∧ v = full_vector xs
    ∧ size_ v = size_ other ∧ Capacity v = size_ other
    ∧ delta w w' (EvConstruct ByCopy <$> xs) [].
Proof.
  intros Hwf Hel.
  destruct (wf_view other Hwf) as (l0 & rest & Hl & Hb & Hs & Hc & Hlt).
  rewrite Hel in Hl. injection Hl as <-.
  unfold Vector_copy.
  destruct (RawMemory_new (size_ other) w) as [nd w1|?|] eqn:Hnew; [|done..].
  apply RawMemory_new_Done in Hnew as (-> & Hcap & Hbuf).
  destruct (uninitialized_copy_n _ _ _ _ _ _) as [b w2|?|] eqn:Hcopy;
    [|done..].
  intros [= <- <-]. rewrite Hbuf in Hcopy.
  apply uninitialized_copy_n_Done in Hcopy
    as (vs & xs & Htake & Hlen & Hcp & Hbound & -> & Hd).
  assert (vs = l) as ->.
  { eapply (take_app_fmap_Some l rest); [|rewrite <-Hb; exact Htake]. lia. }
  change (N.to_nat 0) with 0%nat in *.
  assert (granted (size_ other) = size_ other) as Hg.
  { apply granted_full. rewrite length_replicate in Hbound. lia. }
  rewrite Hg in *.
  exists xs.
  apply Forall2_length in Hcp as Hxs.
  rewrite fresh_fill by lia. rewrite live_raw in Hd.
  split_and!; [done| |done|by rewrite Hcap|done].
  unfold full_vector. rewrite Hcap. by replace (N.of_nat (length xs)) with (size_ other) by lia.
Qed.

Lemma Vector_copy_Thrown other w ex u w' l :
  wf other → elements other = Some l →
  Vector_copy other w = Thrown ex u w' →
  ∃ xs, (length xs < length l)%nat
    ∧ delta w w' ((EvConstruct ByCopy <$> xs) ++ (EvDestroy <$> xs)) [].
Proof.
  intros Hwf Hel.
  destruct (wf_view other Hwf) as (l0 & rest & Hl & Hb & Hs & Hc & Hlt).
  rewrite Hel in Hl. injection Hl as <-.
  unfold Vector_copy.
  destruct (RawMemory_new (size_ other) w) as [nd w1|ex1 u1 w1|] eqn:Hnew;
    [| |done].
  - apply RawMemory_new_Done in Hnew as (-> & Hcap & Hbuf).
    destruct (uninitialized_copy_n _ _ _ _ _ _) as [?|? b w2|] eqn:Hcopy;
      [done| |done].
    intros [= <- <- <-]. rewrite Hbuf in Hcopy.
    apply uninitialized_copy_n_Thrown in Hcopy as (xs & Hlen & Hle & -> & Hd).
    exists xs. split; [lia|]. rewrite live_raw in Hd.
    rewrite length_replicate in Hle.
    rewrite fresh_clear by lia.
    rewrite <-(app_nil_r ((EvConstruct ByCopy <$> xs) ++ _)).
    apply (delta_trans _ _ _ _ [] [] [] Hd).
    pose proof (delta_Deallocate
                  (replicate (N.to_nat (granted (size_ other))) None) w2)
      as Hdd.
    by rewrite live_replicate_None in Hdd.
  - intros [= <- <- <-].
    apply RawMemory_new_Thrown_limit in Hnew as (-> & Hpos & _).
    exists []. split; [simpl; lia|apply delta_refl].
Qed.

Section FurtherReturns.
Context `{!NoThrow T}.
Local Set Default Proof Using "Type*".

Lemma uninitialized_copy_n_returns src first n dst d_first w vs :
  take (N.to_nat n) (drop (N.to_nat first) src) = Some <$> vs →
  length vs = N.to_nat n →
  (N.to_nat d_first + N.to_nat n ≤ length dst)%nat →
  ∃ dst' w', uninitialized_copy_n src first n dst d_first w = Done dst' w'.
Proof.
  intros Htake Hlen Hle. unfold uninitialized_copy_n.
  destruct (uninitialized_copy_loop_returns _ src first dst d_first w vs
              Htake Hlen Hle) as (r & w' & ->). eauto.
Qed.

Lemma Vector_sized_returns n w :
  n ≤ alloc_limit w → ∃ v w', Vector_sized n w = Done v w'.
Proof.
  intros Hn. unfold Vector_sized. rewrite RawMemory_new_returns by done.
  simpl.
  destruct (uninitialized_value_construct_n_returns
              (replicate (N.to_nat n) None) 0 n w) as (b & w' & ->); [|eauto].
  rewrite length_replicate. lia.
Qed.

Lemma Vector_copy_returns other w l :
  wf other → elements other = Some l → size_ other ≤ alloc_limit w →
  ∃ v w', Vector_copy other w = Done v w'.
Proof.
  intros Hwf Hel Hn.
  destruct (wf_view other Hwf) as (l0 & rest & Hl & Hb & Hs & Hc & Hlt).
  rewrite Hel in Hl. injection Hl as <-.
  unfold Vector_copy. rewrite RawMemory_new_returns by done. simpl.
  destruct (uninitialized_copy_n_returns (block other) 0 (size_ other)
              (replicate (N.to_nat (size_ other)) None) 0 w l)
    as (b & w' & ->); [| |rewrite length_replicate; lia|eauto].
  - rewrite Hb. change (N.to_nat 0) with 0%nat. rewrite drop_0.
    apply take_app_length'. rewrite length_fmap. lia.
  - lia.
Qed.
End FurtherReturns.

Lemma copied_value `{!ValueSemantics T} vs xs :
  Forall2 copied vs xs → xs = vs.
Proof.
  induction 1 as [|u x ? ? (e & e' & Hu) _ IH]; [done|].
  f_equal; [|done]. by eapply ctor_copy_value.
Qed.

(** ** Copy assignment *)

Lemma call_assign_copy_spec (d s : T) w :
  match call_assign_copy d s w with
  | Done d' w' => copy_assigned s d' ∧ delta w w' [EvAssign CopyAssign d'] []
  | Thrown _ _ w' => copy_assign_can_throw ∧ delta w w' [] []
  | Abort _ => False
  end.
Proof.
  unfold call_assign_copy.
  destruct (assign_copy d s (env w)) as [[[] d'] e] eqn:Ha.
  - split; [by eexists _, _, _|].
    apply (delta_log _ _ _ []), delta_set_env.
  - split; [|apply delta_set_env]. exists d, s, (env w). by rewrite Ha.
Qed.

Lemma uninitialized_copy_loop_defined n : ∀ src first dst cur w vs,
  take n (drop (N.to_nat first) src) = Some <$> vs → length vs = n →
  (N.to_nat cur + n ≤ length dst)%nat →
  match uninitialized_copy_loop src first n dst cur w with
  | Done _ _ => True
  | Thrown _ _ _ => copy_ctor_can_throw
  | Abort _ => False
  end.
Proof.
  induction n as [|n IH]; intros src first dst cur w vs Htake Hlen Hle; simpl.
  { done. }
  destruct vs as [|u vs]; [done|]. simpl in Htake, Hlen.
  apply take_drop_cons in Htake as [Hu Htake].
  unfold slot_at at 1. rewrite Hu.
  unfold construct_at, slot_at.
  destruct (lookup_lt_is_Some_2 dst (N.to_nat cur)) as [s ->]; [lia|].
  simpl. unfold call_ctor_copy.
  destruct (ctor_copy u (env w)) as [[x|] e] eqn:Hc.
  - apply (IH _ _ _ _ _ vs); [by rewrite to_nat_succ|lia|].
    unfold store_at. rewrite length_insert. lia.
  - exists u, (env w). by rewrite Hc.
Qed.

Lemma uninitialized_copy_n_defined src first n dst d_first w vs :
  take (N.to_nat n) (drop (N.to_nat first) src) = Some <$> vs →
  length vs = N.to_nat n →
  (N.to_nat d_first + N.to_nat n ≤ length dst)%nat →
  match uninitialized_copy_n src first n dst d_first w with
  | Done _ _ => True
  | Thrown _ _ _ => copy_ctor_can_throw
  | Abort _ => False
  end.
Proof.
  intros Htake Hlen Hle. unfold uninitialized_copy_n.
  pose proof (uninitialized_copy_loop_defined _ src first dst d_first w vs
                Htake Hlen Hle) as Hloop.
  destruct (uninitialized_copy_loop _ _ _ _ _ _) as [?|ex [dk c] w1|] eqn:Hl;
    [done| |done].
  apply uninitialized_copy_loop_Thrown in Hl as (xs & Hlxs & -> & Hc & -> & _).
  replace (d_first + N.of_nat (length xs) - d_first)
    with (N.of_nat (length xs)) by lia.
  destruct (DestroyN_live (fill dst (N.to_nat d_first) xs) d_first
              (N.of_nat (length xs)) w1 xs) as (w2 & -> & _); [|lia|done].
  rewrite Nat2N.id. apply take_drop_fill. lia.
Qed.

Lemma copy_loop_spec vs : ∀ src first dpre ds dpost d_first w,
  take (length vs) (drop (N.to_nat first) src) = Some <$> vs →
  length ds = length vs → N.to_nat d_first = length dpre →
  match copy_loop src first (length vs) (dpre ++ (Some <$> ds) ++ dpost)
          d_first w with
  | Done b' w' =>
      ∃ ys, Forall2 copy_assigned vs ys
        ∧ b' = dpre ++ (Some <$> ys) ++ dpost
        ∧ delta w w' (EvAssign CopyAssign <$> ys) []
  | Thrown _ b' w' =>
      copy_assign_can_throw
      ∧ ∃ ys evs, length ys = length vs
          ∧ b' = dpre ++ (Some <$> ys) ++ dpost
          ∧ delta w w' evs []
  | Abort _ => False
  end.
Proof.
  induction vs as [|u vs IH]; intros src first dpre ds dpost d_first w
    Htake Hlen Hd; simpl.
  { destruct ds; [|done]. exists []. split_and!; [done..|apply delta_refl]. }
  destruct ds as [|d ds]; [done|]. simpl in Hlen.
  apply take_drop_cons in Htake as [Hu Htake].
  unfold copy_assign_at, slot_at. rewrite Hu, Hd. simpl.
  rewrite list_lookup_middle by done.
  pose proof (call_assign_copy_spec d u w) as Hcall.
  destruct (call_assign_copy d u w) as [d' w1|ex d' w1|]; [| |done].
  - destruct Hcall as [Hcp Hd1]. unfold store_at. rewrite Hd.
    rewrite insert_at_length by done.
    specialize (IH src (first + 1) (dpre ++ [Some d']) ds dpost
                  (d_first + 1) w1).
    rewrite <-app_assoc in IH. simpl in IH.
    rewrite to_nat_succ in IH.
    destruct (copy_loop _ _ _ _ _ w1) as [b' w'|ex b' w'|].
    + destruct IH as (ys & Hys & -> & Hd2);
        [done|lia|rewrite length_app; simpl; lia|].
      exists (d' :: ys). split_and!; [by constructor|by rewrite <-app_assoc|].
      simpl. by eapply delta_cons.
    + destruct IH as (Hthrow & ys & evs & Hys & -> & Hd2);
        [done|lia|rewrite length_app; simpl; lia|].
      split; [done|].
      exists (d' :: ys), (EvAssign CopyAssign d' :: evs).
      split_and!; [simpl; lia|by rewrite <-app_assoc|].
      by eapply delta_cons.
    + apply IH; [done|lia|rewrite length_app; simpl; lia].
  - destruct Hcall as [Hthrow Hd1].
    unfold store_at. rewrite Hd, insert_at_length by done.
    split; [done|].
    exists (d' :: ds), []. split_and!; [simpl; lia|done|done].
Qed.

Lemma copy_assigned_value `{!ValueSemantics T} vs ys :
  Forall2 copy_assigned vs ys → ys = vs.
Proof.
  induction 1 as [|u y ? ? (d & e & e' & Hu) _ IH]; [done|].
  f_equal; [|done]. by eapply assign_copy_value.
Qed.

Lemma Swap_fst_snd (this other : Vector T) :
  Swap this other = (other, this).
Proof. by destruct this as [[] ?], other as [[] ?]. Qed.

(** Copy assignment that reallocates. *)
Lemma copy_assign_realloc_Done this rhs w l r v w' :
  wf this → wf rhs → elements this = Some l → elements rhs = Some r →
  Capacity this < size_ rhs →
  copy_assign this rhs w = Done v w' →
  ∃ xs, Forall2 copied r xs ∧ v = full_vector xs
    ∧ Capacity v = size_ rhs
    ∧ delta w w' ((EvConstruct ByCopy <$> xs) ++ (EvDestroy <$> l))
        (live (drop (length l) (block this))).
Proof.
  intros Hwf Hwfr Hel Helr Hlt. unfold copy_assign.
  replace (Capacity this <? size_ rhs) with true
    by (symmetry; apply N.ltb_lt; lia).
  destruct (Vector_copy rhs w) as [rc w1|?|] eqn:Hcopy; [|done..].
  apply (Vector_copy_Done _ _ _ _ r) in Hcopy
    as (xs & Hcp & -> & _ & Hc & Hd1); [|done..].
  rewrite Swap_fst_snd.
  destruct (Vector_dtor_spec this w1 l Hwf Hel) as (w2 & -> & Hd2).
  intros [= <- <-]. exists xs. split_and!; [done..|].
  apply (delta_trans _ _ _ _ _ [] _ Hd1 Hd2).
Qed.

Lemma copy_assign_realloc_Thrown this rhs w l r ex v w' :
  wf this → wf rhs → elements this = Some l → elements rhs = Some r →
  Capacity this < size_ rhs →
  copy_assign this rhs w = Thrown ex v w' →
  v = this
  ∧ ∃ xs, (length xs < length r)%nat
      ∧ delta w w' ((EvConstruct ByCopy <$> xs) ++ (EvDestroy <$> xs)) [].
Proof.
  intros Hwf Hwfr Hel Helr Hlt. unfold copy_assign.
  replace (Capacity this <? size_ rhs) with true
    by (symmetry; apply N.ltb_lt; lia).
  destruct (Vector_copy rhs w) as [rc w1|ex1 u1 w1|] eqn:Hcopy; [| |done].
  - rewrite Swap_fst_snd.
    by destruct (Vector_dtor_spec this w1 l Hwf Hel) as (w2 & -> & Hd2).
  - intros [= <- <- <-]. split; [done|].
    by eapply Vector_copy_Thrown.
Qed.

(** Copy assignment from a vector that is at least as long and fits. *)
Lemma copy_assign_in_place this rhs w l r1 r2 :
  wf this → wf rhs → elements this = Some l →
  elements rhs = Some (r1 ++ r2) → length r1 = length l →
  size_ rhs ≤ Capacity this →
  match copy_assign this rhs w with
  | Done v w' =>
      ∃ ys xs rest, Forall2 copy_assigned r1 ys ∧ Forall2 copied r2 xs
        ∧ block v = (Some <$> ys ++ xs) ++ rest
        ∧ length (block v) = length (block this)
        ∧ size_ v = size_ rhs ∧ Capacity v = Capacity this
        ∧ delta w w' ((EvAssign CopyAssign <$> ys)
                      ++ (EvConstruct ByCopy <$> xs))
            (live (take (length r2) (drop (length l) (block this))))
  | Thrown _ v w' =>
      (copy_assign_can_throw ∨ copy_ctor_can_throw)
      ∧ ∃ ys rest, length ys = length l
          ∧ block v = (Some <$> ys) ++ rest
          ∧ length (block v) = length (block this)
          ∧ size_ v = size_ this ∧ Capacity v = Capacity this
  | Abort _ => False
  end.
Proof.
  intros Hwf Hwfr Hel Helr Hlen Hfit.
  destruct (wf_view this Hwf) as (l0 & rest & Hl & Hb & Hs & Hc & Hlt).
  rewrite Hel in Hl. injection Hl as <-.
  destruct (wf_view rhs Hwfr) as (l0 & rest' & Hl & Hb' & Hs' & Hc' & Hlt').
  rewrite Helr in Hl. injection Hl as <-. rewrite length_app in Hs', Hc'.
  unfold copy_assign.
  replace (Capacity this <? size_ rhs) with false
    by (symmetry; apply N.ltb_ge; lia).
  replace (size_ rhs <? size_ this) with false
    by (symmetry; apply N.ltb_ge; lia).
  assert (take (length r1) (drop (N.to_nat 0) (block rhs)) = Some <$> r1)
    as Htake.
  { rewrite Hb', fmap_app, <-app_assoc. change (N.to_nat 0) with 0%nat.
    rewrite drop_0. apply take_app_length'. by rewrite length_fmap. }
  pose proof (copy_loop_spec r1 (block rhs) 0 [] l rest 0 w Htake
                ltac:(done) ltac:(done)) as Hloop.
  simpl in Hloop. rewrite <-Hb in Hloop.
  assert (std_copy (block rhs) 0 (size_ this) (block this) 0 w
          = copy_loop (block rhs) 0 (length r1) (block this) 0 w) as Hstd.
  { unfold std_copy. replace (size_ this <? 0) with false
      by (symmetry; apply N.ltb_ge; lia).
    do 2 f_equal. lia. }
  destruct (size_ this <? size_ rhs) eqn:Hgrow.
  - apply N.ltb_lt in Hgrow. rewrite Hstd.
    destruct (copy_loop _ _ _ _ _ w) as [b1 w1|ex b1 w1|]; [| |done].
    + destruct Hloop as (ys & Hys & -> & Hd1).
      apply Forall2_length in Hys as Hlys.
      rewrite (wsub_le (size_ rhs) (size_ this)) by lia.
      pose proof (uninitialized_copy_n_defined (block rhs) (size_ this)
                    (size_ rhs - size_ this) ((Some <$> ys) ++ rest)
                    (size_ this) w1 r2) as Hdef.
      destruct (uninitialized_copy_n _ _ _ _ _ w1) as [b2 w2|ex b2 w2|f]
        eqn:Hcons.
      * apply uninitialized_copy_n_Done in Hcons
          as (vs & xs & Htake2 & Hlvs & Hcp & Hrange & -> & Hd2).
        assert (vs = r2) as ->.
        { rewrite Hb', fmap_app, <-app_assoc in Htake2.
          rewrite drop_app_length' in Htake2 by (rewrite length_fmap; lia).
          eapply (take_app_fmap_Some r2 rest'); [|exact Htake2]. lia. }
        apply Forall2_length in Hcp as Hlxs.
        exists ys, xs, (drop (length xs) rest).
        split_and!; [done|done| | |done|done|].
        -- simpl. rewrite fill_app_length by (rewrite length_fmap; lia).
           by rewrite fmap_app, <-app_assoc.
        -- unfold block at 1. simpl. rewrite length_fill' by (intros; lia).
           rewrite Hb, !length_app, !length_fmap. lia.
        -- eapply delta_eq; [apply (delta_trans _ _ _ _ _ _ _ Hd1 Hd2)|done|].
           simpl. rewrite Hb.
           rewrite !drop_app_length' by (rewrite length_fmap; lia).
           do 2 f_equal. lia.
      * apply uninitialized_copy_n_Thrown in Hcons
          as (xs & Hlxs & Hle & -> & Hd2).
        split.
        { right. apply Hdef; [|lia|rewrite length_app, length_fmap; lia].
          rewrite Hb', fmap_app, <-app_assoc.
          rewrite drop_app_length' by (rewrite length_fmap; lia).
          apply take_app_length'. rewrite length_fmap. lia. }
        exists ys, (replicate (length xs) None ++ drop (length xs) rest).
        split_and!; [lia| | |done..].
        -- simpl. unfold clear.
           rewrite take_app_length' by (rewrite length_fmap; lia).
           f_equal. f_equal.
           by rewrite drop_app_add' by (rewrite length_fmap; lia).
        -- unfold block at 1. simpl. unfold clear.
           rewrite take_app_length' by (rewrite length_fmap; lia).
           rewrite drop_app_add' by (rewrite length_fmap; lia).
           rewrite length_app, length_fmap in Hle.
           rewrite Hb, !length_app, !length_fmap, length_replicate, length_drop.
           lia.
      * apply Hdef; [|lia|rewrite length_app, length_fmap; lia].
        rewrite Hb', fmap_app, <-app_assoc.
        rewrite drop_app_length' by (rewrite length_fmap; lia).
        apply take_app_length'. rewrite length_fmap. lia.
    + destruct Hloop as (Hthrow & ys & evs & Hys & -> & _).
      split; [by left|].
      exists ys, rest. split_and!; [lia|done| |done..].
      unfold block at 1. simpl. rewrite Hb, !length_app, !length_fmap. lia.
  - apply N.ltb_ge in Hgrow. rewrite Hstd.
    assert (r2 = []) as -> by (apply nil_length_inv; lia).
    destruct (copy_loop _ _ _ _ _ w) as [b1 w1|ex b1 w1|]; [| |done].
    + destruct Hloop as (ys & Hys & -> & Hd1).
      apply Forall2_length in Hys as Hlys.
      exists ys, [], rest.
      split_and!; [done|constructor|by rewrite app_nil_r| |simpl; lia|done|].
      { unfold block at 1. simpl. rewrite Hb, !length_app, !length_fmap. lia. }
      simpl. by rewrite app_nil_r.
    + destruct Hloop as (Hthrow & ys & evs & Hys & -> & _).
      split; [by left|].
      exists ys, rest. split_and!; [lia|done| |done..].
      unfold block at 1. simpl. rewrite Hb, !length_app, !length_fmap. lia.
Qed.

Lemma uninitialized_copy_loop_throws n : ∀ src first dst cur w ex r w',
  uninitialized_copy_loop src first n dst cur w = Thrown ex r w' →
  copy_ctor_can_throw.
Proof.
  induction n as [|n IH]; intros src first dst cur w ex r w'; simpl; [done|].
  destruct (slot_at src first) as [[u|]|]; [|done..].
  unfold construct_at. destruct (slot_at dst cur); [|done].
  simpl. unfold call_ctor_copy.
  destruct (ctor_copy u (env w)) as [[x|] e] eqn:Hc.
  - apply IH.
  - intros _. exists u, (env w). by rewrite Hc.
Qed.

Lemma uninitialized_copy_n_throws src first n dst d_first w ex b w' :
  uninitialized_copy_n src first n dst d_first w = Thrown ex b w' →
  copy_ctor_can_throw.
Proof.
  unfold uninitialized_copy_n.
  destruct (uninitialized_copy_loop _ _ _ _ _ _) as [?|? [? ?] ?|] eqn:Hl;
    [done| |done].
  intros _. by eapply uninitialized_copy_loop_throws.
Qed.

(** The copy constructor has no defined result only when the byte count it
    asks [operator new] for wraps, which takes a source whose own elements
    do not fit the range of [size_t]. *)
Lemma Vector_copy_defined other w l :
  wf other → elements other = Some l →
  match Vector_copy other w with
  | Done _ _ => True
  | Thrown ex _ _ =>
      (ex = bad_alloc ∧ alloc_limit w < size_ other) ∨ copy_ctor_can_throw
  | Abort _ => size_t_modulus ≤ size_ other * sizeof
  end.
Proof.
  intros Hwf Hel.
  destruct (wf_view other Hwf) as (l0 & rest & Hl & Hb & Hs & Hc & Hlt).
  rewrite Hel in Hl. injection Hl as <-.
  destruct (decide (size_ other * sizeof < size_t_modulus)) as [Hfit|Hwrap].
  2:{ destruct (Vector_copy other w) as [?|ex u w1|] eqn:Hop; [done| |lia].
      revert Hop. unfold Vector_copy.
      destruct (RawMemory_new (size_ other) w) as [nd w1'|ex1 u1 w1'|] eqn:Hnew;
        [| |done].
      - destruct (uninitialized_copy_n _ _ _ _ _ _) as [?|? b w2|] eqn:Hun;
          [done| |done].
        intros _. right. by eapply uninitialized_copy_n_throws.
      - intros [= <- _ _]. left.
        pose proof Hnew as (_ & ->)%RawMemory_new_Thrown.
        by apply RawMemory_new_Thrown_limit in Hnew as (_ & _ & ?). }
  unfold Vector_copy.
  destruct (RawMemory_new (size_ other) w) as [nd w1|ex1 u1 w1|] eqn:Hnew.
  - apply RawMemory_new_Done in Hnew as (-> & Hcap & Hbuf). rewrite Hbuf.
    rewrite granted_fits by done.
    pose proof (uninitialized_copy_n_defined (block other) 0 (size_ other)
                  (replicate (N.to_nat (size_ other)) None) 0 w l) as Hdef.
    destruct (uninitialized_copy_n _ _ _ _ _ _) as [?|? b w2|]; [done| |].
    + right. apply Hdef; [|lia|rewrite length_replicate; lia].
      rewrite Hb. change (N.to_nat 0) with 0%nat. rewrite drop_0.
      apply take_app_length'. rewrite length_fmap. lia.
    + exfalso. apply Hdef; [|lia|rewrite length_replicate; lia].
      rewrite Hb. change (N.to_nat 0) with 0%nat. rewrite drop_0.
      apply take_app_length'. rewrite length_fmap. lia.
  - left. pose proof Hnew as (_ & ->)%RawMemory_new_Thrown.
    by apply RawMemory_new_Thrown_limit in Hnew as (_ & _ & ?).
  - unfold RawMemory_new, Allocate in Hnew. by repeat case_match.
Qed.

(** The copy constructor returns only when the block has room for the
    elements of the source. *)
Lemma Vector_copy_Done_fits other w v w' :
  wf other → Vector_copy other w = Done v w' →
  size_ other * sizeof < size_t_modulus.
Proof.
  intros Hwf.
  destruct (wf_view other Hwf) as (l & rest & Hl & Hb & Hs & Hc & Hlt).
  unfold Vector_copy.
  destruct (RawMemory_new (size_ other) w) as [nd w1|?|] eqn:Hnew; [|done..].
  apply RawMemory_new_Done in Hnew as (-> & Hcap & Hbuf).
  destruct (uninitialized_copy_n _ _ _ _ _ _) as [b w2|?|] eqn:Hcopy;
    [|done..].
  intros _. rewrite Hbuf in Hcopy.
  apply uninitialized_copy_n_Done in Hcopy
    as (vs & xs & Htake & Hlen & Hcp & Hbound & _).
  change (N.to_nat 0) with 0%nat in *.
  apply granted_eq_fits, granted_full.
  rewrite length_replicate in Hbound. lia.
Qed.

(** Copy assignment from a source whose elements take more bytes than
    [size_t] counts, a state of the model that no block of storage
    realises, has no defined result when the allocator grants the wrapped
    byte count and nothing throws: the copy overruns its block. *)
Lemma copy_assign_oversized_source `{!NoThrow T} this rhs w :
  wf this → wf rhs → Capacity this < size_ rhs →
  size_t_modulus ≤ size_ rhs * sizeof →
  wrap (size_ rhs * sizeof) ≤ heap_limit w →
  ∃ f, copy_assign this rhs w = Abort f.
Proof.
  intros Hwf Hwfr Hlt Hwrap Hheap.
  destruct (wf_view this Hwf) as (l & rest' & Hl & _).
  unfold copy_assign.
  replace (Capacity this <? size_ rhs) with true
    by (symmetry; apply N.ltb_lt; lia).
  pose proof (Vector_copy_Done_fits rhs w) as Hfits.
  revert Hfits. unfold Vector_copy.
  destruct (RawMemory_new (size_ rhs) w) as [nd w1|ex u w1|f] eqn:Hnew.
  - destruct (uninitialized_copy_n _ _ _ _ _ _) as [b w2|? ? ?|f] eqn:Hcopy.
    + intros Hfits. specialize (Hfits _ _ Hwfr eq_refl). lia.
    + apply uninitialized_copy_n_throws in Hcopy as (u & e & Hthrow).
      destruct (ctor_copy_nothrow u e) as [? Hsome]. congruence.
    + intros _. by exists f.
  - revert Hnew. unfold RawMemory_new, Allocate.
    destruct (size_ rhs =? 0); [done|].
    replace (wrap (size_ rhs * sizeof) <=? heap_limit w) with true
      by (symmetry; apply N.leb_le; lia).
    done.
  - intros _. by exists f.
Qed.

Lemma copy_assign_from_empty this rhs w l :
  wf this → elements this = Some l → size_ rhs = 0 →
  ∃ v w', copy_assign this rhs w = Done v w'
    ∧ wf v ∧ elements v = Some [] ∧ Capacity v = Capacity this
    ∧ trace w' = trace w ++ (EvDestroy <$> l) ∧ leaked w' = leaked w.
Proof.
  intros Hwf Hel Hempty.
  destruct (wf_view this Hwf) as (l0 & rest & Hl & Hb & Hs & Hc & Hlt).
  rewrite Hel in Hl. injection Hl as <-.
  unfold copy_assign. rewrite Hempty.
  replace (Capacity this <? 0) with false by (symmetry; apply N.ltb_ge; lia).
  replace (size_ this <? 0) with false by (symmetry; apply N.ltb_ge; lia).
  destruct (0 <? size_ this) eqn:Hpos.
  - apply N.ltb_lt in Hpos. rewrite wsub_le by lia. rewrite N.sub_0_r.
    destruct (DestroyN_live (block this) 0 (size_ this) w l)
      as (w1 & -> & Htr & Hlk & _); [|lia|].
    { rewrite Hb. change (N.to_nat 0) with 0%nat. rewrite drop_0.
      apply take_app_length'. rewrite length_fmap. lia. }
    unfold std_copy. simpl. eexists _, _. split; [done|].
    rewrite Hb. change (N.to_nat 0) with 0%nat.
    rewrite clear_app_0 by (rewrite length_fmap; lia).
    destruct (view_wf (mkVector (mkRawMemory
                (replicate (N.to_nat (size_ this)) None ++ rest)
                (capacity_ (data_ this))) 0) []
                (replicate (N.to_nat (size_ this)) None ++ rest))
      as [Hwf' Hel']; [done|done| |done|].
    { unfold Capacity, RawMemory_Capacity in *. simpl.
      rewrite length_app, length_replicate. lia. }
    split_and!; [done..|by rewrite Hlk, app_nil_r].
  - apply N.ltb_ge in Hpos. unfold std_copy.
    replace (size_ this) with 0 by lia. simpl.
    assert (l = []) as -> by (apply nil_length_inv; lia).
    eexists _, _. split; [done|].
    assert (mkVector (mkRawMemory (block this) (capacity_ (data_ this))) 0
            = this) as ->.
    { destruct this as [[] ?]. simpl in *. f_equal. lia. }
    split_and!; [done..|by rewrite app_nil_r|done].
Qed.

(** ** [Reserve] and the pushes *)

(** ** [Reserve] *)

Lemma Reserve_Thrown_unchanged n v w ex v' w' :
  is_nothrow_move_constructible = true ∨ is_copy_constructible = true →
  Reserve n v w = Thrown ex v' w' → v' = v ∧ leaked w' = leaked w.
Proof.
  intros Hpolicy. unfold Reserve.
  destruct (n <=? Capacity v); [done|].
  destruct (RawMemory_new n w) as [nd w1|ex1 u1 w1|] eqn:Hnew; [| |done].
  - apply RawMemory_new_Done in Hnew as (-> & Hcn & Hbn). rewrite Hbn.
    destruct (relocate_n _ _ _ _ _ _) as [[old nb] w2|? [old nb] w2|] eqn:Hrel;
      [|intros [= <- <- <-]|done].
    { by destruct (DestroyN _ _ _ _) as [[]|]. }
    apply relocate_n_Thrown in Hrel
      as (xs & Hlxs & Hle & -> & Hno & Hsrc & _ & Hlk & _).
    destruct Hpolicy as [Hyes|Hcopy]; [congruence|].
    rewrite Hsrc, with_block_block by done. split; [done|].
    rewrite length_replicate in Hle. rewrite fresh_clear by lia.
    unfold Deallocate. simpl. rewrite live_replicate_None, app_nil_r, Hlk.
    by rewrite live_raw, app_nil_r.
  - intros [= <- <- <-]. by apply RawMemory_new_Thrown in Hnew as [-> _].
Qed.

(** ** A push with spare capacity *)

Lemma push_back_body_in_place_Done init v w l v' w' :
  wf v → elements v = Some l → size_ v < Capacity v →
  push_back_body init v w = Done v' w' →
  ∃ x rest, initialises init x
    ∧ block v = (Some <$> l) ++ rest
    ∧ block v' = (Some <$> l ++ [x]) ++ drop 1 rest
    ∧ wf v' ∧ elements v' = Some (l ++ [x])
    ∧ size_ v' = size_ v + 1 ∧ Capacity v' = Capacity v
    ∧ delta w w' [EvConstruct (init_kind init) x] (live (take 1 rest)).
Proof.
  intros Hwf Hel Hspare.
  destruct (wf_view v Hwf) as (l0 & rest & Hl & Hb & Hs & Hc & Hlt).
  rewrite Hel in Hl. injection Hl as <-.
  unfold push_back_body.
  replace (size_ v <? Capacity v) with true by (symmetry; apply N.ltb_lt; lia).
  destruct (construct_at _ _ _ _) as [b w1|?|] eqn:Hcon; [|done..].
  apply construct_at_Done in Hcon as (s & x & Hslot & -> & Hx & Hd).
  intros [= <- <-]. exists x, rest.
  destruct rest as [|s' rest]; [rewrite Nat.add_0_r in Hc; lia|].
  rewrite Hb in Hslot |- *.
  rewrite (list_lookup_middle _ _ _ (N.to_nat (size_ v))) in Hslot
    by (rewrite length_fmap; lia).
  injection Hslot as <-.
  rewrite insert_at_length by (rewrite length_fmap; lia).
  rewrite wrap_small by lia.
  assert (((Some <$> l) ++ Some x :: rest : Block T)
          = (Some <$> l ++ [x]) ++ rest) as Hshape
    by (by rewrite fmap_app, <-app_assoc).
  destruct (view_wf (mkVector (mkRawMemory ((Some <$> l) ++ Some x :: rest)
              (capacity_ (data_ v))) (size_ v + 1)) (l ++ [x]) rest)
    as [Hwf' Hel']; [done|simpl; rewrite length_app; simpl; lia| |done|].
  { unfold Capacity, RawMemory_Capacity in *. simpl in *.
    rewrite length_app. simpl. lia. }
  split_and!; [done|done|done|done|done|done|done|].
  simpl. by destruct s'.
Qed.

Lemma push_back_body_in_place_Thrown init v w ex v' w' :
  size_ v < Capacity v →
  push_back_body init v w = Thrown ex v' w' →
  v' = v ∧ delta w w' [] [].
Proof.
  intros Hspare. unfold push_back_body.
  replace (size_ v <? Capacity v) with true by (symmetry; apply N.ltb_lt; lia).
  destruct (construct_at _ _ _ _) as [?|? b w1|] eqn:Hcon; [done| |done].
  apply construct_at_Thrown in Hcon as (-> & _ & Hd).
  intros [= <- <- <-]. by rewrite with_block_block.
Qed.

(** A push that returns. *)
Lemma push_back_body_appends `{!ValueSemantics T} init v w l v' w' :
  wf v → elements v = Some l →
  push_back_body init v w = Done v' w' →
  ∃ x, initialises init x ∧ wf v' ∧ elements v' = Some (l ++ [x])
    ∧ size_ v' = size_ v + 1.
Proof.
  intros Hwf Hel Hop.
  destruct (decide (size_ v < Capacity v)) as [Hspare|Hfull].
  - destruct (push_back_body_in_place_Done init v w l v' w')
      as (x & ? & ? & _ & _ & ? & ? & ? & _); eauto.
  - destruct (push_back_body_realloc_Done init v w l v' w')
      as (x & l' & rs & Hx & Hrel & _ & Hwf' & Hel' & _); [done|done|lia|done|].
    apply relocated_value in Hrel as ->.
    exists x. split_and!; [done..|].
    destruct (wf_view v Hwf) as (l0 & ? & Hl & _ & Hs & _).
    rewrite Hel in Hl. injection Hl as <-.
    destruct (wf_view v' Hwf') as (l0 & ? & Hl & _ & Hs' & _).
    rewrite Hel' in Hl. injection Hl as <-.
    rewrite length_app in Hs'. simpl in Hs'. lia.
Qed.

(** [Insert(end(), x)] against [PushBack(x)]. *)
Lemma relocate_n_0 src first dst d_first w :
  relocate_n src first 0 dst d_first w = Done (src, dst) w.
Proof. unfold relocate_n. by case_match. Qed.

Lemma Emplace_at_end init v w :
  size_ v < size_t_modulus →
  match push_back_body init v w with
  | Done v' w' => Emplace (size_ v) init v w = Done (v', size_ v) w'
  | Thrown _ _ _ => ∀ v' p w', Emplace (size_ v) init v w ≠ Done (v', p) w'
  | Abort f => Emplace (size_ v) init v w = Abort f
  end.
Proof.
  intros Hs. unfold push_back_body, Emplace, begin_, end_.
  rewrite N.eqb_refl, N.add_0_l.
  destruct (size_ v <? Capacity v).
  { destruct (construct_at _ _ _ _); [done| |done]. by intros. }
  destruct (RawMemory_new _ _) as [nd w1|?|]; [|by intros|done].
  destruct (construct_at _ _ _ _) as [nb w2|?|]; [|by intros|done].
  destruct (relocate_n _ _ _ _ _ _) as [[old nb1] w3|? [old nb1] w3|];
    [| |done].
  - rewrite wsub_le, N.sub_diag, relocate_n_0 by lia.
    by destruct (DestroyN _ _ _ _) as [[]|].
  - intros v' p w'. by destruct (Destroy _ _ _) as [[]|].
Qed.

(** ** Runs of pushes *)

Lemma pushed_in_place `{!ValueSemantics T} xs : ∀ v w v2 w2 l,
  wf v → elements v = Some l →
  size_ v + N.of_nat (length xs) ≤ Capacity v →
  pushed v w xs v2 w2 →
  wf v2 ∧ elements v2 = Some (l ++ xs) ∧ Capacity v2 = Capacity v
  ∧ trace w2 = trace w ++ (EvConstruct ByCopy <$> xs).
Proof.
  induction xs as [|x xs IH]; intros v w v2 w2 l Hwf Hel Hfit Hpush.
  { inversion Hpush; subst. by rewrite !app_nil_r. }
  inversion Hpush as [|? ? ? v1 w1 ? ? ? Hop Hrest]; subst.
  simpl in Hfit.
  apply (push_back_body_in_place_Done (ICopy x) v w l) in Hop
    as (x' & rest & Hx & _ & _ & Hwf1 & Hel1 & Hs1 & Hc1 & Htr & _);
    [|done|done|lia].
  assert (x' = x) as -> by (apply initialises_value; by left).
  destruct (IH v1 w1 v2 w2 (l ++ [x]) Hwf1 Hel1 ltac:(lia) Hrest)
    as (Hwf2 & Hel2 & Hc2 & Htr2).
  split_and!; [done|by rewrite Hel2, <-app_assoc|lia|].
  rewrite Htr2, Htr. simpl. by rewrite <-app_assoc.
Qed.

(** A push into spare capacity asks of the vector only that its elements
    are alive: it returns only when the slot behind them is in the block. *)
Lemma push_back_body_spare_Done init v w l v' w' :
  elements v = Some l → size_ v < Capacity v → Capacity v < size_t_modulus →
  push_back_body init v w = Done v' w' →
  ∃ x, initialises init x ∧ elements v' = Some (l ++ [x])
    ∧ size_ v' = size_ v + 1 ∧ Capacity v' = Capacity v
    ∧ trace w' = trace w ++ [EvConstruct (init_kind init) x].
Proof.
  intros [Hsize Htake]%elements_Some Hspare Hcap. unfold push_back_body.
  replace (size_ v <? Capacity v) with true by (symmetry; apply N.ltb_lt; lia).
  destruct (construct_at _ _ _ _) as [b w1|?|] eqn:Hcon; [|done..].
  apply construct_at_Done in Hcon as (s & x & Hslot & -> & Hx & Htr & _).
  intros [= <- <-]. exists x. rewrite wrap_small by lia.
  split_and!; [done| |done..].
  apply elements_Some. simpl. rewrite length_app. simpl. split; [lia|].
  unfold block at 1. simpl.
  rewrite <-(take_drop_middle _ _ _ Hslot), Hsize, Htake.
  rewrite insert_at_length by (by rewrite length_fmap).
  rewrite fmap_app, (cons_middle (Some x)), app_assoc. simpl.
  apply take_app_length'. rewrite length_app, length_fmap. simpl. lia.
Qed.

Lemma pushed_spare `{!ValueSemantics T} xs : ∀ v w v2 w2 l,
  elements v = Some l → Capacity v < size_t_modulus →
  size_ v + N.of_nat (length xs) ≤ Capacity v →
  pushed v w xs v2 w2 →
  elements v2 = Some (l ++ xs) ∧ Capacity v2 = Capacity v
  ∧ trace w2 = trace w ++ (EvConstruct ByCopy <$> xs).
Proof.
  induction xs as [|x xs IH]; intros v w v2 w2 l Hel Hcap Hfit Hpush.
  { inversion Hpush; subst. by rewrite !app_nil_r. }
  inversion Hpush as [|? ? ? v1 w1 ? ? ? Hop Hrest]; subst.
  simpl in Hfit.
  apply (push_back_body_spare_Done (ICopy x) v w l) in Hop
    as (x' & Hx & Hel1 & Hs1 & Hc1 & Htr); [|done|lia|done].
  assert (x' = x) as -> by (apply initialises_value; by left).
  destruct (IH v1 w1 v2 w2 (l ++ [x]) Hel1 ltac:(lia) ltac:(lia) Hrest)
    as (Hel2 & Hc2 & Htr2).
  split_and!; [by rewrite Hel2, <-app_assoc|lia|].
  rewrite Htr2, Htr. simpl. by rewrite <-app_assoc.
Qed.

(** ** Objects that stay alive *)


Lemma covers_refl b : covers b b.
Proof. split; [done|]. intros i x Hx. by exists x. Qed.


Lemma covers_insert b i (x : T) : covers b (<[i:=Some x]> b).
Proof.
  split; [apply length_insert|]. intros j y Hy.
  destruct (decide (i = j)) as [->|Hne].
  - exists x. apply list_lookup_insert_eq. by eapply lookup_lt_Some.
  - exists y. by rewrite list_lookup_insert_ne.
Qed.

Lemma covers_store b i (x : T) : covers b (store_at b i (Some x)).
Proof. apply covers_insert. Qed.








(** The element-level steps keep every object of the block they work in. *)
Lemma construct_at_covers b i init w :
  match construct_at b i init w with
  | Done b' _ | Thrown _ b' _ => covers b b'
  | Abort _ => True
  end.
Proof.
  unfold construct_at. destruct (slot_at b i); [|done].
  destruct (call_ctor init w); [apply covers_store|apply covers_refl|done].
Qed.









(** ** Well formed vectors stay well formed *)













Lemma wf_default : wf (Vector_default : Vector T).
Proof. by apply (view_wf _ [] []). Qed.







(** ** Growth by doubling *)
Lemma doubled_capacity_in_place k :
  k < doubled_capacity k → doubled_capacity (k + 1) = doubled_capacity k.
Proof.
  unfold doubled_capacity. destruct (k =? 0) eqn:Hk; [lia|].
  apply N.eqb_neq in Hk. intros Hlt.
  replace (k + 1 =? 0) with false by (symmetry; apply N.eqb_neq; lia).
  rewrite N.add_1_r.
  destruct (N.log2_up_succ_or k) as [Hs| ->]; [|done].
  apply N.log2_up_eq_succ_is_pow2 in Hs as [j ->].
  rewrite N.log2_up_pow2 in Hlt by lia. lia.
Qed.

Lemma doubled_capacity_full k :
  k = doubled_capacity k →
  doubled_capacity (k + 1) = N.max 1 (2 * doubled_capacity k).
Proof.
  unfold doubled_capacity. destruct (k =? 0) eqn:Hk.
  { apply N.eqb_eq in Hk as ->. done. }
  apply N.eqb_neq in Hk. intros Heq.
  replace (k + 1 =? 0) with false by (symmetry; apply N.eqb_neq; lia).
  rewrite N.add_1_r.
  assert (N.log2_up (N.succ k) = N.succ (N.log2_up k)) as ->.
  { apply N.log2_up_eq_succ_iff_pow2; [lia|]. by exists (N.log2_up k). }
  rewrite N.pow_succ_r'. assert (0 < 2 ^ N.log2_up k) by lia. lia.
Qed.

Lemma pushed_doubles `{!ValueSemantics T} xs : ∀ v w v2 w2 l,
  wf v → elements v = Some l → Capacity v = doubled_capacity (size_ v) →
  pushed v w xs v2 w2 →
  wf v2 ∧ elements v2 = Some (l ++ xs)
  ∧ Capacity v2 = doubled_capacity (size_ v2).
Proof.
  induction xs as [|x xs IH]; intros v w v2 w2 l Hwf Hel Hcap Hpush.
  { inversion Hpush; subst. by rewrite app_nil_r. }
  inversion Hpush as [|? ? ? v1 w1 ? ? ? Hop Hrest]; subst.
  pose proof Hop as (x' & Hx & Hwf1 & Hel1 & Hs1)
    %(push_back_body_appends _ _ _ l); [|done..].
  assert (x' = x) as -> by (apply initialises_value; by left).
  destruct (IH v1 w1 v2 w2 (l ++ [x]) Hwf1 Hel1) as (Hwf2 & Hel2 & Hc2);
    [|done|by rewrite <-app_assoc in Hel2].
  rewrite Hs1. pose proof Hwf as (_ & Hlt & Hle & _).
  apply push_back_body_Done in Hop as [_ [[Hspare ->]|(Hfull & -> & Hg)]].
  - rewrite doubled_capacity_in_place; [done|lia].
  - rewrite grown_size_max by done. rewrite Hcap.
    symmetry. apply doubled_capacity_full. lia.
Qed.


(** ** Capacity that is kept *)

Lemma Vector_copy_Capacity other w v w' :
  Vector_copy other w = Done v w' → Capacity v = size_ other.
Proof.
  unfold Vector_copy.
  destruct (RawMemory_new _ w) as [nd w1|?|] eqn:Hnew; [|done..].
  apply RawMemory_new_Done in Hnew as (-> & Hc & Hb).
  intros; repeat case_match; by simplify_eq.
Qed.

Lemma copy_assign_Capacity this rhs w :
  ensures id (λ v', Capacity this ≤ Capacity v') (copy_assign this rhs w).
Proof.
  unfold copy_assign.
  destruct (Capacity this <? size_ rhs) eqn:Hcap.
  { apply N.ltb_lt in Hcap.
    destruct (Vector_copy rhs w) as [c w1|?|] eqn:Hcopy; [|simpl; lia|done].
    apply Vector_copy_Capacity in Hcopy. rewrite Swap_fst_snd.
    destruct (Vector_dtor _ _); simpl; [lia..|done]. }
  repeat case_match; simpl; try done; unfold Capacity; simpl; lia.
Qed.

(** ** Inserts into spare capacity, call by call *)

Lemma move_backward_loop_shift_delta vs :
  ∀ pre (d0 : T) post last d_last w b' w',
  N.to_nat last = (length pre + length vs)%nat → d_last = last + 1 →
  move_backward_loop (pre ++ (Some <$> vs) ++ Some d0 :: post)
    (length vs) last d_last w = Done b' w' →
  ∃ r ys, Forall2 move_assigned vs ys
    ∧ b' = pre ++ Some r :: (Some <$> ys) ++ post
    ∧ delta w w' (EvAssign MoveAssign <$> reverse ys) [].
Proof.
  induction vs as [|u vs IH] using rev_ind;
    intros pre d0 post last d_last w b' w' Hl Hd.
  { simpl. intros [= <- <-]. exists d0, [].
    split_and!; [done..|apply delta_refl]. }
  rewrite length_app, Nat.add_1_r in *. simpl.
  destruct (last =? 0) eqn:Hz; [apply N.eqb_eq in Hz; lia|].
  destruct (d_last =? 0) eqn:Hz'; [apply N.eqb_eq in Hz'; lia|]. simpl.
  rewrite fmap_app, <-!app_assoc. simpl.
  pose proof (move_assign_within_up (pre ++ (Some <$> vs)) u d0 post
                (last - 1) (d_last - 1) w) as Hstep.
  rewrite <-app_assoc in Hstep.
  destruct (move_assign_within _ (last - 1) (d_last - 1) w)
    as [b1 w1|ex b1 w1|]; [|done..].
  destruct Hstep as (d' & r & Hm & -> & Hd1);
    [rewrite length_app, length_fmap; lia|lia|].
  rewrite <-app_assoc. intros Hloop.
  destruct (IH pre r (Some d' :: post) (last - 1) (d_last - 1) w1 b' w')
    as (r' & ys & Hys & -> & Hd2); [lia|lia|done|].
  exists r', (ys ++ [d']). split_and!.
  - apply Forall2_app; [done|]. by constructor.
  - by rewrite fmap_app, <-app_assoc.
  - rewrite reverse_app. simpl. by eapply delta_cons.
Qed.

Lemma move_assign_from_Done_delta pre (d : T) post j value w b' r w' :
  N.to_nat j = length pre →
  move_assign_from (pre ++ Some d :: post) j value w = Done (b', r) w' →
  ∃ d', move_assigned value d' ∧ b' = pre ++ Some d' :: post
    ∧ delta w w' [EvAssign MoveAssign d'] [].
Proof.
  intros Hj. unfold move_assign_from, slot_at, store_at.
  rewrite Hj, list_lookup_middle by done.
  pose proof (call_assign_move_spec d value w) as Hcall.
  destruct (call_assign_move d value w) as [[d' r'] w1|? [? ?] ?|]; [|done..].
  destruct Hcall as [Hm Hd]. intros [= <- <- <-]. exists d'.
  split_and!; [done| |done]. by apply insert_at_length.
Qed.

(** ** Spare capacity that stays raw *)













(** ** Calls that return keep vectors tidy and lose no object *)






Lemma move_construct_within_Done b i j w b' w' :
  move_construct_within b i j w = Done b' w' →
  ∃ u s x r, b !! N.to_nat i = Some (Some u) ∧ b !! N.to_nat j = Some s
    ∧ moved u x
    ∧ b' = <[N.to_nat j:=Some x]> (<[N.to_nat i:=Some r]> b)
    ∧ delta w w' [EvConstruct ByMove x] (option_list s).
Proof.
  unfold move_construct_within, slot_at, store_at.
  destruct (b !! N.to_nat i) as [[u|]|]; [|done..].
  destruct (b !! N.to_nat j) as [s|]; [|done].
  destruct (call_ctor_move u w) as [[x r] w1|?|] eqn:Hc; [|done..].
  apply call_ctor_move_Done in Hc as [Hm Hd]. intros [= <- <-].
  exists u, s, x, r. split_and!; [done..|]. by apply (delta_leak _ _ _ _ []).
Qed.

















(** ** The properties *)

(** X1.  [Vector(size)] that returns holds [size] value-initialised
    elements, with size and capacity [size], and has made exactly those
    constructor calls.  When it throws, every element it constructed has
    been destroyed and none is lost.  It returns when no operation of the
    element type throws and the storage of [size] objects is within what
    the allocator grants and within the range of [size_t].  It does not
    return when [size * sizeof(T)] is beyond the range of [size_t]: the
    byte count handed to [operator new] has wrapped, and the block has no
    room for [size] objects. *)
Theorem Vector_sized_constructs_defaults n w :
  n < size_t_modulus →
  (∀ v w', Vector_sized n w = Done v w' →
     wf v ∧ size_ v = n ∧ Capacity v = n
     ∧ ∃ ds, elements v = Some ds
         ∧ trace w' = trace w ++ (EvConstruct ByDefault <$> ds)
         ∧ leaked w' = leaked w)
  ∧ (∀ ex u w', Vector_sized n w = Thrown ex u w' →
       leaked w' = leaked w
       ∧ ∃ ds, N.of_nat (length ds) < n
           ∧ trace w' = trace w ++ (EvConstruct ByDefault <$> ds)
                          ++ (EvDestroy <$> ds))
  ∧ (NoThrow T → n ≤ alloc_limit w → ∃ v w', Vector_sized n w = Done v w')
  ∧ (size_t_modulus ≤ n * sizeof → ∀ v w', Vector_sized n w ≠ Done v w').
Proof.
  intros Hn. split_and!; [| |intros ? ?; by apply Vector_sized_returns|].
  3:{ intros Hwrap v w' Hop%Vector_sized_Done_fits. lia. }
  - intros v w' (ds & Hlen & -> & Htr & Hlk & _)%Vector_sized_Done.
    destruct (view_wf (mkVector (mkRawMemory (Some <$> ds) n) n) ds [])
      as [Hwf Hel]; simpl; [by rewrite app_nil_r|lia| |done|].
    { unfold Capacity. simpl. lia. }
    split_and!; [done..|]. exists ds. rewrite Hlk, app_nil_r. by split_and!.
  - intros ex u w' (ds & Hlen & Htr & Hlk & _)%Vector_sized_Thrown.
    split; [by rewrite Hlk, app_nil_r|]. exists ds. split; [lia|done].
Qed.

(** X2.  The copy constructor, when it returns, gives a vector with the
    elements of the source, whose size and capacity are both the size of
    the source, having made one copy construction per element, in order.
    When it throws, every copy it made has been destroyed and none is lost.
    It returns when no operation of the element type throws and the
    allocator grants the storage. *)
Theorem Vector_copy_copies_elements `{!ValueSemantics T} other w l :
  wf other → elements other = Some l →
  (∀ v w', Vector_copy other w = Done v w' →
     wf v ∧ elements v = Some l
     ∧ size_ v = size_ other ∧ Capacity v = size_ other
     ∧ trace w' = trace w ++ (EvConstruct ByCopy <$> l)
     ∧ leaked w' = leaked w)
  ∧ (∀ ex u w', Vector_copy other w = Thrown ex u w' →
       leaked w' = leaked w
       ∧ ∃ xs, (length xs < length l)%nat
           ∧ trace w' = trace w ++ (EvConstruct ByCopy <$> xs)
                          ++ (EvDestroy <$> xs))
  ∧ (NoThrow T → size_ other ≤ alloc_limit w →
     ∃ v w', Vector_copy other w = Done v w').
Proof.
  intros Hwf Hel.
  destruct (wf_view other Hwf) as (l0 & rest & Hl & Hb & Hso & Hco & Hlt).
  rewrite Hel in Hl. injection Hl as <-.
  split_and!; [| |intros ? ?; by eapply Vector_copy_returns].
  - intros v w' Hop.
    destruct (Vector_copy_Done other w v w' l Hwf Hel Hop)
      as (xs & Hcp & -> & Hs & Hc & Htr & Hlk & _).
    apply copied_value in Hcp as ->.
    destruct (view_wf (full_vector l) l []) as [Hwf' Hel'];
      [by rewrite app_nil_r|done| |lia|].
    { unfold Capacity. simpl. lia. }
    split_and!; [done..|by rewrite Hlk, app_nil_r].
  - intros ex u w' Hop.
    destruct (Vector_copy_Thrown other w ex u w' l Hwf Hel Hop)
      as (xs & Hlen & Htr & Hlk & _).
    split; [by rewrite Hlk, app_nil_r|]. by exists xs.
Qed.

(** X3.  Copy assignment from a vector that does not fit the capacity is
    copy and swap: it returns with the elements of the source and with
    capacity the size of the source, after one copy construction per
    element of the source and the destruction of each old element; or it
    throws, because the allocation or a copy construction throws, and then
    the vector is as it was and no object is lost.  The one other outcome
    is undefined behaviour, when the size of the source in bytes is beyond
    the range of [size_t], so that the copy gets a short block. *)
Theorem copy_assign_reallocating_is_copy_and_swap `{!ValueSemantics T}
    this rhs w l r :
  wf this → wf rhs → elements this = Some l → elements rhs = Some r →
  Capacity this < size_ rhs →
  match copy_assign this rhs w with
  | Done v w' =>
      wf v ∧ elements v = Some r ∧ Capacity v = size_ rhs
      ∧ trace w' = trace w ++ (EvConstruct ByCopy <$> r) ++ (EvDestroy <$> l)
      ∧ leaked w' = leaked w ++ live (drop (length l) (block this))
  | Thrown ex v w' =>
      v = this ∧ leaked w' = leaked w
      ∧ ((ex = bad_alloc ∧ alloc_limit w < size_ rhs) ∨ copy_ctor_can_throw)
  | Abort _ => size_t_modulus ≤ size_ rhs * sizeof
  end.
Proof.
  intros Hwf Hwfr Hel Helr Hlt.
  pose proof (copy_assign_realloc_Done this rhs w l r) as HDone.
  pose proof (copy_assign_realloc_Thrown this rhs w l r) as HThrown.
  pose proof (Vector_copy_defined rhs w r Hwfr Helr) as Hdef.
  destruct (wf_view rhs Hwfr) as (l0 & rest & Hl & Hb & Hs & Hc & Hcap).
  rewrite Helr in Hl. injection Hl as <-.
  destruct (copy_assign this rhs w) as [v w'|ex v w'|f] eqn:Hop.
  - destruct (HDone v w') as (xs & Hcp & -> & Hc' & Htr & Hlk & _); [done..|].
    apply copied_value in Hcp as ->.
    destruct (view_wf (full_vector r) r []) as [Hwf' Hel'];
      [by rewrite app_nil_r|done| |lia|].
    { unfold Capacity. simpl. lia. }
    split_and!; [done|done|done|by rewrite Htr|done].
  - destruct (HThrown ex v w') as (-> & xs & _ & _ & Hlk & _); [done..|].
    split_and!; [done|by rewrite Hlk, app_nil_r|].
    revert Hop Hdef. unfold copy_assign.
    replace (Capacity this <? size_ rhs) with true
      by (symmetry; apply N.ltb_lt; lia).
    destruct (Vector_copy rhs w) as [rc w1|ex1 u1 w1|]; [| |done].
    + rewrite Swap_fst_snd.
      by destruct (Vector_dtor_spec this w1 l Hwf Hel) as (w2 & -> & _).
    + by intros [= <- <-].
  - revert Hop Hdef. unfold copy_assign.
    replace (Capacity this <? size_ rhs) with true
      by (symmetry; apply N.ltb_lt; lia).
    destruct (Vector_copy rhs w) as [rc w1|ex1 u1 w1|]; [|done|].
    + rewrite Swap_fst_snd.
      by destruct (Vector_dtor_spec this w1 l Hwf Hel) as (w2 & -> & _).
    + by intros _ ?.
Qed.

(** X4.  Copy assignment from a vector that is at least as long and fits
    the capacity works in place: it copy assigns over the existing elements
    and copy constructs the others behind them, keeps the capacity and ends
    with the elements of the source.  When it throws, because a copy
    assignment or a copy construction of the element type throws, the
    vector is well formed with its size and capacity. *)
Theorem copy_assign_in_place_assigns_then_constructs `{!ValueSemantics T}
    this rhs w l r1 r2 :
  wf this → wf rhs → elements this = Some l →
  elements rhs = Some (r1 ++ r2) → length r1 = length l →
  size_ rhs ≤ Capacity this →
  match copy_assign this rhs w with
  | Done v w' =>
      wf v ∧ elements v = Some (r1 ++ r2) ∧ Capacity v = Capacity this
      ∧ trace w' = trace w ++ (EvAssign CopyAssign <$> r1)
                     ++ (EvConstruct ByCopy <$> r2)
      ∧ leaked w'
        = leaked w ++ live (take (length r2) (drop (length l) (block this)))
  | Thrown _ v w' =>
      (copy_assign_can_throw ∨ copy_ctor_can_throw)
      ∧ wf v ∧ size_ v = size_ this ∧ Capacity v = Capacity this
  | Abort _ => False
  end.
Proof.
  intros Hwf Hwfr Hel Helr Hlen Hfit.
  pose proof (copy_assign_in_place this rhs w l r1 r2 Hwf Hwfr Hel Helr
                Hlen Hfit) as Hspec.
  destruct (wf_view this Hwf) as (l0 & rest & Hl & Hb & Hs & Hc & Hlt).
  rewrite Hel in Hl. injection Hl as <-.
  destruct (wf_view rhs Hwfr) as (l0 & rest' & Hl & Hb' & Hs' & Hc' & Hlt').
  rewrite Helr in Hl. injection Hl as <-.
  destruct (copy_assign this rhs w) as [v w'|ex v w'|f]; [| |done].
  - destruct Hspec
      as (ys & xs & rest1 & Hys & Hxs & Hbv & Hlenv & Hsv & Hcv & Htr & Hlk & _).
    apply copy_assigned_value in Hys as ->.
    apply copied_value in Hxs as ->.
    rewrite Hb, length_app, length_fmap in Hlenv.
    destruct (view_wf v (r1 ++ r2) rest1) as [Hwf' Hel']; [done|lia| |lia|].
    { rewrite Hbv, length_app, length_fmap in Hlenv. lia. }
    split_and!; [done|done|done|by rewrite Htr, app_assoc|done].
  - destruct Hspec as (Hthrow & ys & rest1 & Hys & Hbv & Hlenv & Hsv & Hcv).
    rewrite Hb, length_app, length_fmap in Hlenv.
    destruct (view_wf v ys rest1) as [Hwf' Hel']; [done|lia| |lia|].
    { rewrite Hbv, length_app, length_fmap in Hlenv. lia. }
    by split_and!.
Qed.

(** X5.  Copy assignment from an empty vector returns: it destroys every
    element, front to back, leaves the size 0 and keeps the capacity. *)
Theorem copy_assign_from_empty_destroys_all this rhs w l :
  wf this → elements this = Some l → size_ rhs = 0 →
  ∃ v w', copy_assign this rhs w = Done v w'
    ∧ wf v ∧ elements v = Some [] ∧ size_ v = 0
    ∧ Capacity v = Capacity this
    ∧ trace w' = trace w ++ (EvDestroy <$> l) ∧ leaked w' = leaked w.
Proof.
  intros Hwf Hel Hempty.
  destruct (copy_assign_from_empty this rhs w l Hwf Hel Hempty)
    as (v & w' & Hop & Hwf' & Hel' & Hc & Htr & Hlk).
  exists v, w'. split_and!; [done..| |done|done|done].
  destruct (wf_view v Hwf') as (l0 & ? & Hl & _ & Hs & _).
  rewrite Hel' in Hl. by injection Hl as <-.
Qed.

(** X6.  [Reserve(n)] that returns keeps the elements and the size, and
    leaves the capacity [max(capacity, n)]: exactly [n] when it
    reallocates, and nothing at all changes when [n] does not exceed the
    capacity.  The vector it leaves is well formed exactly when it kept the
    block or [n * sizeof(T)] is within the range of [size_t]: beyond it the
    byte count handed to [operator new] has wrapped, and the capacity [n]
    stands over a block of fewer slots.  It returns when no operation of
    the element type throws and the allocator grants [n] slots. *)
Theorem Reserve_keeps_elements `{!ValueSemantics T} n v w l :
  wf v → elements v = Some l → n < size_t_modulus →
  (∀ v' w', Reserve n v w = Done v' w' →
     elements v' = Some l ∧ size_ v' = size_ v
     ∧ Capacity v' = N.max (Capacity v) n
     ∧ (n ≤ Capacity v → v' = v ∧ w' = w)
     ∧ (wf v' ↔ n ≤ Capacity v ∨ n * sizeof < size_t_modulus))
  ∧ (NoThrow T → n ≤ alloc_limit w → ∃ v' w', Reserve n v w = Done v' w').
Proof.
  intros Hwf Hel Hn. split; [|intros ? ?; by eapply Reserve_returns].
  intros v' w' Hres. destruct (decide (n ≤ Capacity v)) as [Hfit|Hgrow].
  - rewrite Reserve_keep in Hres by done. injection Hres as <- <-.
    split_and!; [done..|lia|done|]. split; [by left|done].
  - apply (Reserve_grow_Done n v w l) in Hres
      as (l' & rs & Hrel & _ & [Hb Hroom] & Hs & Hc & Hwf' & Hel' & _);
      [|done|done|lia|done].
    apply Forall2_length in Hrel as Hlen.
    apply relocated_value in Hrel as ->.
    split_and!; [done..|lia|lia|]. split.
    + intros (Hblock & _). right. apply granted_eq_fits.
      rewrite Hb, Hc, length_app, length_fmap, length_replicate in Hblock.
      lia.
    + intros [?|Hfits]; [lia|]. by apply Hwf', granted_fits.
Qed.

(** X7.  For an element type whose move constructor is declared
    non-throwing or which is copyable, a [Reserve] that throws leaves the
    vector as it was and loses no object; it throws only when it has to
    reallocate. *)
Theorem Reserve_throw_leaves_vector_unchanged n v w ex v' w' :
  is_nothrow_move_constructible = true ∨ is_copy_constructible = true →
  Reserve n v w = Thrown ex v' w' →
  v' = v ∧ leaked w' = leaked w ∧ Capacity v < n.
Proof.
  intros Hpolicy Hres.
  destruct (Reserve_Thrown_unchanged n v w ex v' w' Hpolicy Hres) as [-> ?].
  split_and!; [done..|].
  destruct (decide (n ≤ Capacity v)) as [Hfit|]; [|lia].
  by rewrite Reserve_keep in Hres.
Qed.

(** X8.  A push that returns appends: the vector holds its old elements
    followed by the new one and its size is one more.  [EmplaceBack]
    returns a reference to the new last element. *)
Theorem PushBack_appends `{!ValueSemantics T} init value v w l :
  wf v → elements v = Some l →
  (∀ v' w', PushBack value v w = Done v' w' →
     wf v' ∧ elements v' = Some (l ++ [value]) ∧ size_ v' = size_ v + 1)
  ∧ (∀ v' w', PushBack_rvalue value v w = Done v' w' →
       wf v' ∧ elements v' = Some (l ++ [value]) ∧ size_ v' = size_ v + 1)
  ∧ (∀ v' p w', EmplaceBack init v w = Done (v', p) w' →
       ∃ x, initialises init x ∧ wf v' ∧ elements v' = Some (l ++ [x])
         ∧ size_ v' = size_ v + 1
         ∧ p = size_ v ∧ Vector_at p v' = Some x).
Proof.
  intros Hwf Hel. split_and!.
  - intros v' w' (x & Hx & ? & ? & ?)%(push_back_body_appends _ _ _ l);
      [|done..].
    assert (x = value) as -> by (apply initialises_value; by left). done.
  - intros v' w' (x & Hx & ? & ? & ?)%(push_back_body_appends _ _ _ l);
      [|done..].
    assert (x = value) as -> by (apply initialises_value; by right). done.
  - intros v' p w'. unfold EmplaceBack.
    destruct (push_back_body init v w) as [v1 w1|?|] eqn:Hop; [|done..].
    intros [= <- <- <-].
    apply (push_back_body_appends _ _ _ l) in Hop
      as (x & Hx & Hwf' & Hel' & Hs); [|done..].
    destruct (wf_view v1 Hwf') as (l0 & ? & Hl & _ & Hs' & _ & Hlt).
    rewrite Hel' in Hl. injection Hl as <-.
    assert (wsub (size_ v1) 1 = size_ v) as Hp.
    { pose proof Hwf' as (_ & ? & ? & _). rewrite wsub_le by lia. lia. }
    exists x. split_and!; [done..|].
    rewrite Hp.
    destruct (Vector_at_lookup v1 (l ++ [x]) (size_ v) Hwf' Hel') as [-> _].
    destruct (wf_view v Hwf) as (l0 & ? & Hl & _ & Hsv & _).
    rewrite Hel in Hl. injection Hl as <-.
    rewrite lookup_app_r by lia.
    by replace (N.to_nat (size_ v) - length l)%nat with 0%nat by lia.
Qed.

(** X9.  A push into spare capacity makes one constructor call, on the new
    element, and keeps the capacity; when that constructor throws, the
    vector and the world of objects are as before the call. *)
Theorem PushBack_with_spare_capacity init value v w l :
  wf v → elements v = Some l → size_ v < Capacity v →
  (∀ v' w', PushBack value v w = Done v' w' →
     ∃ x, elements v' = Some (l ++ [x]) ∧ Capacity v' = Capacity v
       ∧ trace w' = trace w ++ [EvConstruct ByCopy x])
  ∧ (∀ v' w', PushBack_rvalue value v w = Done v' w' →
       ∃ x, elements v' = Some (l ++ [x]) ∧ Capacity v' = Capacity v
         ∧ trace w' = trace w ++ [EvConstruct ByMove x])
  ∧ (∀ v' p w', EmplaceBack init v w = Done (v', p) w' →
       ∃ x, elements v' = Some (l ++ [x]) ∧ Capacity v' = Capacity v
         ∧ trace w' = trace w ++ [EvConstruct (init_kind init) x])
  ∧ (∀ ex v' w', PushBack value v w = Thrown ex v' w' →
       v' = v ∧ trace w' = trace w ∧ leaked w' = leaked w)
  ∧ (∀ ex v' w', PushBack_rvalue value v w = Thrown ex v' w' →
       v' = v ∧ trace w' = trace w ∧ leaked w' = leaked w)
  ∧ (∀ ex v' w', EmplaceBack init v w = Thrown ex v' w' →
       v' = v ∧ trace w' = trace w ∧ leaked w' = leaked w).
Proof.
  intros Hwf Hel Hspare.
  assert (∀ i v' w', push_back_body i v w = Done v' w' →
            ∃ x, elements v' = Some (l ++ [x]) ∧ Capacity v' = Capacity v
              ∧ trace w' = trace w ++ [EvConstruct (init_kind i) x]) as HDone.
  { intros i v' w' Hop.
    apply (push_back_body_in_place_Done i v w l) in Hop
      as (x & rest & _ & _ & _ & _ & ? & _ & ? & ? & _); [|done..].
    by exists x. }
  assert (∀ i ex v' w', push_back_body i v w = Thrown ex v' w' →
            v' = v ∧ trace w' = trace w ∧ leaked w' = leaked w) as HThrown.
  { intros i ex v' w' Hop.
    apply push_back_body_in_place_Thrown in Hop as (-> & Htr & Hlk & _);
      [|done].
    by rewrite Htr, Hlk, !app_nil_r. }
  split_and!.
  - intros v' w'. apply (HDone (ICopy value)).
  - intros v' w'. apply (HDone (IMove value)).
  - intros v' p w'. unfold EmplaceBack.
    destruct (push_back_body init v w) as [v1 w1|?|] eqn:Hop; [|done..].
    intros [= <- <- <-]. by apply HDone.
  - intros ex v' w'. apply (HThrown (ICopy value)).
  - intros ex v' w'. apply (HThrown (IMove value)).
  - intros ex v' w'. unfold EmplaceBack.
    destruct (push_back_body init v w) as [?|ex1 v1 w1|] eqn:Hop; [done| |done].
    intros [= <- <- <-]. by eapply HThrown.
Qed.

(** X10.  After [Reserve(n)], pushes that take the size up to at most [n]
    do not reallocate: the capacity stays what [Reserve] left, the elements
    are the old ones followed by the pushed ones, and the only constructor
    calls are the copy constructions of the pushed values. *)
Theorem Reserve_then_PushBack_never_reallocates `{!ValueSemantics T}
    n v w l v1 w1 xs v2 w2 :
  wf v → elements v = Some l → n < size_t_modulus →
  N.of_nat (length l + length xs) ≤ n →
  Reserve n v w = Done v1 w1 → pushed v1 w1 xs v2 w2 →
  Capacity v2 = Capacity v1 ∧ elements v2 = Some (l ++ xs)
  ∧ trace w2 = trace w1 ++ (EvConstruct ByCopy <$> xs).
Proof.
  intros Hwf Hel Hn Hfit Hres Hpush.
  destruct (wf_view v Hwf) as (l0 & rest & Hl & _ & Hs & _).
  rewrite Hel in Hl. injection Hl as <-.
  assert (elements v1 = Some l ∧ size_ v1 = size_ v ∧ n ≤ Capacity v1
          ∧ Capacity v1 < size_t_modulus)
    as (Hel1 & Hs1 & Hc1 & Hlt1).
  { pose proof Hwf as (_ & ? & _).
    destruct (decide (n ≤ Capacity v)) as [Hkeep|Hgrow].
    - rewrite Reserve_keep in Hres by done. by injection Hres as <- <-.
    - apply (Reserve_grow_Done n v w l) in Hres
        as (l' & rs & Hrel & _ & _ & ? & ? & _ & ? & _);
        [|done|done|lia|done].
      apply relocated_value in Hrel as ->. split_and!; [done..|lia|lia]. }
  destruct (pushed_spare xs v1 w1 v2 w2 l Hel1 Hlt1 ltac:(lia) Hpush)
    as (? & ? & ?).
  by split_and!.
Qed.

(** X11.  Pushes onto an empty vector that all return leave the capacity at
    the smallest power of two that is at least the number of elements
    pushed, and the vector holds the pushed values in order. *)
Theorem pushes_from_empty_double_capacity `{!ValueSemantics T} w xs v' w' :
  pushed Vector_default w xs v' w' →
  wf v' ∧ elements v' = Some xs
  ∧ Capacity v' = doubled_capacity (N.of_nat (length xs)).
Proof.
  intros Hpush.
  destruct (pushed_doubles xs Vector_default w v' w' [] wf_default)
    as (Hwf & Hel & Hcap); [done..|].
  destruct (wf_view v' Hwf) as (l & ? & Hl & _ & Hs & _).
  rewrite Hel in Hl. injection Hl as <-. simpl in Hs.
  split_and!; [done..|]. by rewrite Hcap, Hs.
Qed.

(** X12.  [PushBack] followed by [PopBack] restores the elements: the pop
    returns, destroys exactly the pushed element, and leaves the elements
    and the size as before the push; the capacity is the one the push
    left. *)
Theorem PushBack_then_PopBack_restores `{!ValueSemantics T}
    value v w l v1 w1 :
  wf v → elements v = Some l →
  PushBack value v w = Done v1 w1 →
  ∃ v2 w2, PopBack v1 w1 = Done v2 w2
    ∧ elements v2 = Some l ∧ size_ v2 = size_ v
    ∧ Capacity v2 = Capacity v1
    ∧ trace w2 = trace w1 ++ [EvDestroy value].
Proof.
  intros Hwf Hel Hop.
  apply (push_back_body_appends _ _ _ l) in Hop
    as (x & Hx & Hwf1 & Hel1 & Hs1); [|done..].
  assert (x = value) as -> by (apply initialises_value; by left).
  destruct (PopBack_snoc v1 w1 l value Hwf1 Hel1)
    as (v2 & w2 & Hpop & Hwf2 & Hel2 & Hc2 & Htr & _).
  exists v2, w2. split_and!; [done..| |done|done].
  destruct (wf_view v Hwf) as (l0 & ? & Hl & _ & Hs & _).
  rewrite Hel in Hl. injection Hl as <-.
  destruct (wf_view v2 Hwf2) as (l0 & ? & Hl & _ & Hs2 & _).
  rewrite Hel2 in Hl. injection Hl as <-. lia.
Qed.

(** X13.  An insert at [end()] returns exactly when the corresponding push
    returns, with the same vector and the same effects, and the iterator it
    returns designates the new last element. *)
Theorem Insert_at_end_is_PushBack init value v w :
  size_ v < size_t_modulus →
  ∀ v' p w',
    (Insert (end_ v) value v w = Done (v', p) w'
     ↔ PushBack value v w = Done v' w' ∧ p = size_ v)
    ∧ (Insert_rvalue (end_ v) value v w = Done (v', p) w'
       ↔ PushBack_rvalue value v w = Done v' w' ∧ p = size_ v)
    ∧ (Emplace (end_ v) init v w = Done (v', p) w'
       ↔ EmplaceBack init v w = Done (v', p) w').
Proof.
  intros Hs v' p w'.
  assert (∀ i, Emplace (size_ v) i v w = Done (v', p) w'
               ↔ push_back_body i v w = Done v' w' ∧ p = size_ v) as Hiff.
  { intros i. pose proof (Emplace_at_end i v w Hs) as Hend.
    destruct (push_back_body i v w) as [v1 w1|ex v1 w1|f].
    - rewrite Hend. split; [by intros [= <- <- <-]|by intros [[= <- <-] ->]].
    - split; [by intros ?%Hend|by intros [? _]].
    - rewrite Hend. split; [done|by intros [? _]]. }
  unfold end_. split_and!; [apply Hiff..|].
  rewrite Hiff. unfold EmplaceBack.
  pose proof (push_back_body_Done init v w) as Hsize.
  destruct (push_back_body init v w) as [v1 w1|?|]; [|by split; [intros []|]..].
  destruct (Hsize v1 w1 eq_refl) as [Hs1 _].
  assert (wsub (size_ v1) 1 = size_ v) as Hp.
  { rewrite Hs1. destruct (decide (size_ v + 1 < size_t_modulus)).
    - rewrite wrap_small, wsub_le by lia. lia.
    - assert (size_ v + 1 = size_t_modulus) as -> by lia.
      unfold wrap. rewrite N.Div0.mod_same.
      rewrite wsub_gt by done. lia. }
  rewrite Hp. split; [by intros [[= <- <-] ->]|by intros [= <- <- <-]].
Qed.

(** X14.  [PopBack] on an empty vector does nothing; on a vector that ends
    with [x] it destroys [x] and nothing else, leaves the other elements in
    place and keeps the capacity. *)
Theorem PopBack_removes_last_element v w :
  wf v →
  (size_ v = 0 → PopBack v w = Done v w)
  ∧ (∀ l x, elements v = Some (l ++ [x]) →
     ∃ v' w', PopBack v w = Done v' w'
       ∧ wf v' ∧ elements v' = Some l
       ∧ size_ v' = size_ v - 1 ∧ Capacity v' = Capacity v
       ∧ trace w' = trace w ++ [EvDestroy x] ∧ leaked w' = leaked w).
Proof.
  intros Hwf. split; [apply PopBack_empty|].
  intros l x Hel.
  destruct (PopBack_snoc v w l x Hwf Hel)
    as (v' & w' & Hpop & Hwf' & Hel' & Hcap & Htr & Hlk & _).
  exists v', w'.
  destruct (wf_view v Hwf) as (l0 & rest & Hl & _ & Hs & _).
  rewrite Hel in Hl. injection Hl as <-. rewrite length_app in Hs.
  destruct (wf_view v' Hwf') as (l0 & rest' & Hl' & _ & Hs' & _).
  rewrite Hel' in Hl'. injection Hl' as <-. simpl in Hs.
  split_and!; [done|done|done|lia|done|done|by rewrite Hlk, app_nil_r].
Qed.

(** X15.  The destructor returns, having destroyed every element exactly
    once, front to back, and nothing else; an object in a slot beyond
    [size_] is given up without a destructor call. *)
Theorem destructor_destroys_every_element v w l :
  wf v → elements v = Some l →
  ∃ w', Vector_dtor v w = Done () w'
    ∧ trace w' = trace w ++ (EvDestroy <$> l)
    ∧ destructions (trace w') = destructions (trace w) ++ l
    ∧ leaked w' = leaked w ++ live (drop (length l) (block v)).
Proof.
  intros Hwf Hel.
  destruct (Vector_dtor_spec v w l Hwf Hel) as (w' & Hd & Htr & Hlk & _).
  exists w'. split_and!; [done..| |done].
  rewrite Htr. unfold destructions. rewrite omap_app. f_equal.
  clear. induction l as [|x l IH]; [done|]. simpl. by f_equal.
Qed.

(** X16.  [Erase] at the position of the element [x] returns or throws
    because a move assignment of the element type throws.  When it returns,
    the elements are the others in their order, the size is one less, the
    capacity is kept and the iterator returned is the position erased; it
    has move assigned each later element one slot down and then destroyed
    the object left in the last slot, which is [x] itself when [x] was the
    last element. *)
Theorem Erase_removes_element `{!ValueSemantics T} v w l1 x l2 :
  wf v → elements v = Some (l1 ++ x :: l2) →
  match Erase (N.of_nat (length l1)) v w with
  | Done (v', p) w' =>
      wf v' ∧ elements v' = Some (l1 ++ l2)
      ∧ size_ v' = size_ v - 1 ∧ Capacity v' = Capacity v
      ∧ p = N.of_nat (length l1)
      ∧ (∃ r, trace w' = trace w ++ (EvAssign MoveAssign <$> l2)
                           ++ [EvDestroy r]
            ∧ (l2 = [] → r = x))
      ∧ leaked w' = leaked w
  | Thrown _ v' w' =>
      move_assign_can_throw ∧ wf v' ∧ size_ v' = size_ v
      ∧ Capacity v' = Capacity v
  | Abort _ => False
  end.
Proof.
  intros Hwf Hel.
  pose proof (Erase_spec v w l1 x l2 _ Hwf Hel eq_refl) as Hspec.
  destruct (wf_view v Hwf) as (l & rest & Hl & Hb & Hs & Hc & Hlt).
  rewrite Hel in Hl. injection Hl as <-.
  rewrite length_app in Hs, Hc. simpl in Hs, Hc.
  assert (∀ r w', Erase (N.of_nat (length l1)) v w = Done r w' →
            ∃ ys z, Forall2 move_assigned l2 ys ∧ (l2 = [] → z = x)
              ∧ delta w w' ((EvAssign MoveAssign <$> ys) ++ [EvDestroy z]) [])
    as Htrace.
  { intros r w'. unfold Erase, std_move, begin_, end_.
    destruct (0 <? size_ v) eqn:Hpos; [|apply N.ltb_ge in Hpos; lia].
    replace (size_ v <? 0 + N.of_nat (length l1) + 1) with false
      by (symmetry; apply N.ltb_ge; lia).
    replace (N.to_nat (size_ v - (0 + N.of_nat (length l1) + 1)))
      with (length l2) by lia.
    rewrite Hb, fmap_app, <-app_assoc. simpl. rewrite !N.add_0_l.
    destruct (move_loop _ _ _ _ _) as [b1 w1|?|] eqn:Hloop; [|done..].
    apply move_loop_shift_delta in Hloop as (ys & z & Hys & -> & Hz & Hd1);
      [|by rewrite length_fmap; lia|done].
    apply Forall2_length in Hys as Hlys.
    rewrite wsub_le by lia.
    destruct (Destroy _ _ w1) as [[b2 w2]|] eqn:Hdes; [|done].
    apply Destroy_Some in Hdes as (z' & Hlook & _ & Hd2).
    rewrite app_assoc in Hlook.
    rewrite list_lookup_middle in Hlook
      by (rewrite length_app, !length_fmap; lia).
    injection Hlook as <-.
    intros [= _ <-]. exists ys, z. split_and!; [done..|].
    apply (delta_trans _ _ _ _ _ [] [] Hd1 Hd2). }
  destruct (Erase (N.of_nat (length l1)) v w) as [[v' p] w'|ex v' w'|] eqn:Hers;
    [|done..].
  destruct Hspec as (ys & Hys & Hwf' & Hel' & Hcap & ->).
  apply move_assigned_value in Hys as ->.
  destruct (Htrace _ _ eq_refl) as (ys & z & Hys & Hz & Htr & Hlk & _).
  apply move_assigned_value in Hys as ->.
  destruct (wf_view v' Hwf') as (l' & rest' & Hl' & _ & Hs' & _).
  rewrite Hel' in Hl'. injection Hl' as <-. rewrite length_app in Hs'.
  split_and!; [done|done|lia|done|done|by exists z|by rewrite Hlk, app_nil_r].
Qed.

(** X17.  [Erase] at [end()] or beyond of a vector that is not empty has no
    defined result: the range it hands to [std::move] starts behind its
    end. *)
Theorem Erase_past_the_end_is_undefined num_pos v w :
  0 < size_ v → size_ v ≤ num_pos →
  Erase num_pos v w = Abort undefined_behaviour.
Proof.
  intros Hpos Hout. unfold Erase, std_move, begin_, end_.
  replace (0 <? size_ v) with true by (symmetry; apply N.ltb_lt; lia).
  by replace (size_ v <? 0 + num_pos + 1) with true
    by (symmetry; apply N.ltb_lt; lia).
Qed.

(** X18.  On a well formed vector [operator[]] with an index below the size
    passes its own assertion and that of [RawMemory::operator[]] and
    designates the element at that position; with any other index its
    assertion fails. *)
Theorem index_designates_element v l index :
  wf v → elements v = Some l →
  Vector_at index v = l !! N.to_nat index
  ∧ (index < size_ v → is_Some (Vector_at index v))
  ∧ (size_ v ≤ index → Vector_at index v = None)
  ∧ at_index index v = Vector_at index v.
Proof.
  intros Hwf Hel.
  destruct (Vector_at_lookup v l index Hwf Hel) as [Hat Hsame].
  destruct (wf_view v Hwf) as (l0 & rest & Hl & _ & Hs & _).
  rewrite Hel in Hl. injection Hl as <-.
  split_and!; [done| | |done].
  - intros Hi. rewrite Hat. apply lookup_lt_is_Some. lia.
  - intros Hi. rewrite Hat. apply lookup_ge_None. lia.
Qed.

(** X19.  [Resize(n)] that returns leaves the size [n] and the capacity
    [max(capacity, n)]: it never shrinks the capacity and, when it has to
    grow it, takes exactly [n] slots.  [Resize(size())] changes nothing.
    Growing within the capacity makes no constructor call but the value
    initialisations of the new elements. *)
Theorem Resize_sets_size_and_capacity n v w l :
  wf v → elements v = Some l → n < size_t_modulus →
  (∀ v' w', Resize n v w = Done v' w' →
     wf v' ∧ size_ v' = n ∧ Capacity v' = N.max (Capacity v) n)
  ∧ (n = size_ v → Resize n v w = Done v w)
  ∧ (size_ v < n → n ≤ Capacity v →
     ∀ v' w', Resize n v w = Done v' w' →
     ∃ ds, N.of_nat (length ds) = n - size_ v
       ∧ elements v' = Some (l ++ ds)
       ∧ trace w' = trace w ++ (EvConstruct ByDefault <$> ds)).
Proof.
  intros Hwf Hel Hn.
  destruct (wf_view v Hwf) as (l0 & rest & Hl & Hb & Hs & Hc & Hcap).
  rewrite Hel in Hl. injection Hl as <-.
  split_and!; [|intros ->; unfold Resize; by rewrite N.eqb_refl|].
  - intros v' w'. unfold Resize.
    destruct (n =? size_ v) eqn:Heq.
    { apply N.eqb_eq in Heq. intros [= <- <-]. split_and!; [done|done|lia]. }
    apply N.eqb_neq in Heq.
    destruct (n <? size_ v) eqn:Hlt.
    + apply N.ltb_lt in Hlt. rewrite wsub_le by lia.
      destruct (PopBack_times_spec (drop (N.to_nat n) l) v w
                  (take (N.to_nat n) l) Hwf)
        as (v1 & w1 & Hpop & Hwf1 & Hel1 & Hc1 & _).
      { by rewrite take_drop. }
      rewrite length_drop in Hpop.
      replace (N.to_nat (size_ v - n)) with (length l - N.to_nat n)%nat by lia.
      rewrite Hpop. intros [= <- <-].
      destruct (wf_view v1 Hwf1) as (l0 & ? & Hl & _ & Hs1 & _).
      rewrite Hel1 in Hl. injection Hl as <-. rewrite length_take in Hs1.
      split_and!; [done|lia|lia].
    + apply N.ltb_ge in Hlt.
      destruct (Reserve n v w) as [v1 w1|?|] eqn:Hres; [|done..].
      destruct (uninitialized_value_construct_n _ _ _ _) as [b w2|?|]
        eqn:Hcons; [|done..].
      intros [= <- <-].
      destruct (Resize_Reserve_Done n v w l v1 w1 b w2 Hwf Hel Hn
                  ltac:(lia) Hres Hcons) as (l1 & Hwf1 & Hel1 & Hs1 & Hc1).
      rewrite <-Hs1 in Hcons.
      destruct (value_construct_tail n v1 w1 l1 b w2 Hwf1 Hel1)
        as (ds & _ & Hwf2 & _); [lia|lia|done|].
      split_and!; [done|done|]. unfold Capacity in *. simpl. done.
  - intros Hlt Hfit v' w'. unfold Resize.
    replace (n =? size_ v) with false by (symmetry; apply N.eqb_neq; lia).
    replace (n <? size_ v) with false by (symmetry; apply N.ltb_ge; lia).
    rewrite Reserve_keep by done.
    destruct (uninitialized_value_construct_n _ _ _ _) as [b w2|?|] eqn:Hcons;
      [|done..].
    intros [= <- <-].
    destruct (value_construct_tail n v w l b w2 Hwf Hel Hlt Hfit Hcons)
      as (ds & Hds & _ & Hel' & Htr).
    by exists ds.
Qed.

(** X20.  For an element type whose move constructor is declared
    non-throwing or which is copyable, a [Resize] that throws was growing
    the vector, and leaves it with the elements and the size it had; its
    capacity is the old one or the one asked for.  The vector it leaves is
    well formed exactly when the capacity is the old one or
    [n * sizeof(T)] is within the range of [size_t]: beyond it [Reserve]
    has left the capacity [n] over a block of fewer slots. *)
Theorem Resize_throw_keeps_elements `{!ValueSemantics T}
    n v w l ex v' w' :
  is_nothrow_move_constructible = true ∨ is_copy_constructible = true →
  wf v → elements v = Some l → n < size_t_modulus →
  Resize n v w = Thrown ex v' w' →
  elements v' = Some l ∧ size_ v' = size_ v ∧ size_ v < n
  ∧ (Capacity v' = Capacity v ∨ Capacity v' = n)
  ∧ (wf v' ↔ Capacity v' = Capacity v ∨ n * sizeof < size_t_modulus).
Proof.
  intros Hpolicy Hwf Hel Hn. unfold Resize.
  destruct (wf_view v Hwf) as (l0 & rest & Hl & Hb & Hs & Hc & Hcap).
  rewrite Hel in Hl. injection Hl as <-.
  destruct (n =? size_ v) eqn:Heq; [done|]. apply N.eqb_neq in Heq.
  destruct (n <? size_ v) eqn:Hlt.
  { intros Hpop. by apply PopBack_times_not_Thrown in Hpop. }
  apply N.ltb_ge in Hlt.
  destruct (Reserve n v w) as [v1 w1|ex1 v1 w1|] eqn:Hres; [| |done].
  - assert (∃ rest1, block v1 = (Some <$> l) ++ rest1 ∧ size_ v1 = size_ v
              ∧ Capacity v1 < size_t_modulus ∧ n ≤ Capacity v1
              ∧ (Capacity v1 = Capacity v ∨ Capacity v1 = n)
              ∧ (length (block v1) = N.to_nat (Capacity v1)
                 ↔ Capacity v1 = Capacity v ∨ n * sizeof < size_t_modulus))
      as (rest1 & Hb1 & Hs1 & Hlt1 & Hfit & Hc1 & Hlen1).
    { destruct (decide (n ≤ Capacity v)) as [Hkeep|Hgrow].
      - rewrite Reserve_keep in Hres by done. injection Hres as <- <-.
        exists rest. split_and!; [done..|by left|].
        split; [by left|]. intros _. apply Hwf.
      - apply (Reserve_grow_Done n v w l) in Hres
          as (l' & rs & Hrel & _ & [Hb1 Hroom] & ? & Hc1 & _ & ? & _);
          [|done|done|lia|done].
        apply Forall2_length in Hrel as Hlen.
        apply relocated_value in Hrel as ->.
        eexists. split_and!; [exact Hb1|done|lia|lia|by right|].
        rewrite Hb1, length_app, length_fmap, length_replicate, Hc1. split.
        + intros Hfull. right. apply granted_eq_fits. lia.
        + intros [?|Hfits]; [lia|]. rewrite (granted_fits n Hfits). lia. }
    rewrite <-Hs1.
    destruct (uninitialized_value_construct_n _ _ _ _) as [?|ex2 b w2|]
      eqn:Hcons; [done| |done].
    intros [= <- <- <-].
    apply uninitialized_value_construct_n_Thrown in Hcons
      as (xs & Hlxs & Hle & -> & _).
    rewrite Hb1, length_app, length_fmap in Hle.
    assert (block (with_block (clear (block v1) (N.to_nat (size_ v1))
                     (length xs)) v1)
            = (Some <$> l) ++ replicate (length xs) None
                ++ drop (length xs) rest1) as Hb'.
    { change (block (with_block ?b' v1)) with b'.
      rewrite Hb1. unfold clear.
      rewrite take_app_length' by (rewrite length_fmap; lia).
      by rewrite drop_app_add' by (rewrite length_fmap; lia). }
    change (Capacity (with_block ?b' v1)) with (Capacity v1).
    change (size_ (with_block ?b' v1)) with (size_ v1).
    split_and!; [|done|lia|done|].
    + apply elements_Some.
      change (size_ (with_block ?b' v1)) with (size_ v1).
      split; [lia|]. rewrite Hb'. apply take_app_length'.
      by rewrite length_fmap.
    + rewrite <-Hlen1. split.
      * intros (Hfull & _).
        change (length (block (with_block (clear (block v1)
                  (N.to_nat (size_ v1)) (length xs)) v1))
                = N.to_nat (Capacity v1)) in Hfull.
        rewrite Hb' in Hfull.
        rewrite !length_app, length_replicate, length_drop in Hfull.
        rewrite Hb1, length_app. lia.
      * intros Hfull. rewrite Hb1, length_app, length_fmap in Hfull.
        destruct (view_wf _ l _ Hb') as [Hwf' _]; [| |exact Hlt1|done].
        { change (size_ (with_block ?b' v1)) with (size_ v1). lia. }
        change (Capacity (with_block ?b' v1)) with (Capacity v1).
        rewrite length_app, length_replicate, length_drop. lia.
  - intros [= <- <- <-].
    apply Reserve_Thrown_unchanged in Hres as [-> _]; [|done].
    split_and!; [done|done|lia|by left|]. split; [by left|done].
Qed.


(** X22.  [Erase] at the position of the last element is [PopBack]: it
    leaves the same vector and the same world of objects, and the iterator
    it returns is [end()] of the vector it leaves. *)
Theorem Erase_last_is_PopBack v w :
  0 < size_ v → size_ v < size_t_modulus →
  Erase (size_ v - 1) v w
  = match PopBack v w with
    | Done v' w' => Done (v', end_ v') w'
    | Thrown x v' w' => Thrown x v' w'
    | Abort f => Abort f
    end.
Proof.
  intros Hpos Hlt. unfold Erase, PopBack, std_move, begin_, end_.
  replace (0 <? size_ v) with true by (symmetry; apply N.ltb_lt; lia).
  replace (0 + (size_ v - 1) + 1) with (size_ v) by lia.
  rewrite N.ltb_irrefl, N.sub_diag, wsub_le by lia.
  change (N.to_nat 0) with 0%nat. cbn [move_loop].
  rewrite !N.add_0_l.
  destruct (Destroy (block v) (size_ v - 1) w) as [[b w']|]; [|done].
  cbn [noexcept size_]. do 2 f_equal. by case_match.
Qed.

(** X23.  No member function gives up capacity, swaps and moves apart:
    whether [Reserve], [Resize], a push, an insert, [Erase], [PopBack] or
    copy assignment returns or throws, the vector it leaves has at least
    the capacity it had. *)
Theorem capacity_never_decreases init value n num_pos (rhs : Vector T) v w :
  bounded v → n < size_t_modulus → num_pos < size_t_modulus →
  let keeps v' := Capacity v ≤ Capacity v' in
  ensures id keeps (Reserve n v w)
  ∧ ensures id keeps (Resize n v w)
  ∧ ensures id keeps (PushBack value v w)
  ∧ ensures id keeps (PushBack_rvalue value v w)
  ∧ ensures fst keeps (EmplaceBack init v w)
  ∧ ensures fst keeps (Insert num_pos value v w)
  ∧ ensures fst keeps (Insert_rvalue num_pos value v w)
  ∧ ensures fst keeps (Emplace num_pos init v w)
  ∧ ensures fst keeps (Erase num_pos v w)
  ∧ ensures id keeps (PopBack v w)
  ∧ ensures id keeps (copy_assign v rhs w).
Proof.
  intros Hb Hn Hpos keeps. unfold keeps.
  assert (∀ i, ensures id (λ v', Capacity v ≤ Capacity v')
                 (push_back_body i v w)) as Hpush.
  { intros i. destruct (push_back_body i v w) as [v' w'|ex v' w'|] eqn:Hop;
      [| |done]; simpl.
    - apply push_back_body_Done in Hop as [_ [[_ ->]|(? & -> & ?)]]; lia.
    - apply push_back_body_Thrown in Hop as [_ ->]. lia. }
  assert (∀ i, ensures fst (λ v', Capacity v ≤ Capacity v')
                 (Emplace num_pos i v w)) as Hemplace.
  { intros i. destruct (Emplace num_pos i v w) as [[v' p] w'|ex v' w'|] eqn:Hop;
      [| |done]; simpl.
    - apply Emplace_Done in Hop as (_ & _ & [[_ ->]|(? & -> & ? & ?)]); [lia|].
      pose proof (grown_size_fits v num_pos Hb Hpos). lia.
    - apply Emplace_Thrown in Hop as [_ ->]. lia. }
  assert (ensures id (λ v', Capacity v ≤ Capacity v') (Reserve n v w))
    as Hreserve.
  { destruct (Reserve n v w) as [v' w'|ex v' w'|] eqn:Hop; [| |done]; simpl.
    - apply Reserve_Done in Hop as [_ [(_ & -> & _)|[? ->]]]; lia.
    - apply Reserve_Thrown in Hop as [_ ->]. lia. }
  split_and!; try done.
  - unfold Resize. destruct (n =? size_ v); [simpl; lia|].
    destruct (n <? size_ v).
    + destruct (PopBack_times _ v w) as [v' w'|ex v' w'|] eqn:Hop;
        [| |done]; simpl.
      * apply PopBack_times_Done in Hop as [-> _]. lia.
      * by apply PopBack_times_not_Thrown in Hop.
    + destruct (Reserve n v w) as [v1 w1|ex v1 w1|]; [|done..].
      simpl in Hreserve.
      destruct (uninitialized_value_construct_n _ _ _ _); [..|done]; done.
  - apply Hpush.
  - apply Hpush.
  - unfold EmplaceBack. specialize (Hpush init).
    by destruct (push_back_body init v w).
  - apply Hemplace.
  - apply Hemplace.
  - destruct (Erase num_pos v w) as [[v' p] w'|ex v' w'|] eqn:Hop;
      [| |done]; simpl.
    + apply Erase_Done in Hop as [-> _]. lia.
    + apply Erase_Thrown in Hop as [_ ->]. lia.
  - destruct (PopBack v w) as [v' w'|ex v' w'|] eqn:Hop; [| |done]; simpl.
    + apply PopBack_Done in Hop as [-> _]. lia.
    + by apply PopBack_not_Thrown in Hop.
  - apply copy_assign_Capacity.
Qed.

(** X24.  An insert before an existing element of a vector with spare
    capacity, when it returns, has made these calls on elements, in this
    order: the construction of a temporary from the argument; the move
    construction of the last element [z] in the first spare slot; the move
    assignment of each element between the position and the last, back to
    front, one slot up; the move assignment of the temporary to the
    position; the destruction of the temporary.  The capacity is kept and
    the new element stands before the elements that were at and behind the
    position.  [Insert(pos, value)] is [Emplace] with the argument
    [ICopy value] or [IMove value]. *)
Theorem Insert_into_spare_capacity_shifts_by_move_assignment
    `{!ValueSemantics T} init v w l1 m z :
  wf v → elements v = Some (l1 ++ m ++ [z]) → size_ v < Capacity v →
  ∀ v' p w', Emplace (N.of_nat (length l1)) init v w = Done (v', p) w' →
  ∃ x r, initialises init x
    ∧ elements v' = Some (l1 ++ x :: m ++ [z])
    ∧ Capacity v' = Capacity v
    ∧ trace w' = trace w
        ++ [EvConstruct (init_kind init) x; EvConstruct ByMove z]
        ++ (EvAssign MoveAssign <$> reverse m)
        ++ [EvAssign MoveAssign x; EvDestroy r].
Proof.
  intros Hwf Hel Hspare v' p w'.
  destruct (wf_view v Hwf) as (l & rest & Hl & Hb & Hs & Hc & Hlt).
  rewrite Hel in Hl. injection Hl as <-.
  destruct rest as [|s rest]; [rewrite Nat.add_0_r in Hc; lia|].
  rewrite !length_app in Hs, Hc. simpl in Hs, Hc.
  unfold Emplace, begin_, end_.
  replace (size_ v <? Capacity v) with true
    by (symmetry; apply N.ltb_lt; lia).
  rewrite !N.add_0_l.
  replace (N.of_nat (length l1) =? size_ v) with false
    by (symmetry; apply N.eqb_neq; lia).
  destruct (call_ctor init w) as [value w1|?|] eqn:Hctor; [|done..].
  apply call_ctor_Done in Hctor as [Hx Hd0].
  replace (size_ v =? 0) with false by (symmetry; apply N.eqb_neq; lia).
  replace (size_ v - 1) with (N.of_nat (length l1 + length m)) by lia.
  rewrite Hb, !fmap_app, !app_assoc, <-(app_assoc _ [Some z]). simpl.
  rewrite <-fmap_app.
  destruct (move_construct_within _ _ _ _) as [b1 w2|?|] eqn:Hmc; [|done..].
  pose proof Hmc as (u & s' & z' & r & Hu & _ & Hz & _ & Ht1 & _)
    %move_construct_within_Done.
  rewrite Nat2N.id, list_lookup_middle in Hu
    by (by rewrite length_fmap, length_app).
  injection Hu as <-.
  apply move_construct_within_up in Hmc as (z'' & r0 & Hz'' & ->);
    [|rewrite length_fmap, length_app; lia|lia].
  assert (z' = z) as ->.
  { destruct Hz as (e & r' & e' & Hm). by eapply ctor_move_value. }
  assert (z'' = z) as ->.
  { destruct Hz'' as (e & r' & e' & Hm). by eapply ctor_move_value. }
  unfold std_move_backward.
  replace (N.of_nat (length l1 + length m) <? N.of_nat (length l1))
    with false by (symmetry; apply N.ltb_ge; lia).
  replace (N.to_nat (N.of_nat (length l1 + length m) - N.of_nat (length l1)))
    with (length m) by lia.
  rewrite fmap_app, <-app_assoc.
  destruct (move_backward_loop _ _ _ _ _) as [b2 w3|?|] eqn:Hloop; [|done..].
  apply move_backward_loop_shift_delta in Hloop
    as (r' & ys & Hys & -> & Hd2); [|rewrite length_fmap; lia|lia].
  apply move_assigned_value in Hys as ->.
  destruct (move_assign_from _ _ _ _) as [[b3 rr] w4|? [? ?] ?|] eqn:Hma;
    [|done..].
  apply move_assign_from_Done_delta in Hma as (d' & Hd' & -> & Hd3);
    [|rewrite length_fmap; lia].
  assert (d' = value) as ->.
  { destruct Hd' as (d & e & r1 & e' & Ha). by eapply assign_move_value. }
  intros [= <- <- <-]. exists value, rr.
  edestruct (view_wf (mkVector (mkRawMemory
     ((Some <$> l1) ++ Some value :: (Some <$> m) ++ Some z :: rest)
     (capacity_ (data_ v))) (wrap (size_ v + 1)))
     (l1 ++ value :: m ++ [z]) rest) as [Hwf' Hel'].
  { simpl. rewrite !fmap_app. simpl. rewrite fmap_app. simpl.
    rewrite <-!app_assoc. simpl. by rewrite <-!app_assoc. }
  { simpl. rewrite !length_app, wrap_small; simpl;
      rewrite ?length_app; simpl; lia. }
  { unfold Capacity, RawMemory_Capacity in *. simpl in *.
    rewrite !length_app. simpl. rewrite length_app. simpl. lia. }
  { done. }
  split_and!; [done..|].
  destruct Hd0 as [Ht0 _]. destruct Hd2 as [Ht2 _].
  destruct Hd3 as [Ht3 _]. simpl.
  rewrite Ht3, Ht2, Ht1, Ht0, <-!app_assoc. simpl.
  done.
Qed.


(** X26.  An insert at a position behind [end()] never returns: it throws
    or it has no defined result. *)
Theorem Insert_past_the_end_never_returns num_pos init value v w :
  wf v → size_ v < num_pos →
  (∀ r w', Emplace num_pos init v w ≠ Done r w')
  ∧ (∀ r w', Insert num_pos value v w ≠ Done r w')
  ∧ (∀ r w', Insert_rvalue num_pos value v w ≠ Done r w').
Proof.
  intros Hwf Hpos.
  assert (∀ i r w', Emplace num_pos i v w ≠ Done r w') as Hnever;
    [|by split_and!; intros; apply Hnever].
  intros i r w'. pose proof Hwf as (Hlen & Hcap & Hle & _).
  unfold Emplace, end_, begin_.
  replace (num_pos =? size_ v) with false by (symmetry; apply N.eqb_neq; lia).
  destruct (size_ v <? Capacity v) eqn:Hspare.
  - destruct (call_ctor i w) as [x w1|?|]; [|done..].
    destruct (size_ v =? 0); [done|].
    destruct (move_construct_within _ _ _ _) as [b1 w2|?|]; [|done..].
    unfold std_move_backward.
    by replace (size_ v - 1 <? 0 + num_pos) with true
      by (symmetry; apply N.ltb_lt; lia).
  - apply N.ltb_ge in Hspare.
    destruct (RawMemory_new _ _) as [nd w1|?|]; [|done..].
    destruct (construct_at _ _ _ _) as [nb w2|?|]; [|done..].
    destruct (relocate_n (block v) 0 num_pos nb 0 w2)
      as [[old nb1] w3|? [old nb1] w3|] eqn:Hrel; [| |done].
    + apply relocate_n_Done in Hrel as (vs & ? & ? & Htake & Hlvs & _).
      apply (f_equal length) in Htake.
      rewrite length_take, length_drop, length_fmap in Htake. lia.
    + by destruct (Destroy _ _ _) as [[]|].
Qed.

End Further.

(** ** Examples of the properties *)

Lemma wf_vector_123 : wf vector_123.
Proof. by apply (view_wf _ [1; 2; 3]%nat [None]). Qed.

(** Witness of X1: [Vector<int>(2)]. *)
Lemma Vector_sized_constructs_defaults_witness :
  ∃ v w', Vector_sized 2 nat_world = Done v w'
    ∧ wf v ∧ size_ v = 2 ∧ Capacity v = 2.
Proof.
  destruct (Vector_sized_constructs_defaults 2 nat_world ltac:(done))
    as (HDone & _ & Hret & _).
  destruct (Hret nat_nothrow ltac:(by vm_compute)) as (v & w' & Hop).
  exists v, w'. destruct (HDone v w' Hop) as (? & ? & ? & _). by split_and!.
Defined.

(** Witness of X2: a copy of [1; 2; 3], held in four slots, has three. *)
Lemma Vector_copy_copies_elements_witness :
  ∃ v w', Vector_copy vector_123 nat_world = Done v w'
    ∧ elements v = Some [1; 2; 3]%nat ∧ Capacity v = 3.
Proof.
  destruct (Vector_copy_copies_elements vector_123 nat_world [1; 2; 3]%nat
              wf_vector_123 eq_refl) as (HDone & _ & Hret).
  destruct (Hret nat_nothrow ltac:(by vm_compute)) as (v & w' & Hop).
  exists v, w'. destruct (HDone v w' Hop) as (_ & ? & _ & ? & _).
  by split_and!.
Defined.

(** Witness of X3: [7] with capacity 1 is assigned [1; 2; 3]. *)
Lemma copy_assign_reallocating_is_copy_and_swap_witness :
  match copy_assign (full_vector [7%nat]) vector_123 nat_world with
  | Done v w' =>
      elements v = Some [1; 2; 3]%nat ∧ Capacity v = 3
      ∧ trace w' = [EvConstruct ByCopy 1%nat; EvConstruct ByCopy 2%nat;
                    EvConstruct ByCopy 3%nat; EvDestroy 7%nat]
  | _ => False
  end.
Proof.
  assert (wf (full_vector [7%nat])) as Hwf by by apply wf_full_vector.
  generalize (copy_assign_reallocating_is_copy_and_swap
                (full_vector [7%nat]) vector_123 nat_world [7%nat]
                [1; 2; 3]%nat Hwf wf_vector_123 eq_refl eq_refl
                ltac:(by vm_compute)).
  destruct (copy_assign (full_vector [7%nat]) vector_123 nat_world)
    as [v w'|?|] eqn:Hop; [|by vm_compute in Hop..].
  intros (_ & ? & ? & ? & _). by split_and!.
Defined.

(** The outcome X3 leaves open: a source of [2^62 + 1] elements of four
    bytes each, whose copy asks [operator new] for four bytes. *)
Lemma copy_assign_oversized_source_example :
  let rhs : Vector nat := full_vector (replicate (N.to_nat (2 ^ 62 + 1)) 0%nat) in
  wf rhs ∧ ∃ f, copy_assign Vector_default rhs nat_world = Abort f.
Proof.
  intros rhs.
  assert (size_ rhs = 2 ^ 62 + 1) as Hs.
  { unfold rhs, full_vector. cbn [size_]. rewrite length_replicate.
    apply N2Nat.id. }
  assert (wf rhs) as Hwf.
  { apply wf_full_vector. rewrite length_replicate, N2Nat.id. done. }
  split; [done|].
  apply (copy_assign_oversized_source Vector_default rhs nat_world);
    [apply wf_default|done|rewrite Hs; done|rewrite Hs; done|rewrite Hs; done].
Qed.

(** Witness of X4: [1; 2; 3], held in four slots, is assigned
    [7; 8; 9; 10]. *)
Lemma copy_assign_in_place_assigns_then_constructs_witness :
  match copy_assign vector_123 (full_vector [7; 8; 9; 10]%nat) nat_world with
  | Done v w' =>
      elements v = Some [7; 8; 9; 10]%nat ∧ Capacity v = 4
      ∧ trace w' = [EvAssign CopyAssign 7%nat; EvAssign CopyAssign 8%nat;
                    EvAssign CopyAssign 9%nat; EvConstruct ByCopy 10%nat]
  | _ => False
  end.
Proof.
  assert (wf (full_vector [7; 8; 9; 10]%nat)) as Hwf
    by by apply wf_full_vector.
  generalize (copy_assign_in_place_assigns_then_constructs vector_123
                (full_vector [7; 8; 9; 10]%nat) nat_world [1; 2; 3]%nat
                [7; 8; 9]%nat [10%nat] wf_vector_123 Hwf eq_refl eq_refl
                eq_refl ltac:(by vm_compute)).
  destruct (copy_assign vector_123 (full_vector [7; 8; 9; 10]%nat) nat_world)
    as [v w'|?|] eqn:Hop; [|by vm_compute in Hop..].
  intros (_ & ? & ? & ? & _). by split_and!.
Defined.

(** Witness of X5: [1; 2; 3] is assigned the empty vector. *)
Lemma copy_assign_from_empty_destroys_all_witness :
  ∃ v w', copy_assign vector_123 Vector_default nat_world = Done v w'
    ∧ elements v = Some [] ∧ Capacity v = 4
    ∧ trace w' = [EvDestroy 1%nat; EvDestroy 2%nat; EvDestroy 3%nat].
Proof.
  destruct (copy_assign_from_empty_destroys_all vector_123 Vector_default
              nat_world [1; 2; 3]%nat wf_vector_123 eq_refl eq_refl)
    as (v & w' & ? & _ & ? & _ & ? & ? & _).
  exists v, w'. by split_and!.
Defined.

(** Witness of X6: [Reserve(8)] on [1; 2; 3] held in four slots; and
    [Reserve(2^62 + 1)] on an empty vector of elements of four bytes, where
    the byte count wraps to 4: the call returns with the capacity
    [2^62 + 1] over a block of one slot. *)
Lemma Reserve_keeps_elements_witness :
  (∃ v' w', Reserve 8 vector_123 nat_world = Done v' w'
     ∧ elements v' = Some [1; 2; 3]%nat ∧ Capacity v' = 8 ∧ wf v')
  ∧ (∃ v' w', Reserve (2 ^ 62 + 1) Vector_default nat_world = Done v' w'
       ∧ Capacity v' = 2 ^ 62 + 1 ∧ length (block v') = 1%nat ∧ ¬ wf v').
Proof.
  split.
  - destruct (Reserve_keeps_elements 8 vector_123 nat_world [1; 2; 3]%nat
                wf_vector_123 eq_refl ltac:(done)) as [HDone Hret].
    destruct (Hret nat_nothrow ltac:(by vm_compute)) as (v' & w' & Hop).
    exists v', w'. destruct (HDone v' w' Hop) as (? & _ & ? & _ & Hwf).
    split_and!; [done..|]. apply Hwf. right. by vm_compute.
  - destruct (Reserve_keeps_elements (2 ^ 62 + 1) Vector_default nat_world []
                wf_default eq_refl ltac:(by vm_compute)) as [HDone _].
    destruct (Reserve (2 ^ 62 + 1) Vector_default nat_world)
      as [v' w'|?|] eqn:Hop; [|by vm_compute in Hop..].
    exists v', w'. destruct (HDone v' w' eq_refl) as (_ & _ & ? & _ & Hwf).
    split_and!; [done|done| |].
    + vm_compute in Hop. by injection Hop as <- <-.
    + intros [Hle|Hfit]%Hwf; [by vm_compute in Hle|by vm_compute in Hfit].
Defined.

(** Witness of X7: [Reserve(4)] on a full vector of two instrumented
    elements whose second relocating copy throws. *)
Lemma Reserve_throw_leaves_vector_unchanged_witness :
  ∃ ex v' w',
    Reserve 4 (full_vector [mkCounted 1; mkCounted 2]) (counted_world 1)
      = Thrown ex v' w'
    ∧ v' = full_vector [mkCounted 1; mkCounted 2] ∧ leaked w' = [].
Proof.
  destruct (Reserve 4 (full_vector [mkCounted 1; mkCounted 2])
              (counted_world 1)) as [?|ex v' w'|] eqn:Hres;
    [by vm_compute in Hres| |by vm_compute in Hres].
  exists ex, v', w'. split; [done|].
  destruct (Reserve_throw_leaves_vector_unchanged 4
              (full_vector [mkCounted 1; mkCounted 2]) (counted_world 1)
              ex v' w' (or_intror eq_refl) Hres) as (? & ? & _).
  by split.
Defined.

(** Witness of X8: pushing 4 onto [1; 2; 3]. *)
Lemma PushBack_appends_witness :
  ∃ v' w', PushBack 4%nat vector_123 nat_world = Done v' w'
    ∧ elements v' = Some [1; 2; 3; 4]%nat ∧ size_ v' = 4.
Proof.
  destruct (PushBack 4%nat vector_123 nat_world) as [v' w'|?|] eqn:Hop;
    [|by vm_compute in Hop..].
  exists v', w'. split; [done|].
  destruct (PushBack_appends (ICopy 4%nat) 4%nat vector_123 nat_world
              [1; 2; 3]%nat wf_vector_123 eq_refl) as (HDone & _).
  destruct (HDone v' w' Hop) as (_ & ? & ?). by split.
Defined.

(** Witness of X9: pushing 4 onto [1; 2; 3] held in four slots. *)
Lemma PushBack_with_spare_capacity_witness :
  ∃ v' w', PushBack 4%nat vector_123 nat_world = Done v' w'
    ∧ Capacity v' = 4
    ∧ ∃ x, trace w' = [EvConstruct ByCopy x].
Proof.
  destruct (PushBack 4%nat vector_123 nat_world) as [v' w'|?|] eqn:Hop;
    [|by vm_compute in Hop..].
  exists v', w'. split; [done|].
  destruct (PushBack_with_spare_capacity (ICopy 4%nat) 4%nat vector_123
              nat_world [1; 2; 3]%nat wf_vector_123 eq_refl
              ltac:(by vm_compute)) as (HDone & _).
  destruct (HDone v' w' Hop) as (x & _ & ? & ?). split; [done|]. by exists x.
Defined.

(** Witness of X10: [Reserve(8)] on [1; 2; 3], then pushing 4 and 5. *)
Lemma Reserve_then_PushBack_never_reallocates_witness :
  ∃ v1 w1 v2 w2,
    Reserve 8 vector_123 nat_world = Done v1 w1
    ∧ pushed v1 w1 [4; 5]%nat v2 w2
    ∧ Capacity v2 = Capacity v1
    ∧ elements v2 = Some [1; 2; 3; 4; 5]%nat.
Proof.
  destruct (Reserve 8 vector_123 nat_world) as [v1 w1|?|] eqn:Hres;
    [|by vm_compute in Hres..].
  destruct (PushBack 4%nat v1 w1) as [va wa|?|] eqn:Ha;
    [|vm_compute in Hres; injection Hres as <- <-; by vm_compute in Ha..].
  destruct (PushBack 5%nat va wa) as [vb wb|?|] eqn:Hb;
    [|vm_compute in Hres; injection Hres as <- <-;
      vm_compute in Ha; injection Ha as <- <-; by vm_compute in Hb..].
  assert (pushed v1 w1 [4; 5]%nat vb wb) as Hpush.
  { eapply pushed_cons; [exact Ha|].
    eapply pushed_cons; [exact Hb|apply pushed_nil]. }
  exists v1, w1, vb, wb. split; [done|]. split; [done|].
  destruct (Reserve_then_PushBack_never_reallocates 8 vector_123 nat_world
              [1; 2; 3]%nat v1 w1 [4; 5]%nat vb wb wf_vector_123 eq_refl
              ltac:(done) ltac:(by vm_compute) Hres Hpush) as (? & ? & _).
  by split.
Defined.

(** Witness of X11: three pushes onto an empty vector lead to four slots. *)
Lemma pushes_from_empty_double_capacity_witness :
  ∃ v' w', pushed Vector_default nat_world [1; 2; 3]%nat v' w'
    ∧ elements v' = Some [1; 2; 3]%nat ∧ Capacity v' = 4.
Proof.
  destruct (PushBack 1%nat Vector_default nat_world) as [va wa|?|] eqn:Ha;
    [|by vm_compute in Ha..].
  destruct (PushBack 2%nat va wa) as [vb wb|?|] eqn:Hb;
    [|vm_compute in Ha; injection Ha as <- <-; by vm_compute in Hb..].
  destruct (PushBack 3%nat vb wb) as [vc wc|?|] eqn:Hc;
    [|vm_compute in Ha; injection Ha as <- <-;
      vm_compute in Hb; injection Hb as <- <-; by vm_compute in Hc..].
  assert (pushed Vector_default nat_world [1; 2; 3]%nat vc wc) as Hpush.
  { eapply pushed_cons; [exact Ha|]. eapply pushed_cons; [exact Hb|].
    eapply pushed_cons; [exact Hc|apply pushed_nil]. }
  exists vc, wc. split; [done|].
  destruct (pushes_from_empty_double_capacity nat_world [1; 2; 3]%nat vc wc
              Hpush) as (_ & ? & ?).
  by split.
Defined.

(** Witness of X12: pushing 4 onto [1; 2; 3] and popping it. *)
Lemma PushBack_then_PopBack_restores_witness :
  ∃ v1 w1 v2 w2,
    PushBack 4%nat vector_123 nat_world = Done v1 w1
    ∧ PopBack v1 w1 = Done v2 w2
    ∧ elements v2 = Some [1; 2; 3]%nat.
Proof.
  destruct (PushBack 4%nat vector_123 nat_world) as [v1 w1|?|] eqn:Hop;
    [|by vm_compute in Hop..].
  destruct (PushBack_then_PopBack_restores 4%nat vector_123 nat_world
              [1; 2; 3]%nat v1 w1 wf_vector_123 eq_refl Hop)
    as (v2 & w2 & ? & ? & _).
  by exists v1, w1, v2, w2.
Defined.

(** Witness of X13: inserting 9 at [end()] of [1; 2; 3]. *)
Lemma Insert_at_end_is_PushBack_witness :
  ∃ v' w', PushBack 9%nat vector_123 nat_world = Done v' w'
    ∧ Insert 3 9%nat vector_123 nat_world = Done (v', 3) w'.
Proof.
  destruct (PushBack 9%nat vector_123 nat_world) as [v' w'|?|] eqn:Hop;
    [|by vm_compute in Hop..].
  exists v', w'. split; [done|].
  destruct (Insert_at_end_is_PushBack (ICopy 9%nat) 9%nat vector_123
              nat_world ltac:(done) v' 3 w') as [[_ Hback] _].
  by apply Hback.
Defined.

(** Witness of X14: popping 3 off [1; 2; 3]. *)
Lemma PopBack_removes_last_element_witness :
  ∃ v' w', PopBack vector_123 nat_world = Done v' w'
    ∧ elements v' = Some [1; 2]%nat ∧ trace w' = [EvDestroy 3%nat].
Proof.
  destruct (PopBack_removes_last_element vector_123 nat_world wf_vector_123)
    as [_ Hpop].
  destruct (Hpop [1; 2]%nat 3%nat eq_refl)
    as (v' & w' & ? & _ & ? & _ & _ & ? & _).
  by exists v', w'.
Defined.

(** Witness of X15: the destructor of [1; 2; 3]. *)
Lemma destructor_destroys_every_element_witness :
  ∃ w', Vector_dtor vector_123 nat_world = Done () w'
    ∧ trace w' = [EvDestroy 1%nat; EvDestroy 2%nat; EvDestroy 3%nat]
    ∧ leaked w' = [].
Proof.
  destruct (destructor_destroys_every_element vector_123 nat_world
              [1; 2; 3]%nat wf_vector_123 eq_refl) as (w' & ? & ? & _ & ?).
  by exists w'.
Defined.

(** Witness of X16: erasing 2 from [1; 2; 3]. *)
Lemma Erase_removes_element_witness :
  match Erase 1 vector_123 nat_world with
  | Done (v', p) w' => elements v' = Some [1; 3]%nat ∧ p = 1 ∧ size_ v' = 2
  | _ => False
  end.
Proof.
  generalize (Erase_removes_element vector_123 nat_world [1%nat] 2%nat
                [3%nat] wf_vector_123 eq_refl).
  change (N.of_nat (length [1%nat])) with 1.
  destruct (Erase 1 vector_123 nat_world) as [[v' p] w'|?|] eqn:Hop;
    [|by vm_compute in Hop..].
  intros (_ & ? & ? & _ & ? & _). by split_and!.
Defined.

(** Witness of X17: erasing at [end()] of [1; 2; 3]. *)
Lemma Erase_past_the_end_is_undefined_witness :
  Erase 3 vector_123 nat_world = Abort undefined_behaviour.
Proof.
  apply (Erase_past_the_end_is_undefined 3 vector_123 nat_world); by vm_compute.
Defined.

(** Witness of X18: the element 1 of [1; 2; 3], and the index 3. *)
Lemma index_designates_element_witness :
  Vector_at 1 vector_123 = Some 2%nat ∧ Vector_at 3 vector_123 = None.
Proof.
  split.
  - by destruct (index_designates_element vector_123 [1; 2; 3]%nat 1
                   wf_vector_123 eq_refl) as (-> & _).
  - destruct (index_designates_element vector_123 [1; 2; 3]%nat 3
                wf_vector_123 eq_refl) as (_ & _ & Hnone & _).
    apply Hnone. by vm_compute.
Defined.

(** Witness of X19: [Resize(6)] on [1; 2; 3] held in four slots. *)
Lemma Resize_sets_size_and_capacity_witness :
  ∃ v' w', Resize 6 vector_123 nat_world = Done v' w'
    ∧ size_ v' = 6 ∧ Capacity v' = 6.
Proof.
  destruct (Resize 6 vector_123 nat_world) as [v' w'|?|] eqn:Hop;
    [|by vm_compute in Hop..].
  exists v', w'. split; [done|].
  destruct (Resize_sets_size_and_capacity 6 vector_123 nat_world
              [1; 2; 3]%nat wf_vector_123 eq_refl ltac:(done)) as (HDone & _).
  destruct (HDone v' w' Hop) as (_ & ? & ?). by split.
Defined.

(** Witness of X20: [Resize(3)] on a full vector of one instrumented
    element, whose second value initialisation throws. *)
Lemma Resize_throw_keeps_elements_witness :
  ∃ ex v' w',
    Resize 3 (full_vector [mkCounted 1]) (counted_world 2) = Thrown ex v' w'
    ∧ elements v' = Some [mkCounted 1] ∧ Capacity v' = 3.
Proof.
  destruct (Resize 3 (full_vector [mkCounted 1]) (counted_world 2))
    as [?|ex v' w'|] eqn:Hop;
    [by vm_compute in Hop| |by vm_compute in Hop].
  exists ex, v', w'. split; [done|].
  assert (wf (full_vector [mkCounted 1])) as Hwf by by apply wf_full_vector.
  destruct (Resize_throw_keeps_elements 3 (full_vector [mkCounted 1])
              (counted_world 2) [mkCounted 1] ex v' w' (or_intror eq_refl)
              Hwf eq_refl ltac:(done) Hop) as (? & _ & _ & [Hc|Hc] & _).
  - split; [done|]. vm_compute in Hop. by simplify_eq.
  - by split.
Defined.


(** Without the bound on the capacity asked of [Reserve] the invariant
    fails: after [Reserve(2^62 + 1)] on an empty vector of elements of four
    bytes, which returns, the vector has the capacity [2^62 + 1] and a block
    of one slot. *)
Lemma reachable_vector_not_well_formed :
  ∃ (st : gmap nat (Vector nat)) w v,
    reachable st w ∧ st !! 0%nat = Some v
    ∧ Capacity v = 2 ^ 62 + 1 ∧ length (block v) = 1%nat ∧ ¬ wf v.
Proof.
  exists {[0%nat := mkVector (mkRawMemory [None] (2 ^ 62 + 1)) 0]}, nat_world,
    (mkVector (mkRawMemory [None] (2 ^ 62 + 1)) 0).
  split_and!; [|done|done|done|].
  - apply (reachable_return (CReserve 0 (2 ^ 62 + 1))
             {[0%nat := Vector_default]} nat_world);
      [|by vm_compute|by vm_compute].
    by apply (reachable_return (CDefault 0) ∅ nat_world);
      [apply reachable_start|done|vm_compute].
  - intros (Hlen & _). unfold block, Capacity, RawMemory_Capacity in Hlen.
    cbn [buffer_ data_ capacity_ length] in Hlen. lia.
Qed.


(** Witness of X22: erasing the last element of [1; 2; 3]. *)
Lemma Erase_last_is_PopBack_witness :
  Erase 2 vector_123 nat_world
  = match PopBack vector_123 nat_world with
    | Done v' w' => Done (v', end_ v') w'
    | Thrown x v' w' => Thrown x v' w'
    | Abort f => Abort f
    end.
Proof.
  apply (Erase_last_is_PopBack vector_123 nat_world); by vm_compute.
Defined.

(** Witness of X23: [Reserve(8)] and [Erase] on [1; 2; 3] held in four
    slots. *)
Lemma capacity_never_decreases_witness :
  ensures id (λ v', 4 ≤ Capacity v') (Reserve 8 vector_123 nat_world)
  ∧ ensures fst (λ v', 4 ≤ Capacity v') (Erase 1 vector_123 nat_world).
Proof.
  destruct (capacity_never_decreases (ICopy 0%nat) 0%nat 8 1
              vector_123 vector_123 nat_world)
    as (Hreserve & _ & _ & _ & _ & _ & _ & _ & Herase & _);
    [split; by vm_compute|by vm_compute..|].
  by split.
Defined.

(** Witness of X24: inserting 9 before the 2 of [1; 2; 3], held in four
    slots. *)
Lemma Insert_into_spare_capacity_shifts_by_move_assignment_witness :
  ∃ v' p w', Insert 1 9%nat vector_123 nat_world = Done (v', p) w'
    ∧ elements v' = Some [1; 9; 2; 3]%nat
    ∧ trace w' = [EvConstruct ByCopy 9%nat; EvConstruct ByMove 3%nat;
                  EvAssign MoveAssign 2%nat; EvAssign MoveAssign 9%nat;
                  EvDestroy 9%nat].
Proof.
  destruct (Insert 1 9%nat vector_123 nat_world) as [[v' p] w'|?|] eqn:Hop;
    [|by vm_compute in Hop..].
  exists v', p, w'. split; [done|].
  destruct (Insert_into_spare_capacity_shifts_by_move_assignment
              (ICopy 9%nat) vector_123 nat_world [1%nat] [2%nat] 3%nat
              wf_vector_123 eq_refl ltac:(by vm_compute) v' p w' Hop)
    as (x & r & Hx & Hel & _ & Htr).
  assert (x = 9%nat) as -> by (apply initialises_value; by left).
  vm_compute in Hop. injection Hop as _ _ <-. by split.
Defined.


(** Witness of X26: inserting at position 5 of [1; 2; 3]. *)
Lemma Insert_past_the_end_never_returns_witness :
  match Insert 5 9%nat vector_123 nat_world with
  | Done _ _ => False
  | _ => True
  end.
Proof.
  destruct (Insert_past_the_end_never_returns 5 (ICopy 9%nat) 9%nat
              vector_123 nat_world wf_vector_123 ltac:(by vm_compute))
    as (_ & Hnever & _).
  destruct (Insert 5 9%nat vector_123 nat_world) as [r w'|?|]; [|done..].
  by destruct (Hnever r w').
Defined.
